(** * Skypro.Wallet expense page: a shallow embedding of [src/app/page.tsx]

  The page keeps an array of expense records in React state, adds,
  edits and deletes records, mirrors the array into [localStorage] and
  shows a filtered and sorted projection of it.

  The embedding has two layers.  The first models the parts of the
  ECMAScript library the page calls (strings as sequences of UTF-16
  code units, Numbers as binary64 values, [Number(...)], [Math.round],
  [String.prototype.trim] and [replace], [Array.prototype.sort]).  The
  second is the page itself: its state, its event handlers and its
  derived view, written function by function after the source. *)

From Stdlib Require Import ZArith NArith List Bool Lia Ascii String SpecFloat.
From Stdlib Require Import Permutation Sorted.
Import ListNotations.

Local Open Scope Z_scope.

(* ================================================================== *)
(** * ECMAScript strings *)
(* ================================================================== *)

Module JSString.

(** A String value is a finite sequence of 16-bit code units. *)
Definition code_unit := N.
Definition jsstring := list code_unit.

Definition eqb (a b : jsstring) : bool :=
  if list_eq_dec N.eq_dec a b then true else false.

(** [WhiteSpace] and [LineTerminator] code points: the set matched by
    the regular expression class [\s] and stripped by [trim]. *)
Definition isWhiteSpace (c : code_unit) : bool :=
  ((9 <=? c) && (c <=? 13) || (c =? 32) || (c =? 160) || (c =? 5760)
   || ((8192 <=? c) && (c <=? 8202)) || (c =? 8232) || (c =? 8233)
   || (c =? 8239) || (c =? 8287) || (c =? 12288) || (c =? 65279))%N.

(** [s.trimStart()] *)
Fixpoint trimStart (s : jsstring) : jsstring :=
  match s with
  | c :: s' => if isWhiteSpace c then trimStart s' else s
  | [] => []
  end.

(** [s.trimEnd()] *)
Fixpoint trimEnd (s : jsstring) : jsstring :=
  match s with
  | [] => []
  | c :: s' =>
      match trimEnd s' with
      | [] => if isWhiteSpace c then [] else [c]
      | t => c :: t
      end
  end.

(** [s.trim()] *)
Definition trim (s : jsstring) : jsstring := trimEnd (trimStart s).

(** [s.replace(/\s+/g, "")]: every maximal run of white space is
    replaced by the empty string. *)
Definition removeWhiteSpace (s : jsstring) : jsstring :=
  filter (fun c => negb (isWhiteSpace c)) s.

(** [s.replace(",", ".")]: a string pattern replaces the first
    occurrence only. *)
Fixpoint replaceFirstComma (s : jsstring) : jsstring :=
  match s with
  | [] => []
  | c :: s' => if (c =? 44)%N then 46%N :: s' else c :: replaceFirstComma s'
  end.

(** Code-unit order, the order of the [<] operator on strings. *)
Fixpoint compare (a b : jsstring) : comparison :=
  match a, b with
  | [], [] => Eq
  | [], _ :: _ => Lt
  | _ :: _, [] => Gt
  | x :: a', y :: b' =>
      match N.compare x y with
      | Eq => compare a' b'
      | c => c
      end
  end.

(** ASCII literals. *)
Definition ofAscii (s : String.string) : jsstring :=
  map (fun a => N.of_nat (Ascii.nat_of_ascii a))
      (String.list_ascii_of_string s).

End JSString.

(* ================================================================== *)
(** * ECMAScript Numbers: IEEE 754 binary64 *)
(* ================================================================== *)

Module JSNumber.
Import JSString.

Definition prec : Z := 53.
Definition emax : Z := 1024.

(** Sign, mantissa and exponent; the value of [S754_finite s m e] is
    [(-1)^s * m * 2^e]. *)
Definition number := spec_float.

Definition NaN : number := S754_nan.
Definition Infinity : number := S754_infinity false.
Definition zero : number := S754_zero false.

Definition mul : number -> number -> number := SFmul prec emax.
Definition div : number -> number -> number := SFdiv prec emax.
Definition sub : number -> number -> number := SFsub prec emax.
Definition neg : number -> number := SFopp.
Definition leb : number -> number -> bool := SFleb.
Definition ltb : number -> number -> bool := SFltb.

(** [Number.isNaN(x)] *)
Definition isNaN (x : number) : bool :=
  match x with S754_nan => true | _ => false end.

Definition isFinite (x : number) : bool :=
  match x with S754_zero _ | S754_finite _ _ _ => true | _ => false end.

(** [ToBoolean] on a Number: [NaN], [+0] and [-0] are falsy. *)
Definition truthy (x : number) : bool :=
  match x with S754_nan | S754_zero _ => false | _ => true end.

(** [x || y] on Numbers. *)
Definition or (x y : number) : number := if truthy x then x else y.

(** The Number value for an integer. *)
Definition ofZ (n : Z) : number := binary_normalize prec emax n 0 false.

(** The Number value for [(-1)^s * m * 10^e], rounded to nearest, ties
    to even. *)
Definition ofDecimal (s : bool) (m : Z) (e : Z) : number :=
  match m with
  | Zpos p =>
      if 0 <=? e
      then binary_normalize prec emax (cond_Zopp s (m * 10 ^ e)) 0 s
      else SFdiv prec emax (S754_finite s p 0)
                 (S754_finite false (Z.to_pos (10 ^ (- e))) 0)
  | _ => S754_zero s
  end.

(** [-0] and [+0] are the same number to every comparison; this picks
    the positive one. *)
Definition positiveZero (x : number) : number :=
  match x with
  | S754_zero _ => S754_zero false
  | _ => x
  end.

(** ** [StringToNumber] *)

Definition isDigit (c : code_unit) : bool := ((48 <=? c) && (c <=? 57))%N.

Definition digitOfBase (base : N) (c : code_unit) : option N :=
  let v := (if (48 <=? c) && (c <=? 57) then Some (c - 48)
            else if (97 <=? c) && (c <=? 102) then Some (c - 87)
            else if (65 <=? c) && (c <=? 70) then Some (c - 55)
            else None)%N in
  match v with
  | Some d => if (d <? base)%N then Some d else None
  | None => None
  end.

(** The mathematical value of a digit sequence in [base], [None] when
    some code unit is not a digit of that base. *)
Fixpoint digitsValue (base : N) (acc : N) (s : jsstring) : option N :=
  match s with
  | [] => Some acc
  | c :: s' =>
      match digitOfBase base c with
      | Some d => digitsValue base (acc * base + d)%N s'
      | None => None
      end
  end.

(** Longest prefix of decimal digits and the rest. *)
Fixpoint spanDigits (s : jsstring) : jsstring * jsstring :=
  match s with
  | c :: s' =>
      if isDigit c then let (d, r) := spanDigits s' in (c :: d, r)
      else ([], s)
  | [] => ([], [])
  end.

Definition decimalValue (ds : jsstring) : Z :=
  match digitsValue 10 0 ds with Some n => Z.of_N n | None => 0 end.

(** [ExponentPart_opt] followed by the end of the string: the exponent,
    or [None] when the rest is not of that form. *)
Definition exponentPart (s : jsstring) : option Z :=
  match s with
  | [] => Some 0
  | c :: s' =>
      if ((c =? 101) || (c =? 69))%N then
        let '(sg, ds) :=
          match s' with
          | 43%N :: r => (false, r)
          | 45%N :: r => (true, r)
          | _ => (false, s')
          end in
        match ds, digitsValue 10 0 ds with
        | _ :: _, Some n => Some (cond_Zopp sg (Z.of_N n))
        | _, _ => None
        end
      else None
  end.

(** [StrUnsignedDecimalLiteral] with the sign [sg] already read. *)
Definition unsignedDecimal (sg : bool) (s : jsstring) : number :=
  if JSString.eqb s (ofAscii "Infinity"%string) then S754_infinity sg
  else
    let (ip, r) := spanDigits s in
    let '(fp, r', dot) :=
      match r with
      | 46%N :: r1 => let (f, r2) := spanDigits r1 in (f, r2, true)
      | _ => ([], r, false)
      end in
    match ip, fp with
    | [], [] => NaN
    | _, _ =>
        match exponentPart r' with
        | Some e =>
            ofDecimal sg (decimalValue (ip ++ fp)) (e - Z.of_nat (List.length fp))
        | None => NaN
        end
    end.

(** [NonDecimalIntegerLiteral]: [0x], [0o] and [0b] prefixes. *)
Definition nonDecimal (s : jsstring) : option number :=
  match s with
  | 48%N :: p :: ((_ :: _) as ds) =>
      let base :=
        (if (p =? 120) || (p =? 88) then Some 16
         else if (p =? 111) || (p =? 79) then Some 8
         else if (p =? 98) || (p =? 66) then Some 2
         else None)%N in
      match base with
      | Some b =>
          match digitsValue b 0 ds with
          | Some n => Some (ofZ (Z.of_N n))
          | None => Some NaN
          end
      | None => None
      end
  | _ => None
  end.

(** [Number(s)] for a string [s]. *)
Definition StringToNumber (s : jsstring) : number :=
  match trim s with
  | [] => zero
  | (c :: s') as t =>
      match nonDecimal t with
      | Some x => x
      | None =>
          if (c =? 43)%N then unsignedDecimal false s'
          else if (c =? 45)%N then unsignedDecimal true s'
          else unsignedDecimal false t
      end
  end.

(** ** [Math.round] *)

(** Nearest integer, ties towards [+Infinity]; an argument that is an
    integer, infinite, a zero or [NaN] is returned as it is, and a
    result of zero keeps the sign of the argument. *)
Definition Math_round (x : number) : number :=
  match x with
  | S754_finite s m e =>
      if 0 <=? e then x
      else
        let d := 2 ^ (- e) in
        let n := (2 * cond_Zopp s (Zpos m) + d) / (2 * d) in
        binary_normalize prec emax n 0 s
  | _ => x
  end.

End JSNumber.

(* ================================================================== *)
(** * Exact quotients, for the accuracy of the arithmetic *)
(* ================================================================== *)

Module Rounding.

(** The integer part of [a / b] and the place of [a / b] between it and
    its successor. *)
Definition locate (a b : Z) : Z * location :=
  (a / b,
   if a mod b =? 0 then loc_Exact else loc_Inexact (2 * (a mod b) ?= b)).

Definition recordOf (ml : Z * location) : shr_record :=
  shr_record_of_loc (fst ml) (snd ml).

(** Numerator and denominator of [m * 10^e]. *)
Definition decimalNum (m e : Z) : Z := if 0 <=? e then m * 10 ^ e else m.
Definition decimalDen (e : Z) : Z := if 0 <=? e then 1 else 10 ^ (- e).

(** [n] is the integer nearest to [num / den], a tie going up. *)
Definition nearestInteger (num den n : Z) : Prop :=
  (2 * n - 1) * den <= 2 * num < (2 * n + 1) * den.

(** Numerator and denominator of [m * 2^e]. *)
Definition binaryNum (m : positive) (e : Z) : Z := Zpos m * 2 ^ Z.max 0 e.
Definition binaryDen (e : Z) : Z := 2 ^ Z.max 0 (- e).

End Rounding.

(* ================================================================== *)
(** * [Number::toString] and the JSON object *)
(* ================================================================== *)

Module JSON.
Import JSString JSNumber.

(** ** [Number::toString] *)

Definition sameNumber (x y : number) : bool :=
  match x, y with
  | S754_zero a, S754_zero b => Bool.eqb a b
  | S754_infinity a, S754_infinity b => Bool.eqb a b
  | S754_nan, S754_nan => true
  | S754_finite a m e, S754_finite b m' e' =>
      Bool.eqb a b && Pos.eqb m m' && Z.eqb e e'
  | _, _ => false
  end.

(** Decimal digits of [n], most significant first. *)
Fixpoint digitsAux (fuel : nat) (n : N) (acc : jsstring) : jsstring :=
  match fuel with
  | O => acc
  | S f =>
      let acc' := (48 + n mod 10)%N :: acc in
      if (n <? 10)%N then acc' else digitsAux f (n / 10)%N acc'
  end.

Definition digitsOfN (n : N) : jsstring :=
  digitsAux (S (N.to_nat (N.log2 n))) n [].

(** The exact decimal expansion [M * 10^E] of [m * 2^e]. *)
Definition exactDecimal (m : positive) (e : Z) : Z * Z :=
  if 0 <=? e then (Zpos m * 2 ^ e, 0) else (Zpos m * 5 ^ (- e), e).

(** The decimals with [k] significant digits next to [M * 10^E], where
    [M] has [L] digits: the nearer one first, the even one on a tie. *)
Definition candidates (M E L k : Z) : list (Z * Z) :=
  let p := 10 ^ (L - k) in
  let q := M / p in
  let r := M mod p in
  let lo := (q, E + (L - k)) in
  let hi := if q + 1 =? 10 ^ k then (1, E + L) else (q + 1, E + (L - k)) in
  if r =? 0 then [lo]
  else
    match 2 * r ?= p with
    | Lt => [lo; hi]
    | Gt => [hi; lo]
    | Eq => if Z.even q then [lo; hi] else [hi; lo]
    end.

(** The first [k], counting up, for which a decimal with [k] digits
    reads back as [x]. *)
Fixpoint shortest (x : number) (M E L : Z) (fuel : nat) (k : Z)
  : option (Z * Z) :=
  match fuel with
  | O => None
  | S f =>
      match find (fun c => sameNumber (ofDecimal false (fst c) (snd c)) x)
                 (candidates M E L k) with
      | Some c => Some c
      | None => shortest x M E L f (k + 1)
      end
  end.

(** [s] and [e] with [m * 2^e] the Number value of [s * 10^e] and [s] as
    short as possible; the exact expansion closes the search. *)
Definition shortestDecimal (m : positive) (e : Z) : Z * Z :=
  let (M, E) := exactDecimal m e in
  let L := Z.of_nat (List.length (digitsOfN (Z.to_N M))) in
  match shortest (S754_finite false m e) M E L (Z.to_nat L) 1 with
  | Some c => c
  | None => (M, E)
  end.

(** The digits [ds] with the decimal point after the first [n] of them:
    plain notation for [-6 < n <= 21], exponent notation otherwise. *)
Definition formatDecimal (ds : jsstring) (n : Z) : jsstring :=
  let k := Z.of_nat (List.length ds) in
  if (k <=? n) && (n <=? 21) then ds ++ repeat 48%N (Z.to_nat (n - k))
  else if (0 <? n) && (n <=? 21)
  then firstn (Z.to_nat n) ds ++ 46%N :: skipn (Z.to_nat n) ds
  else if (-6 <? n) && (n <=? 0)
  then 48%N :: 46%N :: repeat 48%N (Z.to_nat (- n)) ++ ds
  else
    let e := n - 1 in
    let expo :=
      101%N :: (if e <? 0 then 45%N else 43%N)
            :: digitsOfN (Z.to_N (Z.abs e)) in
    match ds with
    | [] => expo
    | [d] => d :: expo
    | d :: rest => d :: 46%N :: rest ++ expo
    end.

(** [String(x)] for a Number [x]. *)
Definition Number_toString (x : number) : jsstring :=
  match x with
  | S754_nan => ofAscii "NaN"
  | S754_zero _ => [48%N]
  | S754_infinity s =>
      if s then ofAscii "-Infinity" else ofAscii "Infinity"
  | S754_finite s m e =>
      let (d, e10) := shortestDecimal m e in
      let ds := digitsOfN (Z.to_N d) in
      (if s then [45%N] else [])
        ++ formatDecimal ds (e10 + Z.of_nat (List.length ds))
  end.

(** ** JSON values *)

#[local] Set Warnings "-register-all".

Inductive value :=
| VNull
| VBool (b : bool)
| VNumber (x : number)
| VString (s : jsstring)
| VArray (elements : list value)
| VObject (properties : list (jsstring * value)).

(** ** [JSON.stringify] *)

Definition hexDigit (d : N) : code_unit :=
  (if d <? 10 then 48 + d else 87 + d)%N.

(** [\uXXXX] *)
Definition unicodeEscape (c : code_unit) : jsstring :=
  [92; 117; hexDigit (c / 4096); hexDigit ((c / 256) mod 16);
   hexDigit ((c / 16) mod 16); hexDigit (c mod 16)]%N.

Definition isLeadingSurrogate (c : code_unit) : bool :=
  ((55296 <=? c) && (c <=? 56319))%N.

Definition isTrailingSurrogate (c : code_unit) : bool :=
  ((56320 <=? c) && (c <=? 57343))%N.

(** One code unit that is not the first half of a surrogate pair. *)
Definition quoteUnit (c : code_unit) : jsstring :=
  (if c =? 8 then [92; 98]
   else if c =? 9 then [92; 116]
   else if c =? 10 then [92; 110]
   else if c =? 12 then [92; 102]
   else if c =? 13 then [92; 114]
   else if c =? 34 then [92; 34]
   else if c =? 92 then [92; 92]
   else if (c <? 32) || isLeadingSurrogate c || isTrailingSurrogate c
        then unicodeEscape c
   else [c])%N.

Fixpoint quoteBody (s : jsstring) : jsstring :=
  match s with
  | [] => []
  | c :: s' =>
      if isLeadingSurrogate c then
        match s' with
        | d :: s'' =>
            if isTrailingSurrogate d then c :: d :: quoteBody s''
            else unicodeEscape c ++ quoteBody s'
        | [] => unicodeEscape c
        end
      else quoteUnit c ++ quoteBody s'
  end.

(** [QuoteJSONString] *)
Definition quote (s : jsstring) : jsstring := 34%N :: quoteBody s ++ [34%N].

Fixpoint joinComma (parts : list jsstring) : jsstring :=
  match parts with
  | [] => []
  | [x] => x
  | x :: rest => x ++ 44%N :: joinComma rest
  end.

(** [JSON.stringify(v)] without indentation; a Number that is not
    finite is written as [null]. *)
Fixpoint stringify (v : value) : jsstring :=
  match v with
  | VNull => ofAscii "null"
  | VBool true => ofAscii "true"
  | VBool false => ofAscii "false"
  | VNumber x => if isFinite x then Number_toString x else ofAscii "null"
  | VString s => quote s
  | VArray l => 91%N :: joinComma (map stringify l) ++ [93%N]
  | VObject ps =>
      123%N :: joinComma (map (fun kv => quote (fst kv) ++ 58%N :: stringify (snd kv)) ps)
            ++ [125%N]
  end.

(** ** [JSON.parse] *)

Definition isJSONWhiteSpace (c : code_unit) : bool :=
  ((c =? 9) || (c =? 10) || (c =? 13) || (c =? 32))%N.

Fixpoint skipWs (s : jsstring) : jsstring :=
  match s with
  | c :: s' => if isJSONWhiteSpace c then skipWs s' else s
  | [] => []
  end.

Definition hex4 (a b c d : code_unit) : option code_unit :=
  match digitOfBase 16 a, digitOfBase 16 b, digitOfBase 16 c, digitOfBase 16 d with
  | Some x, Some y, Some z, Some w => Some (((x * 16 + y) * 16 + z) * 16 + w)%N
  | _, _, _, _ => None
  end.

(** The characters of a string literal after its opening quote, up to
    the closing quote. *)
Fixpoint parseString (s : jsstring) : option (jsstring * jsstring) :=
  match s with
  | [] => None
  | 34%N :: r => Some ([], r)
  | 92%N :: e :: r =>
      let simple (c : code_unit) :=
        match parseString r with
        | Some (t, r') => Some (c :: t, r')
        | None => None
        end in
      if (e =? 34)%N then simple 34%N
      else if (e =? 92)%N then simple 92%N
      else if (e =? 47)%N then simple 47%N
      else if (e =? 98)%N then simple 8%N
      else if (e =? 102)%N then simple 12%N
      else if (e =? 110)%N then simple 10%N
      else if (e =? 114)%N then simple 13%N
      else if (e =? 116)%N then simple 9%N
      else if (e =? 117)%N then
        match r with
        | a :: b :: c :: d :: r1 =>
            match hex4 a b c d, parseString r1 with
            | Some u, Some (t, r') => Some (u :: t, r')
            | _, _ => None
            end
        | _ => None
        end
      else None
  | c :: r =>
      if (c <? 32)%N || (c =? 92)%N then None
      else
        match parseString r with
        | Some (t, r') => Some (c :: t, r')
        | None => None
        end
  end.

Definition isNumberChar (c : code_unit) : bool :=
  (isDigit c || (c =? 43) || (c =? 45) || (c =? 46) || (c =? 101) || (c =? 69))%N.

Fixpoint spanNumber (s : jsstring) : jsstring * jsstring :=
  match s with
  | c :: s' =>
      if isNumberChar c then let (t, r) := spanNumber s' in (c :: t, r)
      else ([], s)
  | [] => ([], [])
  end.

(** The JSON grammar of a number: [-? int frac? exp?]. *)
Definition validExponent (s : jsstring) : bool :=
  match s with
  | [] => true
  | c :: s' =>
      ((c =? 101) || (c =? 69))%N
      && match s' with
         | 43%N :: ((_ :: _) as ds) | 45%N :: ((_ :: _) as ds) =>
             forallb isDigit ds
         | _ :: _ => forallb isDigit s'
         | [] => false
         end
  end.

Definition validFraction (s : jsstring) : bool :=
  match s with
  | 46%N :: s' =>
      let (f, r) := spanDigits s' in
      match f with [] => false | _ => validExponent r end
  | _ => validExponent s
  end.

Definition validNumber (t : jsstring) : bool :=
  let u := match t with 45%N :: u => u | _ => t end in
  match u with
  | 48%N :: r => validFraction r
  | c :: _ =>
      isDigit c && let (_, r) := spanDigits u in validFraction r
  | [] => false
  end.

(** Duplicate names: the last value wins, at the place of the first. *)
Fixpoint setProperty (k : jsstring) (v : value) (ps : list (jsstring * value))
  : list (jsstring * value) :=
  match ps with
  | [] => [(k, v)]
  | (k', v') :: ps' =>
      if JSString.eqb k' k then (k, v) :: ps' else (k', v') :: setProperty k v ps'
  end.

Definition makeObject (ps : list (jsstring * value)) : value :=
  VObject (fold_left (fun acc kv => setProperty (fst kv) (snd kv) acc) ps []).

Fixpoint parseValue (fuel : nat) (s : jsstring) {struct fuel}
  : option (value * jsstring) :=
  match fuel with
  | O => None
  | S fuel' =>
      match skipWs s with
      | 110%N :: 117%N :: 108%N :: 108%N :: r => Some (VNull, r)
      | 116%N :: 114%N :: 117%N :: 101%N :: r => Some (VBool true, r)
      | 102%N :: 97%N :: 108%N :: 115%N :: 101%N :: r => Some (VBool false, r)
      | 34%N :: r =>
          match parseString r with
          | Some (t, r') => Some (VString t, r')
          | None => None
          end
      | 91%N :: r =>
          match skipWs r with
          | 93%N :: r' => Some (VArray [], r')
          | _ =>
              match parseElements fuel' r with
              | Some (vs, r') => Some (VArray vs, r')
              | None => None
              end
          end
      | 123%N :: r =>
          match skipWs r with
          | 125%N :: r' => Some (VObject [], r')
          | _ =>
              match parseMembers fuel' r with
              | Some (ps, r') => Some (makeObject ps, r')
              | None => None
              end
          end
      | t =>
          let (n, r) := spanNumber t in
          if validNumber n then Some (VNumber (StringToNumber n), r) else None
      end
  end

with parseElements (fuel : nat) (s : jsstring) {struct fuel}
  : option (list value * jsstring) :=
  match fuel with
  | O => None
  | S fuel' =>
      match parseValue fuel' s with
      | Some (v, r) =>
          match skipWs r with
          | 44%N :: r' =>
              match parseElements fuel' r' with
              | Some (vs, r'') => Some (v :: vs, r'')
              | None => None
              end
          | 93%N :: r' => Some ([v], r')
          | _ => None
          end
      | None => None
      end
  end

with parseMembers (fuel : nat) (s : jsstring) {struct fuel}
  : option (list (jsstring * value) * jsstring) :=
  match fuel with
  | O => None
  | S fuel' =>
      match skipWs s with
      | 34%N :: r =>
          match parseString r with
          | Some (k, r1) =>
              match skipWs r1 with
              | 58%N :: r2 =>
                  match parseValue fuel' r2 with
                  | Some (v, r3) =>
                      match skipWs r3 with
                      | 44%N :: r4 =>
                          match parseMembers fuel' r4 with
                          | Some (ps, r5) => Some ((k, v) :: ps, r5)
                          | None => None
                          end
                      | 125%N :: r4 => Some ([(k, v)], r4)
                      | _ => None
                      end
                  | None => None
                  end
              | _ => None
              end
          | None => None
          end
      | _ => None
      end
  end.

(** [JSON.parse(text)]; [None] stands for the [SyntaxError]. *)
Definition parse (text : jsstring) : option value :=
  match parseValue (2 * List.length text + 2) text with
  | Some (v, r) =>
      match skipWs r with
      | [] => Some v
      | _ => None
      end
  | None => None
  end.

(** ** Notions for the round trip of numbers *)

Definition noDigitHead (r : jsstring) : Prop :=
  match r with
  | [] => True
  | c :: _ => isDigit c = false
  end.

(** The text of an exponent part and its value. *)
Definition exponentText (e : Z) : jsstring :=
  101%N :: (if e <? 0 then 45%N else 43%N) :: digitsOfN (Z.to_N (Z.abs e)).

Definition decimalText (ip fp ex : jsstring) : jsstring :=
  ip ++ match fp with [] => [] | _ => 46%N :: fp end ++ ex.

Definition wellShaped (ip fp ex : jsstring) : Prop :=
  forallb isDigit ip = true
  /\ (ip = [48%N] \/ exists c r, ip = c :: r /\ (49 <= c <= 57)%N)
  /\ forallb isDigit fp = true
  /\ (ex = [] \/ exists e, ex = exponentText e).

Definition noNumberHead (r : jsstring) : Prop :=
  match r with
  | [] => True
  | c :: _ => isNumberChar c = false
  end.

End JSON.

(* ================================================================== *)
(** * ECMAScript arrays *)
(* ================================================================== *)

Module JSArray.
Import JSNumber.

Section Sort.
Context {A : Type}.
Variable comparefn : A -> A -> number.

(** [SortCompare]: the comparator's result is read as a sign, and a
    [NaN] result counts as [+0]. *)
Definition sortCompare (x y : A) : comparison :=
  match comparefn x y with
  | S754_nan | S754_zero _ => Eq
  | S754_infinity s | S754_finite s _ _ => if s then Lt else Gt
  end.

(** [Array.prototype.sort] is a stable sort; when the comparator is
    not consistent the order is left to the implementation.  The
    model is the stable insertion sort: an element moves to the
    right past exactly the elements it compares greater than. *)
Fixpoint insert (x : A) (l : list A) : list A :=
  match l with
  | [] => [x]
  | y :: l' =>
      match sortCompare x y with
      | Gt => y :: insert x l'
      | _ => x :: l
      end
  end.

Definition sort (l : list A) : list A := fold_right insert [] l.
End Sort.

End JSArray.

(* ================================================================== *)
(** * Host collation *)
(* ================================================================== *)

Module Intl.
Import JSString JSNumber.

(** [String.prototype.localeCompare] is defined by the host's
    collation data: [localeCompare a b] stands for [a.localeCompare(b)]
    in the default locale and [localeCompareRu a b] for
    [a.localeCompare(b, "ru")]. *)
Class Collator := {
  localeCompare : jsstring -> jsstring -> number;
  localeCompareRu : jsstring -> jsstring -> number
}.

(** Sign of a comparator result. *)
Definition sign (x : number) : comparison :=
  match x with
  | S754_nan | S754_zero _ => Eq
  | S754_infinity s | S754_finite s _ _ => if s then Lt else Gt
  end.

(** A collator that orders strings by code units. *)
Definition ofComparison (c : comparison) : number :=
  match c with
  | Lt => ofZ (-1)
  | Eq => zero
  | Gt => ofZ 1
  end.

Definition codeUnitCollator : Collator := {|
  localeCompare := fun a b => ofComparison (JSString.compare a b);
  localeCompareRu := fun a b => ofComparison (JSString.compare a b)
|}.

End Intl.

(* ================================================================== *)
(** * The page: [src/app/page.tsx] *)
(* ================================================================== *)

Module Wallet.
Import JSString JSNumber JSArray Intl.

(** [type CategoryKey]: "Еда", "Транспорт", "Жильё", "Развлечения",
    "Образование", "Другое". *)
Inductive CategoryKey :=
| Eda | Transport | Zhilyo | Razvlecheniya | Obrazovanie | Drugoe.

Definition CategoryKey_eqb (a b : CategoryKey) : bool :=
  match a, b with
  | Eda, Eda | Transport, Transport | Zhilyo, Zhilyo
  | Razvlecheniya, Razvlecheniya | Obrazovanie, Obrazovanie
  | Drugoe, Drugoe => true
  | _, _ => false
  end.

(** [type Expense] *)
Record Expense := mkExpense {
  id : jsstring;
  description : jsstring;
  category : CategoryKey;
  date : jsstring;   (* ISO string yyyy-mm-dd *)
  amount : number    (* in rubles *)
}.

(** [type SortKey] *)
Inductive SortKey := SortDate | SortAmount | SortDescription.

Inductive SortDir := Asc | Desc.

(** [CategoryKey | "Все"] *)
Inductive CategoryFilter := Vse | Only (c : CategoryKey).

(** The [useState] cells of [Home]. *)
Record State := mkState {
  expenses : list Expense;
  formDescription : jsstring;
  formCategory : CategoryKey;
  formDate : jsstring;
  formAmount : jsstring;
  filterCategory : CategoryFilter;
  sortKey : SortKey;
  sortDir : SortDir;
  editingId : option jsstring;
  isCatMenuOpen : bool;
  isSortMenuOpen : bool
}.

(** What the host supplies during one event: the value of
    [crypto.randomUUID()] and of
    [new Date().toISOString().slice(0, 10)]. *)
Record Env := mkEnv {
  randomUUID : jsstring;
  today : jsstring
}.

Definition initialState (env : Env) : State := {|
  expenses := [];
  formDescription := [];
  formCategory := Eda;
  formDate := today env;
  formAmount := [];
  filterCategory := Vse;
  sortKey := SortDate;
  sortDir := Desc;
  editingId := None;
  isCatMenuOpen := false;
  isSortMenuOpen := false
|}.

Definition setExpenses (f : list Expense -> list Expense) (s : State) : State :=
  {| expenses := f (expenses s);
     formDescription := formDescription s;
     formCategory := formCategory s;
     formDate := formDate s;
     formAmount := formAmount s;
     filterCategory := filterCategory s;
     sortKey := sortKey s;
     sortDir := sortDir s;
     editingId := editingId s;
     isCatMenuOpen := isCatMenuOpen s;
     isSortMenuOpen := isSortMenuOpen s |}.

Definition setEditingId (v : option jsstring) (s : State) : State :=
  {| expenses := expenses s;
     formDescription := formDescription s;
     formCategory := formCategory s;
     formDate := formDate s;
     formAmount := formAmount s;
     filterCategory := filterCategory s;
     sortKey := sortKey s;
     sortDir := sortDir s;
     editingId := v;
     isCatMenuOpen := isCatMenuOpen s;
     isSortMenuOpen := isSortMenuOpen s |}.

(** ** The projection [filteredSorted] *)

(** The callback passed to [sort]. *)
Definition comparator {C : Collator} (key : SortKey) (dir : SortDir)
           (a b : Expense) : number :=
  let cmp :=
    match key with
    | SortDate => localeCompare (date a) (date b)
    | SortAmount => sub (amount a) (amount b)
    | SortDescription => localeCompareRu (description a) (description b)
    end in
  match dir with
  | Asc => cmp
  | Desc => neg cmp
  end.

Definition byCategory (f : CategoryFilter) (es : list Expense) : list Expense :=
  match f with
  | Vse => es
  | Only c => filter (fun e => CategoryKey_eqb (category e) c) es
  end.

Definition project {C : Collator} (es : list Expense) (f : CategoryFilter)
           (key : SortKey) (dir : SortDir) : list Expense :=
  sort (comparator key dir) (byCategory f es).

Definition filteredSorted {C : Collator} (s : State) : list Expense :=
  project (expenses s) (filterCategory s) (sortKey s) (sortDir s).

(** ** Handlers of [Home] *)

Definition resetForm (env : Env) (s : State) : State :=
  {| expenses := expenses s;
     formDescription := [];
     formCategory := Eda;
     formDate := today env;
     formAmount := [];
     filterCategory := filterCategory s;
     sortKey := sortKey s;
     sortDir := sortDir s;
     editingId := editingId s;
     isCatMenuOpen := isCatMenuOpen s;
     isSortMenuOpen := isSortMenuOpen s |}.

(** [Number(String(amount).replace(/\s+/g, "").replace(",", "."))] *)
Definition parseAmount (input : jsstring) : number :=
  StringToNumber (replaceFirstComma (removeWhiteSpace input)).

(** The empty string is the only falsy string. *)
Definition isEmpty (s : jsstring) : bool :=
  match s with [] => true | _ => false end.

(** [Math.round(x * 100) / 100] *)
Definition round2 (x : number) : number :=
  div (Math_round (mul x (ofZ 100))) (ofZ 100).

(** The guard of [handleAdd]; [true] means the handler returns at
    once. *)
Definition rejects (s : State) : bool :=
  let parsedAmount := parseAmount (formAmount s) in
  isEmpty (trim (formDescription s)) || isEmpty (formDate s)
  || isNaN parsedAmount || leb parsedAmount zero.

Definition handleAdd (env : Env) (s : State) : State :=
  let parsedAmount := parseAmount (formAmount s) in
  if rejects s then s
  else
    let next := {| id := randomUUID env;
                   description := trim (formDescription s);
                   category := formCategory s;
                   date := formDate s;
                   amount := round2 parsedAmount |} in
    resetForm env (setExpenses (fun prev => next :: prev) s).

Definition handleDelete (i : jsstring) (s : State) : State :=
  setExpenses (filter (fun e => negb (JSString.eqb (id e) i))) s.

Definition startEdit (i : jsstring) (s : State) : State :=
  setEditingId (Some i) s.

Definition saveEdit (updated : Expense) (s : State) : State :=
  setEditingId None
    (setExpenses
       (map (fun e => if JSString.eqb (id e) (id updated) then updated else e))
       s).

(** ** The row editor [Row] *)

(** The working copy [local] and the [onChange] callbacks of the four
    fields; each builds [{ ...local, field: value }]. *)
Definition changeDescription (local : Expense) (v : jsstring) : Expense :=
  {| id := id local; description := v; category := category local;
     date := date local; amount := amount local |}.

Definition changeCategory (local : Expense) (v : CategoryKey) : Expense :=
  {| id := id local; description := description local; category := v;
     date := date local; amount := amount local |}.

Definition changeDate (local : Expense) (v : jsstring) : Expense :=
  {| id := id local; description := description local;
     category := category local; date := v; amount := amount local |}.

(** [Number(v.replace(/\s+/g, "").replace(",", ".")) || 0] *)
Definition coerceAmount (v : jsstring) : number :=
  or (parseAmount v) zero.

Definition changeAmount (local : Expense) (v : jsstring) : Expense :=
  {| id := id local; description := description local;
     category := category local; date := date local;
     amount := coerceAmount v |}.

(** A row is the record it shows, whether it is the one being edited,
    and its working copy. *)
Record Row := mkRow {
  expense : Expense;
  isEditing : bool;
  local : Expense
}.

(** [useState(expense)] and [useEffect(() => setLocal(expense), [expense])]. *)
Definition mountRow (s : State) (e : Expense) : Row :=
  {| expense := e;
     isEditing :=
       match editingId s with
       | Some i => JSString.eqb i (id e)
       | None => false
       end;
     local := e |}.

Definition setLocal (f : Expense -> Expense) (r : Row) : Row :=
  {| expense := expense r; isEditing := isEditing r; local := f (local r) |}.

(** The two commit triggers, the Enter key in a field of the row and a
    mouse press outside the row, both call [onSave(local)]; the fields
    and the document listener exist only while the row is edited. *)
Definition commit (r : Row) (s : State) : State :=
  if isEditing r then saveEdit (local r) s else s.

End Wallet.

(* ================================================================== *)
(** * Persistence: the two [useEffect] hooks on [localStorage] *)
(* ================================================================== *)

Module Persistence.
Import JSString JSNumber JSON Wallet.

Definition categoryLabel (c : CategoryKey) : jsstring :=
  match c with
  | Eda => [1045; 1076; 1072]
  | Transport => [1058; 1088; 1072; 1085; 1089; 1087; 1086; 1088; 1090]
  | Zhilyo => [1046; 1080; 1083; 1100; 1105]
  | Razvlecheniya =>
      [1056; 1072; 1079; 1074; 1083; 1077; 1095; 1077; 1085; 1080; 1103]
  | Obrazovanie =>
      [1054; 1073; 1088; 1072; 1079; 1086; 1074; 1072; 1085; 1080; 1077]
  | Drugoe => [1044; 1088; 1091; 1075; 1086; 1077]
  end%N.

Definition categoryOfLabel (s : jsstring) : option CategoryKey :=
  find (fun c => JSString.eqb (categoryLabel c) s)
       [Eda; Transport; Zhilyo; Razvlecheniya; Obrazovanie; Drugoe].

(** The object a record is at run time, its properties in the order of
    the object literal of [handleAdd]. *)
Definition toValue (e : Expense) : value :=
  VObject
    [(ofAscii "id", VString (id e));
     (ofAscii "description", VString (description e));
     (ofAscii "category", VString (categoryLabel (category e)));
     (ofAscii "date", VString (date e));
     (ofAscii "amount", VNumber (amount e))].

Definition getProperty (k : jsstring) (ps : list (jsstring * value))
  : option value :=
  match find (fun kv => JSString.eqb (fst kv) k) ps with
  | Some kv => Some (snd kv)
  | None => None
  end.

(** A parsed value read through [type Expense]; [None] when it does not
    have that type. *)
Definition asExpense (v : value) : option Expense :=
  match v with
  | VObject ps =>
      match getProperty (ofAscii "id") ps,
            getProperty (ofAscii "description") ps,
            getProperty (ofAscii "category") ps,
            getProperty (ofAscii "date") ps,
            getProperty (ofAscii "amount") ps with
      | Some (VString i), Some (VString d), Some (VString c),
        Some (VString t), Some (VNumber a) =>
          match categoryOfLabel c with
          | Some k =>
              Some {| id := i; description := d; category := k;
                      date := t; amount := a |}
          | None => None
          end
      | _, _, _, _, _ => None
      end
  | _ => None
  end.

Fixpoint asExpenses (vs : list value) : option (list Expense) :=
  match vs with
  | [] => Some []
  | v :: vs' =>
      match asExpense v, asExpenses vs' with
      | Some e, Some es => Some (e :: es)
      | _, _ => None
      end
  end.

(** The slot ["wallet.expenses"] of [localStorage]; [getItem] gives
    [null] when nothing is stored. *)
Definition Storage := option jsstring.

(** The second effect:
    [localStorage.setItem("wallet.expenses", JSON.stringify(expenses))]. *)
Definition persist (s : State) : Storage :=
  Some (stringify (VArray (map toValue (expenses s)))).

(** What the first effect does to the state. *)
Inductive Restored :=
| Unchanged (s : State)  (* nothing stored, or the [catch] block *)
| Replaced (s : State)   (* [setExpenses] with a value of type [Expense[]] *)
| Untyped (v : value).   (* [setExpenses] with a value of another shape *)

(** The first effect:
    [const raw = localStorage.getItem("wallet.expenses");
     if (raw) setExpenses(JSON.parse(raw))] inside [try ... catch {}]. *)
Definition restore (slot : Storage) (s : State) : Restored :=
  match slot with
  | None => Unchanged s
  | Some [] => Unchanged s
  | Some raw =>
      match parse raw with
      | None => Unchanged s
      | Some v =>
          match match v with VArray vs => asExpenses vs | _ => None end with
          | Some es => Replaced (setExpenses (fun _ => es) s)
          | None => Untyped v
          end
      end
  end.

(** The text of one record, followed by [rest]. *)
Definition expenseText (e : Expense) (rest : jsstring) : jsstring :=
  123%N :: quote (ofAscii "id") ++ 58%N :: quote (id e) ++ 44%N ::
    quote (ofAscii "description") ++ 58%N :: quote (description e) ++ 44%N ::
    quote (ofAscii "category") ++ 58%N ::
      quote (categoryLabel (category e)) ++ 44%N ::
    quote (ofAscii "date") ++ 58%N :: quote (date e) ++ 44%N ::
    quote (ofAscii "amount") ++ 58%N ::
      Number_toString (amount e) ++ 125%N :: rest.

Definition storable (e : Expense) : Prop :=
  valid_binary prec emax (amount e) = true /\ isFinite (amount e) = true.

(** The text of the records of a non-empty array after the opening
    bracket, followed by the closing bracket and [rest]. *)
Fixpoint elementsText (es : list Expense) (rest : jsstring) : jsstring :=
  match es with
  | [] => rest
  | [e] => expenseText e (93%N :: rest)
  | e :: tl => expenseText e (44%N :: elementsText tl rest)
  end.

(** A record as it comes back from storage. *)
Definition reloaded (e : Expense) : Expense :=
  {| id := id e; description := description e; category := category e;
     date := date e; amount := positiveZero (amount e) |}.

End Persistence.

(* ================================================================== *)
(** * Scenarios and specification-side notions *)
(* ================================================================== *)

Module Scenario.
Import JSString JSNumber JSArray Intl Wallet.

(** The [onChange] callbacks of the side form and the category
    buttons: [setDescription], [setCategory], [setDate], [setAmount]. *)
Record FormInput := mkFormInput {
  inDescription : jsstring;
  inCategory : CategoryKey;
  inDate : jsstring;
  inAmount : jsstring
}.

Definition fill (f : FormInput) (s : State) : State :=
  {| expenses := expenses s;
     formDescription := inDescription f;
     formCategory := inCategory f;
     formDate := inDate f;
     formAmount := inAmount f;
     filterCategory := filterCategory s;
     sortKey := sortKey s;
     sortDir := sortDir s;
     editingId := editingId s;
     isCatMenuOpen := isCatMenuOpen s;
     isSortMenuOpen := isSortMenuOpen s |}.

(** The user fills the form and presses the add button. *)
Definition submit (ef : Env * FormInput) (s : State) : State :=
  handleAdd (fst ef) (fill (snd ef) s).

(** The input passes the guard of [handleAdd]. *)
Definition accepted (ef : Env * FormInput) : bool :=
  negb (isEmpty (trim (inDescription (snd ef))))
  && negb (isEmpty (inDate (snd ef)))
  && ltb zero (parseAmount (inAmount (snd ef))).

(** The record [handleAdd] builds from an accepted input. *)
Definition created (ef : Env * FormInput) : Expense :=
  {| id := randomUUID (fst ef);
     description := trim (inDescription (snd ef));
     category := inCategory (snd ef);
     date := inDate (snd ef);
     amount := round2 (parseAmount (inAmount (snd ef))) |}.

(** A sequence of add operations, earliest first. *)
Definition run (efs : list (Env * FormInput)) (s : State) : State :=
  fold_left (fun st ef => submit ef st) efs s.

(** [x] occurs in [l] at an earlier position than [y]. *)
Definition before {A : Type} (x y : A) (l : list A) : Prop :=
  exists l1 l2 l3, l = l1 ++ x :: l2 ++ y :: l3.

(** The parsed input rounded to two decimal places, computed on the
    exact value of the binary64 number: the multiple [k / 100] nearest
    to [x], a tie going up, then the Number nearest to it. *)
Definition roundedTo2Places (x : number) : number :=
  match x with
  | S754_finite s m e =>
      let v := cond_Zopp s (Zpos m) in
      let k :=
        if 0 <=? e then 100 * v * 2 ^ e
        else (200 * v + 2 ^ (- e)) / (2 * 2 ^ (- e)) in
      ofDecimal (k <? 0) (Z.abs k) (-2)
  | _ => x
  end.

(** Sample data: a host, and the specification's own example
    [add("Кофе", "Еда", "2024-01-05", "199,5")]. *)
Definition env1 : Env :=
  {| randomUUID := ofAscii "3b241101-e2bb-4255-8caf-4136c566a962";
     today := ofAscii "2024-01-05" |}.

Definition env2 : Env :=
  {| randomUUID := ofAscii "9c5b94b1-35ad-49bb-b118-8e8fc24abf80";
     today := ofAscii "2024-01-06" |}.

Definition kofe : jsstring := [1050; 1086; 1092; 1077]%N.

Definition coffee : FormInput :=
  {| inDescription := 32%N :: kofe ++ [32%N];
     inCategory := Eda;
     inDate := ofAscii "2024-01-05";
     inAmount := ofAscii "199,5" |}.

Definition taxi : FormInput :=
  {| inDescription := ofAscii "Taxi";
     inCategory := Transport;
     inDate := ofAscii "2024-01-06";
     inAmount := ofAscii "1 250" |}.

Definition withAmount (a : String.string) : FormInput :=
  {| inDescription := kofe;
     inCategory := Eda;
     inDate := ofAscii "2024-01-05";
     inAmount := ofAscii a |}.

Definition env3 : Env :=
  {| randomUUID := ofAscii "1f0e6c3a-7a55-4b0c-9d53-0c2f8e6f7a11";
     today := ofAscii "2024-01-07" |}.

Definition lunch : FormInput :=
  {| inDescription := ofAscii "Lunch";
     inCategory := Eda;
     inDate := ofAscii "2024-01-03";
     inAmount := ofAscii "199.50" |}.

(** Three records, stored newest first: lunch, taxi, coffee. *)
Definition sampleState : State :=
  run [(env1, coffee); (env2, taxi); (env3, lunch)] (initialState env1).

(** One record whose amount overflowed on the way in. *)
Definition overflowed : State :=
  submit (env1, withAmount "1e307") (initialState env1).

Definition rCoffee : Expense := created (env1, coffee).
Definition rTaxi : Expense := created (env2, taxi).
Definition rLunch : Expense := created (env3, lunch).

(** The storage format of [date]: [yyyy-mm-dd], ten code units with
    digits around two hyphens. *)
Definition isISODate (d : jsstring) : bool :=
  match d with
  | [y1; y2; y3; y4; h1; m1; m2; h2; d1; d2] =>
      isDigit y1 && isDigit y2 && isDigit y3 && isDigit y4 && (h1 =? 45)%N
      && isDigit m1 && isDigit m2 && (h2 =? 45)%N && isDigit d1 && isDigit d2
  | _ => false
  end.

Definition Expense_eq_dec (a b : Expense) : {a = b} + {a <> b}.
Proof.
  decide equality.
  - decide equality; try apply Z.eq_dec; try apply Pos.eq_dec;
      try apply bool_dec.
  - apply (list_eq_dec N.eq_dec).
  - decide equality.
  - apply (list_eq_dec N.eq_dec).
  - apply (list_eq_dec N.eq_dec).
Defined.

End Scenario.

(* ================================================================== *)
(** * What a table row shows *)
(* ================================================================== *)

Module View.
Import JSString JSNumber JSON Intl Wallet.

(** [s.split(sep)] for a separator of one code unit: the pieces between
    the occurrences of the separator, of which there is always at least
    one. *)
Fixpoint split (sep : code_unit) (s : jsstring) : list jsstring :=
  match s with
  | [] => [[]]
  | c :: s' =>
      if (c =? sep)%N then [] :: split sep s'
      else
        match split sep s' with
        | p :: ps => (c :: p) :: ps
        | [] => [[c]]
        end
  end.

(** A template literal prints [undefined], the value an array pattern
    binds to a missing element, as the text ["undefined"]. *)
Definition templateString (x : option jsstring) : jsstring :=
  match x with
  | Some s => s
  | None => ofAscii "undefined"
  end.

(** [formatDateHuman]: [const [y, m, d] = iso.split("-")] and the
    template [`${d}.${m}.${y}`]. *)
Definition formatDateHuman (iso : jsstring) : jsstring :=
  let parts := split 45%N iso in
  let y := nth_error parts 0 in
  let m := nth_error parts 1 in
  let d := nth_error parts 2 in
  templateString d ++ 46%N :: templateString m ++ 46%N :: templateString y.

(** The horizontal ellipsis, U+2026. *)
Definition ellipsis : code_unit := 8230%N.

(** [truncateText], for an integral [max]:
    [if (text.length <= max) return text;
     return text.slice(0, Math.max(0, max - 1)).trimEnd() + "…"]. *)
Definition truncateText (text : jsstring) (max : Z) : jsstring :=
  if Z.of_nat (List.length text) <=? max then text
  else trimEnd (firstn (Z.to_nat (Z.max 0 (max - 1))) text) ++ [ellipsis].

(** The description cell of a row that is not being edited:
    [truncateText(expense.description, 25)]. *)
Definition descriptionCell (e : Expense) : jsstring :=
  truncateText (description e) 25.

(** Its date cell: [formatDateHuman(local.date)]. *)
Definition dateCell (r : Row) : jsstring := formatDateHuman (date (local r)).

(** The text in the amount field of a row that is being edited:
    [value={String(local.amount)}]. *)
Definition amountField (r : Row) : jsstring :=
  Number_toString (amount (local r)).

(** The rows of [<tbody>]: a [Row] for each record of
    [filteredSorted], then the message row when there is none. *)
Inductive TableRow :=
| DataRow (r : Row)
| MessageRow.

Definition tableBody {C : Collator} (s : State) : list TableRow :=
  map (fun e => DataRow (mountRow s e)) (filteredSorted s)
  ++ (if (List.length (filteredSorted s) =? 0)%nat then [MessageRow] else []).

End View.

(* ================================================================== *)
(** * Consistent comparators and the order of Numbers *)
(* ================================================================== *)

Module Order.
Import JSNumber JSArray.

(** A comparator that is consistent on the values satisfying [P], as
    [Array.prototype.sort] asks of its argument: the relation "does not
    compare greater" is transitive and swapping the arguments swaps the
    sign. *)
Definition consistent {A : Type} (comparefn : A -> A -> number)
           (P : A -> Prop) : Prop :=
  (forall x y z, P x -> P y -> P z ->
     sortCompare comparefn x y <> Gt -> sortCompare comparefn y z <> Gt ->
     sortCompare comparefn x z <> Gt)
  /\ (forall x y, P x -> P y ->
        sortCompare comparefn x y = CompOpp (sortCompare comparefn y x)).

(** The place of a Number on the number line, in units of [2^-1074];
    the infinities lie beyond every finite Number. *)
Definition scaled (x : number) : Z :=
  match x with
  | S754_zero _ | S754_nan => 0
  | S754_finite s m e => cond_Zopp s (Zpos m * 2 ^ (e + 1074))
  | S754_infinity s => cond_Zopp s (2 ^ 2100)
  end.

(** [x] is a zero, a finite Number or an infinity with the sign bit
    [s]. *)
Definition hasSign (s : bool) (x : number) : bool :=
  match x with
  | S754_nan => false
  | S754_zero s' | S754_infinity s' | S754_finite s' _ _ => Bool.eqb s' s
  end.

(** A Number proper: a binary64 value that is not [NaN]. *)
Definition isNumber (x : number) : Prop :=
  valid_binary prec emax x = true /\ isNaN x = false.

End Order.

(* ================================================================== *)
(** * The two menus and a session of the page *)
(* ================================================================== *)

Module Session.
Import JSString JSNumber JSArray Intl Wallet.

(** The remaining [useState] setters of [Home]. *)
Definition setDescription (v : jsstring) (s : State) : State :=
  {| expenses := expenses s;
     formDescription := v;
     formCategory := formCategory s;
     formDate := formDate s;
     formAmount := formAmount s;
     filterCategory := filterCategory s;
     sortKey := sortKey s;
     sortDir := sortDir s;
     editingId := editingId s;
     isCatMenuOpen := isCatMenuOpen s;
     isSortMenuOpen := isSortMenuOpen s |}.

Definition setCategory (v : CategoryKey) (s : State) : State :=
  {| expenses := expenses s;
     formDescription := formDescription s;
     formCategory := v;
     formDate := formDate s;
     formAmount := formAmount s;
     filterCategory := filterCategory s;
     sortKey := sortKey s;
     sortDir := sortDir s;
     editingId := editingId s;
     isCatMenuOpen := isCatMenuOpen s;
     isSortMenuOpen := isSortMenuOpen s |}.

Definition setDate (v : jsstring) (s : State) : State :=
  {| expenses := expenses s;
     formDescription := formDescription s;
     formCategory := formCategory s;
     formDate := v;
     formAmount := formAmount s;
     filterCategory := filterCategory s;
     sortKey := sortKey s;
     sortDir := sortDir s;
     editingId := editingId s;
     isCatMenuOpen := isCatMenuOpen s;
     isSortMenuOpen := isSortMenuOpen s |}.

Definition setAmount (v : jsstring) (s : State) : State :=
  {| expenses := expenses s;
     formDescription := formDescription s;
     formCategory := formCategory s;
     formDate := formDate s;
     formAmount := v;
     filterCategory := filterCategory s;
     sortKey := sortKey s;
     sortDir := sortDir s;
     editingId := editingId s;
     isCatMenuOpen := isCatMenuOpen s;
     isSortMenuOpen := isSortMenuOpen s |}.

Definition setFilterCategory (v : CategoryFilter) (s : State) : State :=
  {| expenses := expenses s;
     formDescription := formDescription s;
     formCategory := formCategory s;
     formDate := formDate s;
     formAmount := formAmount s;
     filterCategory := v;
     sortKey := sortKey s;
     sortDir := sortDir s;
     editingId := editingId s;
     isCatMenuOpen := isCatMenuOpen s;
     isSortMenuOpen := isSortMenuOpen s |}.

Definition setSortKey (v : SortKey) (s : State) : State :=
  {| expenses := expenses s;
     formDescription := formDescription s;
     formCategory := formCategory s;
     formDate := formDate s;
     formAmount := formAmount s;
     filterCategory := filterCategory s;
     sortKey := v;
     sortDir := sortDir s;
     editingId := editingId s;
     isCatMenuOpen := isCatMenuOpen s;
     isSortMenuOpen := isSortMenuOpen s |}.

Definition setSortDir (f : SortDir -> SortDir) (s : State) : State :=
  {| expenses := expenses s;
     formDescription := formDescription s;
     formCategory := formCategory s;
     formDate := formDate s;
     formAmount := formAmount s;
     filterCategory := filterCategory s;
     sortKey := sortKey s;
     sortDir := f (sortDir s);
     editingId := editingId s;
     isCatMenuOpen := isCatMenuOpen s;
     isSortMenuOpen := isSortMenuOpen s |}.

Definition setIsCatMenuOpen (f : bool -> bool) (s : State) : State :=
  {| expenses := expenses s;
     formDescription := formDescription s;
     formCategory := formCategory s;
     formDate := formDate s;
     formAmount := formAmount s;
     filterCategory := filterCategory s;
     sortKey := sortKey s;
     sortDir := sortDir s;
     editingId := editingId s;
     isCatMenuOpen := f (isCatMenuOpen s);
     isSortMenuOpen := isSortMenuOpen s |}.

Definition setIsSortMenuOpen (f : bool -> bool) (s : State) : State :=
  {| expenses := expenses s;
     formDescription := formDescription s;
     formCategory := formCategory s;
     formDate := formDate s;
     formAmount := formAmount s;
     filterCategory := filterCategory s;
     sortKey := sortKey s;
     sortDir := sortDir s;
     editingId := editingId s;
     isCatMenuOpen := isCatMenuOpen s;
     isSortMenuOpen := f (isSortMenuOpen s) |}.

(** [(d) => (d === "asc" ? "desc" : "asc")] *)
Definition flipDir (d : SortDir) : SortDir :=
  match d with Asc => Desc | Desc => Asc end.

(** [onDocClick], the [click] listener on [document]; [inCat] and
    [inSort] say whether the target lies inside the container of the
    category menu and of the sort menu. *)
Definition onDocClick (inCat inSort : bool) (s : State) : State :=
  let s1 := if negb inCat then setIsCatMenuOpen (fun _ => false) s else s in
  if negb inSort then setIsSortMenuOpen (fun _ => false) s1 else s1.

(** The elements of the two menu containers, each with its [onClick];
    the items exist only while their menu is open. *)
Inductive MenuElement :=
| CatButton
| CatItem (f : CategoryFilter)
| SortButton
| SortItem (k : SortKey)
| DirectionItem.

Definition inCatMenu (m : MenuElement) : bool :=
  match m with CatButton | CatItem _ => true | _ => false end.

Definition inSortMenu (m : MenuElement) : bool := negb (inCatMenu m).

Definition rendered (m : MenuElement) (s : State) : bool :=
  match m with
  | CatButton | SortButton => true
  | CatItem _ => isCatMenuOpen s
  | SortItem _ | DirectionItem => isSortMenuOpen s
  end.

Definition onClick (m : MenuElement) (s : State) : State :=
  match m with
  | CatButton => setIsCatMenuOpen negb s
  | CatItem f => setFilterCategory f s
  | SortButton => setIsSortMenuOpen negb s
  | SortItem k => setSortKey k s
  | DirectionItem => setSortDir flipDir s
  end.

(** The edits of a row: the [onChange] of its four fields. *)
Inductive Change :=
| ChDescription (v : jsstring)
| ChCategory (v : CategoryKey)
| ChDate (v : jsstring)
| ChAmount (v : jsstring).

Definition applyChange (c : Change) (l : Expense) : Expense :=
  match c with
  | ChDescription v => changeDescription l v
  | ChCategory v => changeCategory l v
  | ChDate v => changeDate l v
  | ChAmount v => changeAmount l v
  end.

(** What the user does.  A click on an element of a menu runs the
    element's handler and, the event reaching [document], [onDocClick];
    every other click reaches [onDocClick] from outside both menus. *)
Inductive Action :=
| TypeDescription (v : jsstring)
| PickCategory (v : CategoryKey)
| TypeDate (v : jsstring)
| TypeAmount (v : jsstring)
| PressAdd (env : Env)
| PressDelete (i : jsstring)
| PressEdit (i : jsstring)
| EditRow (e : Expense) (changes : list Change)
| ClickMenu (m : MenuElement)
| ClickAway.

(** The records that have a row: those of [filteredSorted]. *)
Definition shown (e : Expense) (s : State) : bool :=
  existsb (fun x => if Scenario.Expense_eq_dec x e then true else false)
          (byCategory (filterCategory s) (expenses s)).

(** The row of the record [e], if there is one, takes the changes in its
    working copy and commits (the Enter key, or a mouse press outside
    the row). *)
Definition editRow (e : Expense) (changes : list Change) (s : State) : State :=
  if shown e s
  then commit (fold_left (fun r c => setLocal (applyChange c) r) changes
                         (mountRow s e)) s
  else s.

Definition step (a : Action) (s : State) : State :=
  match a with
  | TypeDescription v => setDescription v s
  | PickCategory v => onDocClick false false (setCategory v s)
  | TypeDate v => setDate v s
  | TypeAmount v => setAmount v s
  | PressAdd env => onDocClick false false (handleAdd env s)
  | PressDelete i => onDocClick false false (handleDelete i s)
  | PressEdit i => onDocClick false false (startEdit i s)
  | EditRow e changes => editRow e changes s
  | ClickMenu m =>
      if rendered m s
      then onDocClick (inCatMenu m) (inSortMenu m) (onClick m s)
      else s
  | ClickAway => onDocClick false false s
  end.

Definition run (actions : list Action) (s : State) : State :=
  fold_left (fun st a => step a st) actions s.

(** The host never repeats an identifier: each [PressAdd] comes with an
    identifier no stored record has. *)
Fixpoint freshIds (actions : list Action) (s : State) : Prop :=
  match actions with
  | [] => True
  | a :: rest =>
      match a with
      | PressAdd env => ~ In (randomUUID env) (map id (expenses s))
      | _ => True
      end
      /\ freshIds rest (step a s)
  end.

End Session.

(* ================================================================== *)
(** * One engine's [Array.prototype.sort] *)
(* ================================================================== *)

Module Engine.
Import JSString JSNumber JSArray Intl Wallet.

(** V8 sorts an array shorter than 64 elements ([ComputeMinRunLength]
    returns the length) in two steps of [builtins/array-sort.tq]:
    [CountAndMakeRun] finds the run the array starts with and reverses
    it when it descends, [BinaryInsertionSort] inserts the remaining
    elements one by one at the place a binary search gives.  Every
    comparison goes through [SortCompare]. *)
Section TimSort.
Context {A : Type}.
Variable comparefn : A -> A -> number.







End TimSort.



End Engine.

(* ================================================================== *)
(** * Facts about the string and number models *)
(* ================================================================== *)

Module JSStringFacts.
Import JSString.

Lemma eqb_eq (a b : jsstring) : eqb a b = true <-> a = b.
Proof.
  unfold eqb. destruct (list_eq_dec N.eq_dec a b); split; congruence.
Qed.

Lemma eqb_refl (a : jsstring) : eqb a a = true.
Proof. now apply eqb_eq. Qed.

Lemma eqb_neq (a b : jsstring) : eqb a b = false <-> a <> b.
Proof.
  unfold eqb. destruct (list_eq_dec N.eq_dec a b); split; congruence.
Qed.

Lemma trimStart_nil (s : jsstring) :
  trimStart s = [] <-> forallb isWhiteSpace s = true.
Proof.
  induction s as [|c s IH]; simpl.
  - tauto.
  - destruct (isWhiteSpace c); simpl.
    + exact IH.
    + split; discriminate.
Qed.

Lemma trimEnd_nil (s : jsstring) :
  trimEnd s = [] <-> forallb isWhiteSpace s = true.
Proof.
  induction s as [|c s IH]; simpl.
  - tauto.
  - destruct (trimEnd s) as [|d t] eqn:E.
    + destruct (isWhiteSpace c); simpl.
      * split; intros _; [now apply IH | reflexivity].
      * split; discriminate.
    + split; [discriminate|].
      rewrite andb_true_iff. intros [_ H]. apply IH in H. discriminate.
Qed.

Lemma trimStart_suffix (s : jsstring) :
  exists p, s = p ++ trimStart s /\ forallb isWhiteSpace p = true.
Proof.
  induction s as [|c s [p [E W]]]; simpl.
  - now exists [].
  - destruct (isWhiteSpace c) eqn:Hc.
    + exists (c :: p). simpl. rewrite Hc, W. split; [congruence | reflexivity].
    + now exists [].
Qed.

(** A description is empty after trimming exactly when it consists of
    white space only (the empty string included). *)
Lemma trim_nil (s : jsstring) :
  trim s = [] <-> forallb isWhiteSpace s = true.
Proof.
  unfold trim. rewrite trimEnd_nil.
  destruct (trimStart_suffix s) as [p [E W]].
  split; intros H.
  - rewrite E, forallb_app, W, H. reflexivity.
  - rewrite E, forallb_app in H. now apply andb_true_iff in H.
Qed.

Lemma compare_refl (a : jsstring) : compare a a = Eq.
Proof.
  induction a as [|x a IH]; simpl; [reflexivity|].
  now rewrite N.compare_refl.
Qed.

Lemma compare_eq (a b : jsstring) : compare a b = Eq -> a = b.
Proof.
  revert b. induction a as [|x a IH]; intros [|y b]; simpl; try discriminate.
  - reflexivity.
  - destruct (N.compare x y) eqn:E; try discriminate.
    apply N.compare_eq in E. intros H. f_equal; auto.
Qed.

Lemma compare_antisym (a b : jsstring) : compare b a = CompOpp (compare a b).
Proof.
  revert b. induction a as [|x a IH]; intros [|y b]; simpl; try reflexivity.
  rewrite (N.compare_antisym x y).
  destruct (N.compare x y); simpl; auto.
Qed.

Lemma compare_lt_trans (a b c : jsstring) :
  compare a b = Lt -> compare b c = Lt -> compare a c = Lt.
Proof.
  revert b c. induction a as [|x a IH]; intros [|y b] [|z c]; simpl;
    try discriminate; try reflexivity.
  destruct (N.compare x y) eqn:E1; try discriminate;
    destruct (N.compare y z) eqn:E2; try discriminate; intros H1 H2.
  - apply N.compare_eq in E1, E2. subst. rewrite N.compare_refl. eauto.
  - apply N.compare_eq in E1. subst. now rewrite E2.
  - apply N.compare_eq in E2. subst. now rewrite E1.
  - rewrite N.compare_lt_iff in E1, E2.
    assert (E : (x ?= z)%N = Lt) by (apply N.compare_lt_iff; lia).
    now rewrite E.
Qed.

(** [compare] is a total order: "not less than" is transitive. *)
Lemma compare_ge_trans (a b c : jsstring) :
  compare a b <> Lt -> compare b c <> Lt -> compare a c <> Lt.
Proof.
  intros H1 H2 H3.
  destruct (compare a b) eqn:E1; [|congruence|].
  - apply compare_eq in E1. subst. congruence.
  - destruct (compare b c) eqn:E2; [|congruence|].
    + apply compare_eq in E2. subst. congruence.
    + assert (L1 : compare b a = Lt) by (rewrite compare_antisym, E1; reflexivity).
      assert (L2 : compare c b = Lt) by (rewrite compare_antisym, E2; reflexivity).
      pose proof (compare_lt_trans _ _ _ L2 L1) as L.
      rewrite compare_antisym, H3 in L. discriminate.
Qed.

End JSStringFacts.

Module JSNumberFacts.
Import JSNumber.

(** [0 < x] is the negation of the two numeric tests of [handleAdd]. *)
Lemma positive_iff (x : number) :
  ltb zero x = true <-> isNaN x = false /\ leb x zero = false.
Proof.
  destruct x as [s|s| |s m e]; try destruct s; cbn; intuition congruence.
Qed.

Lemma negative_truthy (x : number) : ltb x zero = true -> truthy x = true.
Proof.
  destruct x as [s|s| |s m e]; try destruct s; cbn; congruence.
Qed.

Lemma negative_not_positive (x : number) :
  ltb x zero = true -> leb x zero = true.
Proof.
  destruct x as [s|s| |s m e]; try destruct s; cbn; congruence.
Qed.

Lemma or_NaN (y : number) : or NaN y = y.
Proof. reflexivity. Qed.

End JSNumberFacts.

Module JSONFacts.
Import JSString JSNumber JSON.

Lemma iter_pos_iter {A : Type} (f : A -> A) (n : positive) (x : A) :
  iter_pos f n x = Pos.iter f x n.
Proof.
  revert x. induction n as [n IH|n IH|]; intros x; simpl.
  - rewrite !IH. now rewrite <- !Pos.iter_swap.
  - now rewrite !IH.
  - reflexivity.
Qed.

Lemma Zpos_iter_xO (m n : positive) :
  Zpos (Pos.iter xO m n) = Zpos m * 2 ^ Zpos n.
Proof.
  induction n as [|n IH] using Pos.peano_ind.
  - simpl. lia.
  - rewrite Pos.iter_succ, Pos2Z.inj_xO, IH, Pos2Z.inj_succ, Z.pow_succ_r by lia.
    lia.
Qed.

Lemma digits2_iter_xO (m n : positive) :
  digits2_pos (Pos.iter xO m n) = (digits2_pos m + n)%positive.
Proof.
  induction n as [|n IH] using Pos.peano_ind.
  - simpl. lia.
  - rewrite Pos.iter_succ. simpl. rewrite IH. lia.
Qed.

Lemma shr_exact (m n : positive) :
  iter_pos shr_1 n (Build_shr_record (Zpos (Pos.iter xO m n)) false false) =
  Build_shr_record (Zpos m) false false.
Proof.
  rewrite iter_pos_iter.
  induction n as [|n IH] using Pos.peano_ind.
  - reflexivity.
  - rewrite Pos.iter_succ_r, Pos.iter_succ. simpl. exact IH.
Qed.

Lemma digits2_bounds (p : positive) :
  2 ^ (Zpos (digits2_pos p) - 1) <= Zpos p < 2 ^ Zpos (digits2_pos p).
Proof.
  induction p as [p IH|p IH|]; simpl digits2_pos.
  - rewrite Pos2Z.inj_succ, Pos2Z.inj_xI.
    replace (Z.succ (Zpos (digits2_pos p)) - 1) with (Z.succ (Zpos (digits2_pos p) - 1)) by lia.
    rewrite !Z.pow_succ_r by lia.
    generalize dependent (2 ^ (Z.pos (digits2_pos p) - 1)). generalize dependent (2 ^ Z.pos (digits2_pos p)). intros; lia.
  - rewrite Pos2Z.inj_succ. change (Zpos p~0) with (2 * Zpos p).
    replace (Z.succ (Zpos (digits2_pos p)) - 1) with (Z.succ (Zpos (digits2_pos p) - 1)) by lia.
    rewrite !Z.pow_succ_r by lia. lia.
  - simpl. lia.
Qed.

Lemma bounded_canonical (m : positive) (e : Z) :
  bounded prec emax m e = true ->
  fexp prec emax (Zpos (digits2_pos m) + e) = e /\ e <= emax - prec.
Proof.
  unfold bounded, canonical_mantissa. rewrite andb_true_iff.
  intros [H1 H2]. apply Z.eqb_eq in H1. apply Z.leb_le in H2. auto.
Qed.

Lemma shr_fexp_exact (m : positive) (e e' : Z) :
  fexp prec emax (Zpos (digits2_pos m) + e) = e -> e' <= e ->
  shr_fexp prec emax (Zpos m * 2 ^ (e - e')) e' loc_Exact =
  (Build_shr_record (Zpos m) false false, e).
Proof.
  intros C L. unfold shr_fexp.
  destruct (Z.eq_dec e e') as [<-|N].
  - rewrite Z.sub_diag, Z.pow_0_r, Z.mul_1_r. simpl Zdigits2.
    rewrite C, Z.sub_diag. reflexivity.
  - assert (P : 0 < e - e') by lia.
    destruct (e - e') as [|n|n] eqn:E; try lia.
    rewrite <- Zpos_iter_xO. simpl Zdigits2. rewrite digits2_iter_xO.
    rewrite Pos2Z.inj_add.
    replace (Zpos (digits2_pos m) + Zpos n + e') with (Zpos (digits2_pos m) + e) by lia.
    rewrite C. replace (e - e') with (Zpos n) by lia.
    unfold shr. simpl shr_record_of_loc. rewrite shr_exact. f_equal. lia.
Qed.

Lemma binary_round_aux_exact (s : bool) (m : positive) (e e' : Z) :
  bounded prec emax m e = true -> e' <= e ->
  binary_round_aux prec emax s (Zpos m * 2 ^ (e - e')) e' loc_Exact =
  S754_finite s m e.
Proof.
  intros B L. apply bounded_canonical in B as [C M].
  unfold binary_round_aux. rewrite (shr_fexp_exact m e e' C L).
  cbn [shr_m loc_of_shr_record round_nearest_even].
  replace (Zpos m) with (Zpos m * 2 ^ (e - e)) at 1
    by (rewrite Z.sub_diag, Z.pow_0_r; lia).
  rewrite (shr_fexp_exact m e e C (Z.le_refl e)).
  cbn [shr_m]. apply Z.leb_le in M. now rewrite M.
Qed.

Lemma fexp_mono (a b : Z) : a <= b -> fexp prec emax a <= fexp prec emax b.
Proof. unfold fexp. lia. Qed.

Lemma mul_pow2_digits (m p : positive) (n : Z) :
  0 <= n -> Zpos p = Zpos m * 2 ^ n ->
  Zpos (digits2_pos p) = Zpos (digits2_pos m) + n.
Proof.
  intros Hn E. destruct n as [|n|n]; try lia.
  - rewrite Z.pow_0_r, Z.mul_1_r in E. injection E as ->. lia.
  - rewrite <- Zpos_iter_xO in E. injection E as ->.
    rewrite digits2_iter_xO. lia.
Qed.

Lemma new_location_exact (n : Z) : new_location n 0 = loc_Exact.
Proof. unfold new_location. destruct (Z.even n); reflexivity. Qed.

Lemma ofDecimal_exact (s : bool) (m : positive) (e : Z) :
  bounded prec emax m e = true ->
  ofDecimal s (fst (exactDecimal m e)) (snd (exactDecimal m e)) =
  S754_finite s m e.
Proof.
  intros B. pose proof (bounded_canonical m e B) as [C M].
  unfold exactDecimal. destruct (0 <=? e) eqn:He.
  - apply Z.leb_le in He. cbn [fst snd]. unfold ofDecimal.
    assert (P : 0 < Zpos m * 2 ^ e) by (apply Z.mul_pos_pos; [lia | apply Z.pow_pos_nonneg; lia]).
    destruct (Zpos m * 2 ^ e) as [|p|p] eqn:E; try lia.
    cbn [Z.leb Z.compare]. rewrite Z.pow_0_r, Z.mul_1_r.
    assert (D : Zpos (digits2_pos p) = Zpos (digits2_pos m) + e)
      by (apply mul_pow2_digits; auto).
    assert (R : binary_round prec emax s p 0 = S754_finite s m e).
    { unfold binary_round. rewrite Z.add_0_r, D, C.
      unfold shl_align. rewrite Z.sub_0_r.
      destruct e as [|e1|e1]; try lia.
      - rewrite <- E. replace (2 ^ 0) with (2 ^ (0 - 0)) by reflexivity.
        now apply binary_round_aux_exact.
      - rewrite <- E. replace (2 ^ Zpos e1) with (2 ^ (Zpos e1 - 0)) by (f_equal; lia).
        apply binary_round_aux_exact; auto; lia. }
    destruct s; exact R.
  - apply Z.leb_gt in He. cbn [fst snd]. unfold ofDecimal.
    set (k := - e) in *. assert (Hk : 0 < k) by (unfold k; lia).
    assert (P5 : 0 < 5 ^ k) by (apply Z.pow_pos_nonneg; lia).
    assert (P10 : 0 < 10 ^ k) by (apply Z.pow_pos_nonneg; lia).
    assert (P2 : 0 < 2 ^ k) by (apply Z.pow_pos_nonneg; lia).
    assert (P : 0 < Zpos m * 5 ^ k) by lia.
    destruct (Zpos m * 5 ^ k) as [|p|p] eqn:E; try lia.
    destruct (10 ^ k) as [|q|q] eqn:E10; try lia.
    assert (T : 10 ^ k = 2 ^ k * 5 ^ k) by (rewrite <- Z.pow_mul_l; reflexivity).
    assert (He' : (0 <=? e) = false) by (apply Z.leb_gt; lia). rewrite He'.
    unfold SFdiv. cbn [Z.to_pos].
    unfold SFdiv_core_binary. cbn [Zdigits2]. rewrite !Z.add_0_r, Z.sub_diag.
    set (d1 := Zpos (digits2_pos p)). set (d2 := Zpos (digits2_pos q)).
    set (dm := Zpos (digits2_pos m)) in *.
    set (e' := Z.min (fexp prec emax (d1 - d2)) 0).
    assert (Le : e' <= e).
    { assert (d1 - d2 <= dm + e).
      { pose proof (digits2_bounds p) as Bp. pose proof (digits2_bounds q) as Bq.
        pose proof (digits2_bounds m) as Bm. fold d1 in Bp. fold d2 in Bq. fold dm in Bm.
        assert (X : 2 ^ (d1 - 1) * 2 ^ k < 2 ^ dm * 2 ^ d2).
        { apply Z.le_lt_trans with (Zpos p * 2 ^ k).
          - apply Z.mul_le_mono_nonneg_r; lia.
          - rewrite <- E. replace (Zpos m * 5 ^ k * 2 ^ k) with (Zpos m * 10 ^ k) by (rewrite T; ring).
            rewrite E10. apply Z.mul_lt_mono_nonneg; lia. }
        rewrite <- !Z.pow_add_r in X by (unfold d1, d2, dm; lia).
        apply Z.pow_lt_mono_r_iff in X; unfold d1, d2, dm in *; lia. }
      apply fexp_mono in H. unfold e'. lia. }
    replace (0 - e') with (- e') by lia.
    destruct (- e') as [|n|n] eqn:En; try lia.
    rewrite Z.shiftl_mul_pow2 by lia.
    assert (Q : Z.div_eucl (Zpos p * 2 ^ Zpos n) (Zpos q) = (Zpos m * 2 ^ (e - e'), 0)).
    { pose proof (Z_div_mod (Zpos p * 2 ^ Zpos n) (Zpos q) eq_refl) as H.
      destruct (Z.div_eucl (Zpos p * 2 ^ Zpos n) (Zpos q)) as [q0 r0].
      destruct H as [H1 H2].
      assert (F : Zpos p * 2 ^ Zpos n = Zpos q * (Zpos m * 2 ^ (e - e')) + 0).
      { rewrite <- E, <- E10, T. replace (Zpos n) with ((e - e') + k) by (unfold k; lia).
        rewrite Z.pow_add_r by lia. ring. }
      assert (q0 = Zpos m * 2 ^ (e - e') /\ r0 = 0) as [-> ->]; [|reflexivity].
      rewrite F in H1.
      assert (Zpos q * (Zpos m * 2 ^ (e - e') - q0) = r0) by lia.
      assert (Zpos m * 2 ^ (e - e') - q0 = 0) by nia. lia. }
    change IntDef.Z.div_eucl with Z.div_eucl.
    rewrite Q, new_location_exact, xorb_false_r.
    now apply binary_round_aux_exact.
Qed.

(** ** Decimal digits *)

Lemma digitOfBase_decimal (d : N) :
  (d < 10)%N -> digitOfBase 10 (48 + d)%N = Some d.
Proof.
  intros H. unfold digitOfBase.
  assert (A : ((48 <=? 48 + d) && (48 + d <=? 57))%N = true).
  { apply andb_true_iff. split; apply N.leb_le; lia. }
  rewrite A. replace (48 + d - 48)%N with d by lia.
  apply N.ltb_lt in H. now rewrite H.
Qed.

Lemma isDigit_decimal (d : N) : (d < 10)%N -> isDigit (48 + d)%N = true.
Proof.
  intros H. unfold isDigit. apply andb_true_iff. split; apply N.leb_le; lia.
Qed.

Lemma isDigit_value (c : code_unit) :
  isDigit c = true -> digitOfBase 10 c = Some (c - 48)%N /\ (c - 48 < 10)%N.
Proof.
  unfold isDigit, digitOfBase. intros H. rewrite H.
  apply andb_true_iff in H as [H1 H2]. apply N.leb_le in H1, H2.
  assert (L : (c - 48 < 10)%N) by lia. split; [|exact L].
  apply N.ltb_lt in L. now rewrite L.
Qed.

Lemma digitsValue_app (b acc : N) (s t : jsstring) :
  digitsValue b acc (s ++ t) =
  match digitsValue b acc s with
  | Some v => digitsValue b v t
  | None => None
  end.
Proof.
  revert acc. induction s as [|c s IH]; intros acc; simpl.
  - reflexivity.
  - destruct (digitOfBase b c); [apply IH | reflexivity].
Qed.

Lemma digitsValue_zeros (acc : N) (j : nat) :
  digitsValue 10 acc (repeat 48%N j) = Some (acc * 10 ^ N.of_nat j)%N.
Proof.
  revert acc. induction j as [|j IH]; intros acc.
  - simpl. f_equal. lia.
  - cbn [repeat digitsValue]. change (digitOfBase 10 48%N) with (Some 0%N).
    cbv iota. rewrite IH. f_equal. rewrite Nat2N.inj_succ, N.pow_succ_r'. lia.
Qed.

Lemma digitsAux_acc (fuel : nat) (n : N) (acc : jsstring) :
  digitsAux fuel n acc = digitsAux fuel n [] ++ acc.
Proof.
  revert n acc. induction fuel as [|f IH]; intros n acc; simpl.
  - reflexivity.
  - destruct (n <? 10)%N; [reflexivity|].
    rewrite (IH _ (_ :: acc)), (IH _ [_]). now rewrite <- app_assoc.
Qed.

Lemma digitsAux_step (f : nat) (n : N) :
  digitsAux (S f) n [] =
  if (n <? 10)%N then [(48 + n mod 10)%N]
  else digitsAux f (n / 10)%N [] ++ [(48 + n mod 10)%N].
Proof.
  simpl. destruct (n <? 10)%N; [reflexivity|]. apply digitsAux_acc.
Qed.

Lemma digitsAux_fuel (f : nat) (n : N) :
  (n < 2 ^ N.of_nat (S f))%N -> (10 <= n)%N ->
  (n / 10 < 2 ^ N.of_nat f)%N /\ f <> O.
Proof.
  intros H T. rewrite Nat2N.inj_succ, N.pow_succ_r' in H.
  split.
  - apply N.Div0.div_lt_upper_bound. lia.
  - intros ->. simpl in H. lia.
Qed.

Lemma digitsAux_value (fuel : nat) (n : N) :
  (n < 2 ^ N.of_nat fuel)%N ->
  digitsValue 10 0 (digitsAux fuel n []) = Some n.
Proof.
  revert n. induction fuel as [|f IH]; intros n H.
  - simpl in H. assert (n = 0%N) by lia. subst. reflexivity.
  - rewrite digitsAux_step. destruct (n <? 10)%N eqn:T.
    + apply N.ltb_lt in T. rewrite N.mod_small by exact T.
      cbn [digitsValue]. rewrite digitOfBase_decimal by exact T.
      f_equal.
    + apply N.ltb_ge in T. destruct (digitsAux_fuel f n H T) as [H' _].
      rewrite digitsValue_app, (IH _ H'). cbn [digitsValue].
      rewrite digitOfBase_decimal by (apply N.mod_lt; lia).
      f_equal. rewrite (N.div_mod' n 10) at 3. lia.
Qed.

Lemma digitsAux_digits (fuel : nat) (n : N) :
  forallb isDigit (digitsAux fuel n []) = true.
Proof.
  revert n. induction fuel as [|f IH]; intros n.
  - reflexivity.
  - rewrite digitsAux_step.
    assert (D : isDigit (48 + n mod 10)%N = true)
      by (apply isDigit_decimal, N.mod_lt; lia).
    destruct (n <? 10)%N.
    + cbn [forallb]. now rewrite D.
    + rewrite forallb_app, IH. cbn [forallb]. now rewrite D.
Qed.

Lemma digitsAux_head (fuel : nat) (n : N) :
  (0 < n)%N -> (n < 2 ^ N.of_nat fuel)%N ->
  exists c r, digitsAux fuel n [] = c :: r /\ (49 <= c <= 57)%N.
Proof.
  revert n. induction fuel as [|f IH]; intros n P H.
  - simpl in H. lia.
  - rewrite digitsAux_step. destruct (n <? 10)%N eqn:T.
    + apply N.ltb_lt in T. rewrite N.mod_small by exact T.
      exists (48 + n)%N, []. split; [reflexivity | lia].
    + apply N.ltb_ge in T. destruct (digitsAux_fuel f n H T) as [H' _].
      destruct (IH (n / 10)%N) as (c & r & E & B); [|exact H'|].
      * apply N.div_str_pos. lia.
      * rewrite E. exists c, (r ++ [(48 + n mod 10)%N]). split; [reflexivity | exact B].
Qed.

Lemma digitsOfN_fuel (n : N) : (n < 2 ^ N.of_nat (S (N.to_nat (N.log2 n))))%N.
Proof.
  rewrite Nat2N.inj_succ, N2Nat.id.
  destruct n as [|p]; [reflexivity|].
  apply N.log2_spec. lia.
Qed.

Lemma digitsOfN_value (n : N) : digitsValue 10 0 (digitsOfN n) = Some n.
Proof. apply digitsAux_value, digitsOfN_fuel. Qed.

Lemma digitsOfN_digits (n : N) : forallb isDigit (digitsOfN n) = true.
Proof. apply digitsAux_digits. Qed.

Lemma digitsOfN_head (n : N) :
  (0 < n)%N -> exists c r, digitsOfN n = c :: r /\ (49 <= c <= 57)%N.
Proof. intros P. apply digitsAux_head; [exact P | apply digitsOfN_fuel]. Qed.

Lemma digitsOfN_nonempty (n : N) : digitsOfN n <> [].
Proof.
  unfold digitsOfN. rewrite digitsAux_step.
  destruct (n <? 10)%N; [discriminate|]. now destruct (digitsAux _ _ _).
Qed.

(** ** Reading a decimal literal *)

Lemma spanDigits_app (ds r : jsstring) :
  forallb isDigit ds = true -> noDigitHead r -> spanDigits (ds ++ r) = (ds, r).
Proof.
  intros D H. induction ds as [|c ds IH]; cbn [app spanDigits forallb] in *.
  - destruct r as [|c r]; [reflexivity|]. cbn [spanDigits]. cbn [noDigitHead] in H.
    now rewrite H.
  - apply andb_true_iff in D as [Dc D]. rewrite Dc, (IH D). reflexivity.
Qed.

Lemma digit_not_I (c : code_unit) (s : jsstring) :
  isDigit c = true -> JSString.eqb (c :: s) (ofAscii "Infinity") = false.
Proof.
  intros D. apply JSStringFacts.eqb_neq. intros E. injection E as -> _.
  discriminate.
Qed.

Lemma exponentPart_text (e : Z) : exponentPart (exponentText e) = Some e.
Proof.
  unfold exponentText, exponentPart.
  change ((101 =? 101) || (101 =? 69))%N with true. cbv iota.
  assert (V := digitsOfN_value (Z.to_N (Z.abs e))).
  assert (NE := digitsOfN_nonempty (Z.to_N (Z.abs e))).
  destruct (e <? 0) eqn:S.
  - apply Z.ltb_lt in S. destruct (digitsOfN _) as [|c r]; [congruence|].
    rewrite V. f_equal. simpl. lia.
  - apply Z.ltb_ge in S. destruct (digitsOfN _) as [|c r]; [congruence|].
    rewrite V. f_equal. simpl. lia.
Qed.

Lemma unsignedDecimal_integer (sg : bool) (ip ex : jsstring) (E : Z) :
  forallb isDigit ip = true -> ip <> [] ->
  exponentPart ex = Some E ->
  unsignedDecimal sg (ip ++ ex) = ofDecimal sg (decimalValue ip) E.
Proof.
  intros D NE X. unfold unsignedDecimal.
  destruct ip as [|c ip]; [congruence|].
  assert (Dc : isDigit c = true) by (simpl in D; now apply andb_true_iff in D).
  cbn [app]. rewrite (digit_not_I c _ Dc).
  change (c :: ip ++ ex) with ((c :: ip) ++ ex).
  assert (H : noDigitHead ex /\ match ex with 46%N :: _ => False | _ => True end).
  { destruct ex as [|x ex]; [now split|].
    unfold exponentPart in X.
    destruct ((x =? 101) || (x =? 69))%N eqn:T; [|discriminate].
    apply orb_true_iff in T as [T|T]; apply N.eqb_eq in T; subst; now split. }
  destruct H as [H1 H2]. rewrite (spanDigits_app _ _ D H1).
  destruct ex as [|x ex].
  - rewrite X, app_nil_r. cbn [List.length Z.of_nat]. now rewrite Z.sub_0_r.
  - destruct (N.eq_dec x 46) as [->|N46]; [contradiction|].
    assert (Fin : forall T : jsstring * jsstring * bool,
               T = ([], x :: ex, false) ->
               (let '(fp, r', _) := T in
                match c :: ip, fp with
                | [], [] => NaN
                | _, _ =>
                    match exponentPart r' with
                    | Some e =>
                        ofDecimal sg (decimalValue ((c :: ip) ++ fp))
                                  (e - Z.of_nat (List.length fp))
                    | None => NaN
                    end
                end) = ofDecimal sg (decimalValue (c :: ip)) E).
    { intros T ->. rewrite X, app_nil_r. cbn [List.length Z.of_nat].
      now rewrite Z.sub_0_r. }
    apply Fin.
    destruct x as [|p]; [reflexivity|].
    do 6 (destruct p as [p|p|]; try reflexivity). congruence.
Qed.

Lemma unsignedDecimal_fraction (sg : bool) (ip fp ex : jsstring) (E : Z) :
  forallb isDigit ip = true -> ip <> [] ->
  forallb isDigit fp = true ->
  exponentPart ex = Some E ->
  unsignedDecimal sg (ip ++ 46%N :: fp ++ ex) =
  ofDecimal sg (decimalValue (ip ++ fp)) (E - Z.of_nat (List.length fp)).
Proof.
  intros D NE F X. unfold unsignedDecimal.
  destruct ip as [|c ip]; [congruence|].
  assert (Dc : isDigit c = true) by (simpl in D; now apply andb_true_iff in D).
  cbn [app]. rewrite (digit_not_I c _ Dc).
  change (c :: ip ++ 46%N :: fp ++ ex) with ((c :: ip) ++ 46%N :: fp ++ ex).
  rewrite (spanDigits_app _ _ D) by reflexivity.
  assert (H : noDigitHead ex).
  { destruct ex as [|x ex]; [exact I|].
    unfold exponentPart in X.
    destruct ((x =? 101) || (x =? 69))%N eqn:T; [|discriminate].
    apply orb_true_iff in T as [T|T]; apply N.eqb_eq in T; subst; reflexivity. }
  rewrite (spanDigits_app _ _ F H), X. reflexivity.
Qed.

Lemma ofDecimal_shift (sg : bool) (d j : Z) :
  0 < d -> 0 <= j -> ofDecimal sg (d * 10 ^ j) 0 = ofDecimal sg d j.
Proof.
  intros P J. unfold ofDecimal.
  assert (Q : 0 < d * 10 ^ j) by (apply Z.mul_pos_pos; [lia | apply Z.pow_pos_nonneg; lia]).
  destruct d as [|p|p]; try lia. destruct (Z.pos p * 10 ^ j) as [|q|q] eqn:E; try lia.
  apply Z.leb_le in J. rewrite J. cbn [Z.leb Z.compare].
  now rewrite Z.pow_0_r, Z.mul_1_r.
Qed.

Lemma decimalValue_digits (d : Z) :
  0 <= d -> decimalValue (digitsOfN (Z.to_N d)) = d.
Proof.
  intros P. unfold decimalValue. rewrite digitsOfN_value. lia.
Qed.

Lemma formatDecimal_reads (sg : bool) (d e10 : Z) :
  0 < d ->
  let ds := digitsOfN (Z.to_N d) in
  unsignedDecimal sg (formatDecimal ds (e10 + Z.of_nat (List.length ds))) =
  ofDecimal sg d e10.
Proof.
  intros P ds.
  assert (D : forallb isDigit ds = true) by apply digitsOfN_digits.
  assert (V : digitsValue 10 0 ds = Some (Z.to_N d)) by apply digitsOfN_value.
  assert (NE : ds <> []) by apply digitsOfN_nonempty.
  assert (K : 0 < Z.of_nat (List.length ds))
    by (destruct ds; [congruence | simpl List.length; lia]).
  unfold formatDecimal.
  set (k := Z.of_nat (List.length ds)) in *. set (n := e10 + k).
  destruct ((k <=? n) && (n <=? 21)) eqn:F1.
  { apply andb_true_iff in F1 as [A _]. apply Z.leb_le in A.
    rewrite <- (app_nil_r (ds ++ _)).
    rewrite (unsignedDecimal_integer sg _ [] 0); [| | |reflexivity].
    - replace (n - k) with e10 by (unfold n; lia).
      rewrite <- (ofDecimal_shift sg d e10) by (unfold n in A; lia).
      f_equal. unfold decimalValue.
      rewrite digitsValue_app, V, digitsValue_zeros, N2Z.inj_mul, N2Z.inj_pow.
      rewrite Z2N.id, nat_N_Z, Z2Nat.id by (unfold n in A; lia). reflexivity.
    - rewrite forallb_app, D. clear. induction (Z.to_nat (n - k)); simpl; auto.
    - destruct ds; [congruence | discriminate]. }
  destruct ((0 <? n) && (n <=? 21)) eqn:F2.
  { apply andb_true_iff in F2 as [A B]. apply Z.ltb_lt in A.
    apply andb_false_iff in F1 as [F1|F1]; [apply Z.leb_gt in F1 | congruence].
    rewrite <- (app_nil_r (skipn _ ds)).
    assert (S : forallb isDigit (firstn (Z.to_nat n) ds) = true
                /\ forallb isDigit (skipn (Z.to_nat n) ds) = true).
    { rewrite <- (firstn_skipn (Z.to_nat n) ds), forallb_app in D.
      now apply andb_true_iff in D. }
    destruct S as [S1 S2].
    assert (NI : firstn (Z.to_nat n) ds <> []).
    { destruct ds as [|c ds']; [congruence|].
      destruct (Z.to_nat n) eqn:En; [lia | discriminate]. }
    rewrite (unsignedDecimal_fraction sg _ _ [] 0 S1 NI S2 eq_refl).
    rewrite firstn_skipn, length_skipn. f_equal.
    - unfold decimalValue. rewrite V. lia.
    - unfold n, k in *. lia. }
  destruct ((-6 <? n) && (n <=? 0)) eqn:F3.
  { apply andb_true_iff in F3 as [_ A]. apply Z.leb_le in A.
    change (48%N :: 46%N :: repeat 48%N (Z.to_nat (- n)) ++ ds)
      with ([48%N] ++ 46%N :: repeat 48%N (Z.to_nat (- n)) ++ ds).
    rewrite <- (app_nil_r (repeat _ _ ++ ds)).
    rewrite (unsignedDecimal_fraction sg _ _ [] 0); try reflexivity; try discriminate.
    - f_equal.
      + unfold decimalValue. cbn [app digitsValue].
        change (digitOfBase 10 48%N) with (Some 0%N). cbv iota.
        rewrite digitsValue_app, digitsValue_zeros.
        replace (0 * 10 + 0)%N with 0%N by reflexivity. rewrite N.mul_0_l, V. lia.
      + rewrite length_app, repeat_length. unfold n, k in *. lia.
    - rewrite forallb_app, D. clear. induction (Z.to_nat (- n)); simpl; auto. }
  fold (exponentText (n - 1)).
  destruct ds as [|c [|c2 rest]] eqn:Eds; [congruence| |].
  - change (c :: exponentText (n - 1)) with ([c] ++ exponentText (n - 1)).
    rewrite (unsignedDecimal_integer sg _ _ (n - 1)); try exact D; try discriminate;
      [|apply exponentPart_text].
    f_equal.
    + unfold decimalValue. rewrite V. lia.
    + unfold n, k. simpl List.length. lia.
  - change (c :: 46%N :: (c2 :: rest) ++ exponentText (n - 1))
      with ([c] ++ 46%N :: (c2 :: rest) ++ exponentText (n - 1)).
    cbn [forallb] in D. apply andb_true_iff in D as [Dc D'].
    rewrite (unsignedDecimal_fraction sg _ _ _ (n - 1));
      [| cbn [forallb]; now rewrite Dc | discriminate | exact D' | apply exponentPart_text].
    f_equal.
    + unfold decimalValue. cbn [app]. rewrite V. lia.
    + unfold n, k. cbn [List.length]. lia.
Qed.

(** ** The shortest decimal reads back *)

Lemma sameNumber_eq (x y : number) : sameNumber x y = true -> x = y.
Proof.
  destruct x as [a|a| |a m e], y as [b|b| |b m' e']; simpl; try discriminate;
    try reflexivity.
  - intros H. apply eqb_prop in H. now subst.
  - intros H. apply eqb_prop in H. now subst.
  - rewrite !andb_true_iff. intros [[H1 H2] H3].
    apply eqb_prop in H1. apply Pos.eqb_eq in H2. apply Z.eqb_eq in H3.
    now subst.
Qed.

Lemma shortest_reads (x : number) (M E L : Z) (fuel : nat) (k : Z) (c : Z * Z) :
  shortest x M E L fuel k = Some c -> ofDecimal false (fst c) (snd c) = x.
Proof.
  revert k. induction fuel as [|f IH]; intros k; simpl; [discriminate|].
  destruct (find _ _) as [c'|] eqn:F.
  - intros H. injection H as <-. apply find_some in F as [_ F].
    now apply sameNumber_eq.
  - apply IH.
Qed.

Lemma ofDecimal_finite_pos (sg s : bool) (d e10 : Z) (m : positive) (e : Z) :
  ofDecimal sg d e10 = S754_finite s m e -> 0 < d.
Proof. destruct d; simpl; try discriminate. lia. Qed.

Lemma shortestDecimal_reads (m : positive) (e : Z) :
  bounded prec emax m e = true ->
  ofDecimal false (fst (shortestDecimal m e)) (snd (shortestDecimal m e)) =
  S754_finite false m e.
Proof.
  intros B. unfold shortestDecimal.
  pose proof (ofDecimal_exact false m e B) as X.
  destruct (exactDecimal m e) as [M E]. cbn [fst snd] in X.
  destruct (shortest _ _ _ _ _ _) as [c|] eqn:S.
  - now apply shortest_reads in S.
  - exact X.
Qed.

Lemma binary_round_aux_sign (s : bool) (m e : Z) (l : location) :
  binary_round_aux prec emax s m e l =
  (if s then SFopp (binary_round_aux prec emax false m e l)
   else binary_round_aux prec emax false m e l).
Proof.
  unfold binary_round_aux.
  destruct (shr_fexp prec emax m e l) as [mrs' e'].
  destruct (shr_fexp prec emax _ e' loc_Exact) as [mrs'' e''].
  destruct (shr_m mrs''); destruct s; try reflexivity.
  destruct (e'' <=? emax - prec); reflexivity.
Qed.

Lemma ofDecimal_sign (d e10 : Z) :
  ofDecimal true d e10 = SFopp (ofDecimal false d e10).
Proof.
  unfold ofDecimal. destruct d as [|p|p]; try reflexivity.
  destruct (0 <=? e10).
  - cbn [cond_Zopp]. destruct (Z.pos p * 10 ^ e10) as [|q|q]; try reflexivity.
    + cbn [Z.opp binary_normalize]. unfold binary_round.
      destruct (shl_align _ _ _) as [mz ez].
      now rewrite binary_round_aux_sign.
    + cbn [Z.opp binary_normalize]. unfold binary_round.
      destruct (shl_align _ _ _) as [mz ez].
      rewrite (binary_round_aux_sign true).
      destruct (binary_round_aux _ _ _ _ _ _) as [[]|[]| |[] ? ?]; reflexivity.
  - unfold SFdiv. destruct (SFdiv_core_binary _ _ _ _ _ _) as [[mz ez] lz].
    cbn [xorb]. now rewrite binary_round_aux_sign.
Qed.

Lemma ofDecimal_signed (sg : bool) (d e10 : Z) (m : positive) (e : Z) :
  ofDecimal false d e10 = S754_finite false m e ->
  ofDecimal sg d e10 = S754_finite sg m e.
Proof.
  intros H. destruct sg; [|exact H]. now rewrite ofDecimal_sign, H.
Qed.

(** ** The shape of a printed number *)

Lemma forallb_zeros (j : nat) : forallb isDigit (repeat 48%N j) = true.
Proof. induction j; simpl; auto. Qed.

Lemma formatDecimal_shape (d n : Z) :
  0 < d ->
  exists ip fp ex,
    formatDecimal (digitsOfN (Z.to_N d)) n = decimalText ip fp ex
    /\ wellShaped ip fp ex.
Proof.
  intros P. set (ds := digitsOfN (Z.to_N d)).
  assert (D : forallb isDigit ds = true) by apply digitsOfN_digits.
  destruct (digitsOfN_head (Z.to_N d)) as (c & r & E & B); [lia|].
  fold ds in E. unfold formatDecimal.
  set (k := Z.of_nat (List.length ds)).
  destruct ((k <=? n) && (n <=? 21)) eqn:F1.
  { exists (ds ++ repeat 48%N (Z.to_nat (n - k))), [], [].
    split; [unfold decimalText; now rewrite !app_nil_r|].
    split; [now rewrite forallb_app, D, forallb_zeros|].
    split; [right; rewrite E; now exists c, (r ++ repeat 48%N (Z.to_nat (n - k)))|].
    split; [reflexivity | now left]. }
  destruct ((0 <? n) && (n <=? 21)) eqn:F2.
  { apply andb_true_iff in F2 as [A A']. apply Z.ltb_lt in A.
    apply andb_false_iff in F1 as [F1|F1]; [apply Z.leb_gt in F1 | congruence].
    assert (S : forallb isDigit (firstn (Z.to_nat n) ds) = true
                /\ forallb isDigit (skipn (Z.to_nat n) ds) = true).
    { rewrite <- (firstn_skipn (Z.to_nat n) ds), forallb_app in D.
      now apply andb_true_iff in D. }
    destruct S as [S1 S2].
    exists (firstn (Z.to_nat n) ds), (skipn (Z.to_nat n) ds), [].
    split.
    - unfold decimalText. rewrite app_nil_r.
      destruct (skipn (Z.to_nat n) ds) eqn:Es; [|reflexivity].
      apply (f_equal (@List.length _)) in Es. rewrite length_skipn in Es.
      simpl in Es. unfold k in F1. lia.
    - split; [exact S1|]. split; [|split; [exact S2 | now left]].
      right. rewrite E. destruct (Z.to_nat n) eqn:En; [lia|].
      now exists c, (firstn n0 r). }
  destruct ((-6 <? n) && (n <=? 0)) eqn:F3.
  { exists [48%N], (repeat 48%N (Z.to_nat (- n)) ++ ds), [].
    split.
    - unfold decimalText. rewrite app_nil_r.
      destruct (repeat 48%N (Z.to_nat (- n)) ++ ds) eqn:Es; [|reflexivity].
      apply app_eq_nil in Es as [_ Es]. rewrite E in Es. discriminate.
    - split; [reflexivity|]. split; [now left|].
      split; [rewrite forallb_app, forallb_zeros; exact D | now left]. }
  fold (exponentText (n - 1)). rewrite E in *.
  cbn [forallb] in D. apply andb_true_iff in D as [Dc Dr].
  exists [c], r, (exponentText (n - 1)).
  split.
  - unfold decimalText. now destruct r.
  - split; [cbn [forallb]; now rewrite Dc|].
    split; [right; now exists c, []|].
    split; [exact Dr | right; now exists (n - 1)].
Qed.

Lemma isDigit_numberChar (c : code_unit) : isDigit c = true -> isNumberChar c = true.
Proof. unfold isNumberChar. now intros ->. Qed.

Lemma digits_numberChars (s : jsstring) :
  forallb isDigit s = true -> forallb isNumberChar s = true.
Proof.
  induction s as [|c s IH]; cbn [forallb]; [reflexivity|].
  rewrite !andb_true_iff. intros [H1 H2]. split; [now apply isDigit_numberChar | auto].
Qed.

Lemma exponentText_chars (e : Z) : forallb isNumberChar (exponentText e) = true.
Proof.
  unfold exponentText. cbn [forallb].
  rewrite (digits_numberChars _ (digitsOfN_digits _)).
  now destruct (e <? 0).
Qed.

Lemma decimalText_chars (ip fp ex : jsstring) :
  wellShaped ip fp ex -> forallb isNumberChar (decimalText ip fp ex) = true.
Proof.
  intros (Di & _ & Df & Ex). unfold decimalText.
  assert (X : forallb isNumberChar ex = true)
    by (destruct Ex as [->|[e ->]]; [reflexivity | apply exponentText_chars]).
  rewrite !forallb_app. apply andb_true_iff. split; [|apply andb_true_iff; split].
  - exact (digits_numberChars _ Di).
  - destruct fp; [reflexivity|]. exact (digits_numberChars _ Df).
  - exact X.
Qed.

Lemma decimalText_head (ip fp ex : jsstring) :
  wellShaped ip fp ex ->
  exists c r, decimalText ip fp ex = c :: r /\ isDigit c = true.
Proof.
  intros (Di & [->|(c & r & -> & B)] & _).
  - now exists 48%N, (match fp with [] => [] | _ => 46%N :: fp end ++ ex).
  - exists c, (r ++ match fp with [] => [] | _ => 46%N :: fp end ++ ex).
    split; [reflexivity|]. cbn [forallb] in Di. now apply andb_true_iff in Di.
Qed.

Lemma validExponent_text (e : Z) : validExponent (exponentText e) = true.
Proof.
  unfold exponentText, validExponent.
  change ((101 =? 101) || (101 =? 69))%N with true. cbn [andb].
  pose proof (digitsOfN_digits (Z.to_N (Z.abs e))) as D.
  pose proof (digitsOfN_nonempty (Z.to_N (Z.abs e))) as NE.
  destruct (digitsOfN _) as [|c r]; [congruence|].
  now destruct (e <? 0).
Qed.

Lemma noDigitHead_exponent (ex : jsstring) :
  (ex = [] \/ exists e, ex = exponentText e) ->
  noDigitHead ex /\ validExponent ex = true
  /\ validFraction ex = true.
Proof.
  intros [->|[e ->]]; [repeat split|].
  pose proof (validExponent_text e) as V.
  split; [reflexivity|]. split; [exact V|]. exact V.
Qed.

Lemma validFraction_text (fp ex : jsstring) :
  forallb isDigit fp = true ->
  (ex = [] \/ exists e, ex = exponentText e) ->
  validFraction (match fp with [] => [] | _ => 46%N :: fp end ++ ex) = true.
Proof.
  intros Df Ex. destruct (noDigitHead_exponent ex Ex) as (H1 & H2 & H3).
  destruct fp as [|c fp]; [exact H3|].
  cbn [app validFraction].
  change (c :: fp ++ ex) with ((c :: fp) ++ ex).
  now rewrite (spanDigits_app _ _ Df H1).
Qed.

Lemma validNumber_unsigned (ip fp ex : jsstring) :
  wellShaped ip fp ex -> validNumber (decimalText ip fp ex) = true.
Proof.
  intros (Di & Hi & Df & Ex). unfold decimalText.
  pose proof (validFraction_text fp ex Df Ex) as VF.
  set (tail := match fp with [] => [] | _ => 46%N :: fp end ++ ex) in *.
  assert (NT : noDigitHead tail).
  { unfold tail. destruct fp; [apply noDigitHead_exponent, Ex | reflexivity]. }
  destruct Hi as [->|(c & r & -> & B)].
  - exact VF.
  - assert (S := spanDigits_app (c :: r) tail Di NT).
    assert (Dc : isDigit c = true)
      by (cbn [forallb] in Di; now apply andb_true_iff in Di).
    unfold validNumber. cbn [app] in *.
    assert (C : (c = 49 \/ c = 50 \/ c = 51 \/ c = 52 \/ c = 53 \/ c = 54
                 \/ c = 55 \/ c = 56 \/ c = 57)%N) by lia.
    destruct C as [->|[->|[->|[->|[->|[->|[->|[->| ->]]]]]]]];
      cbv beta iota; rewrite S; exact VF.
Qed.

Lemma validNumber_signed (ip fp ex : jsstring) :
  wellShaped ip fp ex -> validNumber (45%N :: decimalText ip fp ex) = true.
Proof.
  intros W. pose proof (validNumber_unsigned ip fp ex W) as V.
  destruct (decimalText_head ip fp ex W) as (c & r & E & D).
  rewrite E in *. unfold isDigit in D.
  apply andb_true_iff in D as [D1 D2]. apply N.leb_le in D1, D2.
  assert (C : (c = 48 \/ c = 49 \/ c = 50 \/ c = 51 \/ c = 52 \/ c = 53
               \/ c = 54 \/ c = 55 \/ c = 56 \/ c = 57)%N) by lia.
  destruct C as [->|[->|[->|[->|[->|[->|[->|[->|[->| ->]]]]]]]]]; exact V.
Qed.

(** ** [Number(String(x))] *)

Lemma trimStart_id (c : code_unit) (t : jsstring) :
  isWhiteSpace c = false -> trimStart (c :: t) = c :: t.
Proof. intros H. simpl. now rewrite H. Qed.

Lemma trimEnd_id (t : jsstring) :
  forallb (fun c => negb (isWhiteSpace c)) t = true -> trimEnd t = t.
Proof.
  induction t as [|c t IH]; cbn [forallb trimEnd]; [reflexivity|].
  rewrite andb_true_iff, negb_true_iff. intros [Hc Ht].
  rewrite (IH Ht), Hc. now destruct t.
Qed.

Lemma trim_id (t : jsstring) :
  forallb (fun c => negb (isWhiteSpace c)) t = true -> trim t = t.
Proof.
  intros H. unfold trim. destruct t as [|c t]; [reflexivity|].
  pose proof H as H'. cbn [forallb] in H'.
  apply andb_true_iff in H' as [Hc _]. apply negb_true_iff in Hc.
  rewrite (trimStart_id c t Hc). now apply trimEnd_id.
Qed.

Lemma numberChar_cases (c : code_unit) :
  isNumberChar c = true ->
  ((48 <= c <= 57) \/ c = 43 \/ c = 45 \/ c = 46 \/ c = 101 \/ c = 69)%N.
Proof.
  unfold isNumberChar, isDigit.
  rewrite !orb_true_iff, andb_true_iff, !N.leb_le, !N.eqb_eq. tauto.
Qed.

Lemma numberChar_not_space (c : code_unit) :
  isNumberChar c = true -> isWhiteSpace c = false.
Proof.
  intros H. apply numberChar_cases in H. unfold isWhiteSpace.
  repeat (apply orb_false_iff; split);
    try (apply N.eqb_neq; lia);
    apply andb_false_iff; rewrite !N.leb_gt; lia.
Qed.

Lemma numberChars_trim (t : jsstring) :
  forallb isNumberChar t = true -> trim t = t.
Proof.
  intros H. apply trim_id. rewrite forallb_forall in *.
  intros c Hc. apply negb_true_iff, numberChar_not_space. auto.
Qed.

Lemma nonDecimal_numberChars (t : jsstring) :
  forallb isNumberChar t = true -> nonDecimal t = None.
Proof.
  destruct t as [|c [|p [|q r]]]; cbn [forallb]; intros H.
  - reflexivity.
  - destruct c as [|c]; [reflexivity|].
    do 6 (destruct c as [c|c|]; try reflexivity).
  - destruct c as [|c]; [reflexivity|].
    do 6 (destruct c as [c|c|]; try reflexivity).
  - apply andb_true_iff in H as [_ H]. apply andb_true_iff in H as [Hp _].
    apply numberChar_cases in Hp.
    assert (B : ((if (p =? 120) || (p =? 88) then Some 16
                  else if (p =? 111) || (p =? 79) then Some 8
                  else if (p =? 98) || (p =? 66) then Some 2
                  else None) = None)%N).
    { assert (E1 : ((p =? 120) || (p =? 88) = false)%N)
        by (apply orb_false_iff; split; apply N.eqb_neq; lia).
      assert (E2 : ((p =? 111) || (p =? 79) = false)%N)
        by (apply orb_false_iff; split; apply N.eqb_neq; lia).
      assert (E3 : ((p =? 98) || (p =? 66) = false)%N)
        by (apply orb_false_iff; split; apply N.eqb_neq; lia).
      now rewrite E1, E2, E3. }
    destruct c as [|c]; [reflexivity|].
    do 6 (destruct c as [c|c|]; try reflexivity).
    unfold nonDecimal. now rewrite B.
Qed.

Lemma toString_finite_shape (s : bool) (m : positive) (e : Z) :
  bounded prec emax m e = true ->
  exists ip fp ex,
    Number_toString (S754_finite s m e) =
      (if s then [45%N] else []) ++ decimalText ip fp ex
    /\ wellShaped ip fp ex
    /\ unsignedDecimal s (decimalText ip fp ex) = S754_finite s m e.
Proof.
  intros B. pose proof (shortestDecimal_reads m e B) as R.
  unfold Number_toString. destruct (shortestDecimal m e) as [d e10].
  cbn [fst snd] in R.
  pose proof (ofDecimal_finite_pos _ _ _ _ _ _ R) as P.
  destruct (formatDecimal_shape d (e10 + Z.of_nat (List.length (digitsOfN (Z.to_N d)))) P)
    as (ip & fp & ex & E & W).
  exists ip, fp, ex. split; [now rewrite E|]. split; [exact W|].
  rewrite <- E, formatDecimal_reads by exact P.
  now apply ofDecimal_signed.
Qed.

Lemma StringToNumber_decimalText (s : bool) (ip fp ex : jsstring) :
  wellShaped ip fp ex ->
  StringToNumber ((if s then [45%N] else []) ++ decimalText ip fp ex) =
  unsignedDecimal s (decimalText ip fp ex).
Proof.
  intros W. pose proof (decimalText_chars ip fp ex W) as C.
  destruct (decimalText_head ip fp ex W) as (c & r & E & D).
  unfold StringToNumber. destruct s; cbn [app].
  - assert (C' : forallb isNumberChar (45%N :: decimalText ip fp ex) = true)
      by (cbn [forallb]; now rewrite C).
    rewrite (numberChars_trim _ C'). cbv beta iota.
    match goal with
    | |- context [nonDecimal ?t] =>
        replace (nonDecimal t) with (@None number)
          by (symmetry; exact (nonDecimal_numberChars _ C'))
    end.
    reflexivity.
  - rewrite (numberChars_trim _ C). rewrite E in *. cbv beta iota.
    match goal with
    | |- context [nonDecimal ?t] =>
        replace (nonDecimal t) with (@None number)
          by (symmetry; exact (nonDecimal_numberChars _ C))
    end.
    unfold isDigit in D. apply andb_true_iff in D as [D1 D2].
    apply N.leb_le in D1, D2.
    assert (N1 : ((c =? 43) = false)%N) by (apply N.eqb_neq; lia).
    assert (N2 : ((c =? 45) = false)%N) by (apply N.eqb_neq; lia).
    now rewrite N1, N2.
Qed.

(** Printing a finite number and reading the text gives the number back,
    the negative zero as the positive zero. *)
Lemma StringToNumber_toString (x : number) :
  valid_binary prec emax x = true -> isFinite x = true ->
  StringToNumber (Number_toString x) = positiveZero x.
Proof.
  destruct x as [s|s| |s m e]; try discriminate; intros V _.
  - reflexivity.
  - destruct (toString_finite_shape s m e V) as (ip & fp & ex & E & W & R).
    now rewrite E, StringToNumber_decimalText.
Qed.

End JSONFacts.

(* ================================================================== *)
(** * Rounding: representable results and their accuracy *)
(* ================================================================== *)

Module RoundingFacts.
Import JSString JSNumber Rounding JSON JSONFacts Intl Wallet.

(** ** Binary digits and shifts *)

(** ** Validity of rounded results *)

Lemma Zdigits2_bounds (m : Z) :
  0 < m -> 2 ^ (Zdigits2 m - 1) <= m < 2 ^ Zdigits2 m.
Proof. destruct m as [|p|p]; try lia. intros _. apply digits2_bounds. Qed.

Lemma Zdigits2_nonneg (m : Z) : 0 <= Zdigits2 m.
Proof. destruct m; simpl; lia. Qed.

Lemma Zdigits2_pos (m : Z) : 0 < m -> 0 < Zdigits2 m.
Proof. destruct m; simpl; lia. Qed.

Lemma Zdigits2_unique (m k : Z) :
  0 < m -> 2 ^ (k - 1) <= m < 2 ^ k -> Zdigits2 m = k.
Proof.
  intros P [L U]. pose proof (Zdigits2_bounds m P) as [L' U'].
  pose proof (Zdigits2_pos m P) as D.
  assert (K : 0 < k).
  { destruct (Z_lt_le_dec 0 k); [assumption|].
    assert (2 ^ k <= 2 ^ 0) by (apply Z.pow_le_mono_r; lia).
    simpl in *. lia. }
  assert (A : Zdigits2 m - 1 < k).
  { apply (Z.pow_lt_mono_r_iff 2); lia. }
  assert (B : k - 1 < Zdigits2 m).
  { apply (Z.pow_lt_mono_r_iff 2); lia. }
  lia.
Qed.

Lemma Zdigits2_mono (a b : Z) : 0 <= a <= b -> Zdigits2 a <= Zdigits2 b.
Proof.
  intros [A B]. destruct (Z.eq_dec a 0) as [->|N].
  - apply Zdigits2_nonneg.
  - assert (Pa : 0 < a) by lia. assert (Pb : 0 < b) by lia.
    pose proof (Zdigits2_bounds a Pa) as [La Ua].
    pose proof (Zdigits2_bounds b Pb) as [Lb Ub].
    pose proof (Zdigits2_pos a Pa). pose proof (Zdigits2_pos b Pb).
    assert (Zdigits2 a - 1 < Zdigits2 b).
    { apply (Z.pow_lt_mono_r_iff 2); lia. }
    lia.
Qed.

Lemma Zdigits2_shiftr (m n : Z) :
  0 < m -> 0 <= n < Zdigits2 m -> Zdigits2 (m / 2 ^ n) = Zdigits2 m - n.
Proof.
  intros P [N0 N1]. pose proof (Zdigits2_bounds m P) as [L U].
  assert (P2 : 0 < 2 ^ n) by (apply Z.pow_pos_nonneg; lia).
  assert (Lq : 2 ^ (Zdigits2 m - n - 1) <= m / 2 ^ n).
  { apply Z.div_le_lower_bound; [lia|].
    rewrite <- Z.pow_add_r by lia.
    replace (n + (Zdigits2 m - n - 1)) with (Zdigits2 m - 1) by lia. exact L. }
  assert (Uq : m / 2 ^ n < 2 ^ (Zdigits2 m - n)).
  { apply Z.div_lt_upper_bound; [lia|].
    rewrite <- Z.pow_add_r by lia.
    replace (n + (Zdigits2 m - n)) with (Zdigits2 m) by lia. exact U. }
  apply Zdigits2_unique; [|split; assumption].
  assert (0 < 2 ^ (Zdigits2 m - n - 1)) by (apply Z.pow_pos_nonneg; lia). lia.
Qed.

Lemma shiftr_small (m n : Z) :
  0 <= m -> Zdigits2 m <= n -> m / 2 ^ n = 0.
Proof.
  intros P N. destruct (Z.eq_dec m 0) as [->|NZ]; [apply Z.div_0_l|].
  - pose proof (Zdigits2_nonneg 0). assert (0 < 2 ^ n) by (apply Z.pow_pos_nonneg; simpl in *; lia). lia.
  - assert (Pm : 0 < m) by lia. pose proof (Zdigits2_bounds m Pm) as [_ U].
    pose proof (Zdigits2_pos m Pm).
    apply Z.div_small. split; [lia|].
    apply Z.lt_le_trans with (2 ^ Zdigits2 m); [exact U|].
    apply Z.pow_le_mono_r; lia.
Qed.

Lemma shr_1_m (mrs : shr_record) :
  0 <= shr_m mrs -> shr_m (shr_1 mrs) = Z.div2 (shr_m mrs).
Proof.
  destruct mrs as [m r s]. cbn [shr_m].
  destruct m as [|[p|p|]|p]; try reflexivity; lia.
Qed.

Lemma shr_1_nonneg (mrs : shr_record) :
  0 <= shr_m mrs -> 0 <= shr_m (shr_1 mrs).
Proof.
  destruct mrs as [m r s]. cbn [shr_m].
  destruct m as [|[p|p|]|p]; simpl; lia.
Qed.

Lemma iter_shr_m (n : positive) (mrs : shr_record) :
  0 <= shr_m mrs ->
  shr_m (iter_pos shr_1 n mrs) = shr_m mrs / 2 ^ Zpos n
  /\ 0 <= shr_m (iter_pos shr_1 n mrs).
Proof.
  rewrite iter_pos_iter. revert mrs.
  induction n as [|n IH] using Pos.peano_ind; intros mrs P.
  - cbn [Pos.iter]. split; [|now apply shr_1_nonneg].
    rewrite shr_1_m by exact P. rewrite Z.div2_div. reflexivity.
  - rewrite Pos.iter_succ.
    destruct (IH mrs P) as [E N]. split; [|now apply shr_1_nonneg].
    rewrite shr_1_m by exact N. rewrite E, Z.div2_div, Pos2Z.inj_succ.
    rewrite Z.pow_succ_r by lia. rewrite Z.div_div by (try apply Z.pow_pos_nonneg; lia).
    f_equal. lia.
Qed.

Lemma shr_record_of_loc_m (m : Z) (l : location) :
  shr_m (shr_record_of_loc m l) = m.
Proof. destruct l as [|[]]; reflexivity. Qed.

(** ** Every result is a binary64 value *)

Lemma fexp64_eq (x : Z) : fexp prec emax x = Z.max (x - 53) (-1074).
Proof. reflexivity. Qed.

Lemma shr_fexp_spec (m e : Z) (l : location) :
  0 <= m -> e <= fexp prec emax (Zdigits2 m + e) ->
  exists mrs e',
    shr_fexp prec emax m e l = (mrs, e')
    /\ e' = fexp prec emax (Zdigits2 m + e)
    /\ 0 <= shr_m mrs <= m
    /\ (shr_m mrs = 0 -> e' = -1074)
    /\ (0 < shr_m mrs -> fexp prec emax (Zdigits2 (shr_m mrs) + e') = e').
Proof.
  intros M E. unfold shr_fexp, shr.
  remember (fexp prec emax (Zdigits2 m + e)) as t eqn:T.
  pose proof (Zdigits2_nonneg m) as D.
  destruct (t - e) as [|n|n] eqn:N; try lia.
  - exists (shr_record_of_loc m l), e.
    rewrite shr_record_of_loc_m. assert (t = e) by lia. subst t.
    repeat split; try lia.
    intros ->. simpl in *. rewrite fexp64_eq in *. lia.
  - destruct (iter_shr_m n (shr_record_of_loc m l)) as [Q P].
    { rewrite shr_record_of_loc_m. exact M. }
    rewrite shr_record_of_loc_m in Q.
    exists (iter_pos shr_1 n (shr_record_of_loc m l)), (e + Zpos n).
    assert (P2 : 0 < 2 ^ Zpos n) by (apply Z.pow_pos_nonneg; lia).
    repeat split; try lia.
    + rewrite Q. apply Z.div_le_upper_bound; [lia|]. nia.
    + intros Z0. rewrite fexp64_eq in T.
      destruct (Z_lt_le_dec (Zpos n) (Zdigits2 m)) as [Lt|Ge]; [|lia].
      exfalso. destruct (Z.eq_dec m 0) as [->|NZ]; [simpl in *; lia|].
      pose proof (Zdigits2_shiftr m (Zpos n) ltac:(lia) ltac:(lia)) as S.
      rewrite <- Q, Z0 in S. simpl in S. lia.
    + intros Pq.
      destruct (Z_lt_le_dec (Zpos n) (Zdigits2 m)) as [Lt|Ge].
      * destruct (Z.eq_dec m 0) as [->|NZ]; [simpl in *; lia|].
        rewrite Q, Zdigits2_shiftr by lia.
        replace (Zdigits2 m - Zpos n + (e + Zpos n)) with (Zdigits2 m + e) by lia.
        lia.
      * rewrite Q, shiftr_small in Pq by lia. lia.
Qed.

Lemma round_nearest_even_bounds (m : Z) (l : location) :
  m <= round_nearest_even m l <= m + 1.
Proof.
  unfold round_nearest_even.
  destruct l as [|[]]; try destruct (Z.even m); lia.
Qed.

Lemma valid_finite (s : bool) (m : positive) (e : Z) :
  fexp prec emax (Zdigits2 (Zpos m) + e) = e -> e <= emax - prec ->
  valid_binary prec emax (S754_finite s m e) = true.
Proof.
  intros C B. cbn [valid_binary]. unfold bounded, canonical_mantissa.
  apply andb_true_iff. split.
  - apply Z.eqb_eq. exact C.
  - apply Z.leb_le. exact B.
Qed.

Lemma binary_round_aux_valid (s : bool) (m e : Z) (l : location) :
  0 <= m -> e <= fexp prec emax (Zdigits2 m + e) ->
  valid_binary prec emax (binary_round_aux prec emax s m e l) = true.
Proof.
  intros M E. unfold binary_round_aux.
  destruct (shr_fexp_spec m e l M E) as (mrs & e1 & -> & E1 & [M1 _] & Z1 & C1).
  cbv zeta. cbv beta iota.
  pose proof (round_nearest_even_bounds (shr_m mrs) (loc_of_shr_record mrs)) as R.
  set (m2 := round_nearest_even (shr_m mrs) (loc_of_shr_record mrs)) in *.
  assert (E2 : e1 <= fexp prec emax (Zdigits2 m2 + e1)).
  { destruct (Z.eq_dec (shr_m mrs) 0) as [Zm|NZ].
    - rewrite (Z1 Zm), fexp64_eq. lia.
    - rewrite <- (C1 ltac:(lia)) at 1. apply fexp_mono.
      pose proof (Zdigits2_mono (shr_m mrs) m2 ltac:(lia)). lia. }
  destruct (shr_fexp_spec m2 e1 loc_Exact ltac:(lia) E2)
    as (mrs2 & e2 & -> & _ & [M2 _] & _ & C2).
  destruct (shr_m mrs2) as [|p|p] eqn:P; try reflexivity; try lia.
  destruct (e2 <=? emax - prec) eqn:B; [|reflexivity].
  apply valid_finite; [apply C2; lia|]. apply Z.leb_le. exact B.
Qed.

Lemma Zdigits2_mul_pow2 (m n : Z) :
  0 < m -> 0 <= n -> Zdigits2 (m * 2 ^ n) = Zdigits2 m + n.
Proof.
  intros M N. pose proof (Zdigits2_bounds m M) as [L U].
  pose proof (Zdigits2_pos m M) as D.
  assert (P : 0 < 2 ^ n) by (apply Z.pow_pos_nonneg; lia).
  apply Zdigits2_unique; [nia|].
  replace (Zdigits2 m + n - 1) with (Zdigits2 m - 1 + n) by lia.
  rewrite !Z.pow_add_r by lia. nia.
Qed.

Lemma Zdigits2_mul_ge (a b : Z) :
  0 < a -> 0 < b -> Zdigits2 a + Zdigits2 b - 1 <= Zdigits2 (a * b).
Proof.
  intros A B.
  pose proof (Zdigits2_bounds a A) as [La _].
  pose proof (Zdigits2_bounds b B) as [Lb _].
  pose proof (Zdigits2_pos a A). pose proof (Zdigits2_pos b B).
  assert (P : 0 < a * b) by nia.
  pose proof (Zdigits2_bounds (a * b) P) as [_ U].
  assert (Q : 2 ^ (Zdigits2 a - 1 + (Zdigits2 b - 1)) < 2 ^ Zdigits2 (a * b)).
  { rewrite Z.pow_add_r by lia.
    assert (0 < 2 ^ (Zdigits2 a - 1)) by (apply Z.pow_pos_nonneg; lia).
    assert (0 < 2 ^ (Zdigits2 b - 1)) by (apply Z.pow_pos_nonneg; lia).
    nia. }
  apply Z.pow_lt_mono_r_iff in Q; [lia|lia|].
  pose proof (Zdigits2_pos (a * b) P). lia.
Qed.

Lemma Zdigits2_div_ge (a b : Z) :
  0 < a -> 0 < b -> Zdigits2 a - Zdigits2 b <= Zdigits2 (a / b).
Proof.
  intros A B.
  pose proof (Zdigits2_bounds a A) as [La _].
  pose proof (Zdigits2_bounds b B) as [_ Ub].
  pose proof (Zdigits2_pos a A). pose proof (Zdigits2_pos b B).
  assert (Q0 : 0 <= a / b) by (apply Z.div_pos; lia).
  pose proof (Zdigits2_nonneg (a / b)) as Dq.
  assert (Uq : a / b + 1 <= 2 ^ Zdigits2 (a / b)).
  { destruct (Z.eq_dec (a / b) 0) as [->|NZ]; [simpl; lia|].
    pose proof (Zdigits2_bounds (a / b) ltac:(lia)). lia. }
  assert (Lt : a < b * (a / b + 1)).
  { pose proof (Z.mul_succ_div_gt a b B). lia. }
  assert (Q : 2 ^ (Zdigits2 a - 1) < 2 ^ (Zdigits2 b + Zdigits2 (a / b))).
  { rewrite Z.pow_add_r by lia.
    assert (0 < 2 ^ Zdigits2 (a / b)) by (apply Z.pow_pos_nonneg; lia).
    nia. }
  apply Z.pow_lt_mono_r_iff in Q; lia.
Qed.

Lemma valid_finite_inv (s : bool) (m : positive) (e : Z) :
  valid_binary prec emax (S754_finite s m e) = true ->
  Zdigits2 (Zpos m) <= 53 /\ -1074 <= e <= 971
  /\ (Zdigits2 (Zpos m) = 53 \/ e = -1074).
Proof.
  intros V. apply bounded_canonical in V as [C B].
  change (Zpos (digits2_pos m)) with (Zdigits2 (Zpos m)) in C.
  rewrite fexp64_eq in C. change (emax - prec) with 971 in B. lia.
Qed.

(** The product of two representable numbers is representable. *)
Lemma mul_valid (x y : number) :
  valid_binary prec emax x = true -> valid_binary prec emax y = true ->
  valid_binary prec emax (mul x y) = true.
Proof.
  destruct x as [sx|sx| |sx mx ex], y as [sy|sy| |sy my ey];
    try reflexivity.
  intros Vx Vy. unfold mul, SFmul.
  apply binary_round_aux_valid; [lia|].
  apply valid_finite_inv in Vx, Vy.
  pose proof (Zdigits2_mul_ge (Zpos mx) (Zpos my) ltac:(lia) ltac:(lia)) as G.
  rewrite <- Pos2Z.inj_mul in G.
  pose proof (Zdigits2_pos (Zpos mx) ltac:(lia)).
  pose proof (Zdigits2_pos (Zpos my) ltac:(lia)).
  rewrite fexp64_eq. lia.
Qed.

Lemma SFdiv_core_binary_spec (m1 m2 : positive) (e1 e2 : Z) :
  exists q e l,
    SFdiv_core_binary prec emax (Zpos m1) e1 (Zpos m2) e2 = (q, e, l)
    /\ 0 <= q /\ e <= fexp prec emax (Zdigits2 q + e).
Proof.
  unfold SFdiv_core_binary.
  set (d1 := Zdigits2 (Zpos m1)). set (d2 := Zdigits2 (Zpos m2)).
  set (e' := Z.min (fexp prec emax (d1 + e1 - (d2 + e2))) (e1 - e2)).
  assert (S0 : 0 <= e1 - e2 - e') by (unfold e'; lia).
  set (m' := match e1 - e2 - e' with
             | Zpos _ => Z.shiftl (Zpos m1) (e1 - e2 - e')
             | Z0 => Zpos m1 | Zneg _ => 0 end).
  assert (M' : m' = Zpos m1 * 2 ^ (e1 - e2 - e')).
  { unfold m'. destruct (e1 - e2 - e') as [|s|s] eqn:S; try lia.
    rewrite Z.shiftl_mul_pow2 by lia. reflexivity. }
  cbv zeta. fold d1 d2 e' m'.
  change IntDef.Z.div_eucl with Z.div_eucl.
  destruct (Z.div_eucl m' (Zpos m2)) as [q r] eqn:DE.
  eexists q, e', _.
  assert (Q : q = m' / Zpos m2) by (unfold Z.div; now rewrite DE).
  assert (P' : 0 < m').
  { rewrite M'. assert (0 < 2 ^ (e1 - e2 - e')) by (apply Z.pow_pos_nonneg; lia). nia. }
  split; [reflexivity|]. split.
  - rewrite Q. apply Z.div_pos; lia.
  - pose proof (Zdigits2_div_ge m' (Zpos m2) P' ltac:(lia)) as G.
    rewrite <- Q in G. rewrite M', Zdigits2_mul_pow2 in G by lia.
    fold d1 d2 in G.
    apply Z.le_trans with (fexp prec emax (d1 + e1 - (d2 + e2))); [unfold e'; lia|].
    apply fexp_mono. lia.
Qed.

(** A quotient is representable whatever the operands. *)
Lemma div_valid (x y : number) : valid_binary prec emax (div x y) = true.
Proof.
  destruct x as [sx|sx| |sx mx ex], y as [sy|sy| |sy my ey];
    try reflexivity.
  unfold div, SFdiv.
  destruct (SFdiv_core_binary_spec mx my ex ey) as (q & e & l & -> & Q & E).
  apply binary_round_aux_valid; assumption.
Qed.

Lemma binary_round_valid (s : bool) (m : positive) (e : Z) :
  valid_binary prec emax (binary_round prec emax s m e) = true.
Proof.
  unfold binary_round, shl_align.
  destruct (fexp prec emax (Zpos (digits2_pos m) + e) - e) as [|d|d] eqn:D.
  - apply binary_round_aux_valid; [lia|]. simpl Zdigits2. lia.
  - apply binary_round_aux_valid; [lia|]. simpl Zdigits2. lia.
  - apply binary_round_aux_valid; [lia|]. simpl Zdigits2.
    rewrite digits2_iter_xO, Pos2Z.inj_add.
    replace (Zpos (digits2_pos m) + Zpos d + fexp prec emax (Zpos (digits2_pos m) + e))
      with (Zpos (digits2_pos m) + e) by lia.
    lia.
Qed.

Lemma binary_normalize_valid (m e : Z) (s : bool) :
  valid_binary prec emax (binary_normalize prec emax m e s) = true.
Proof. destruct m; [reflexivity| |]; apply binary_round_valid. Qed.

Lemma ofZ_valid (n : Z) : valid_binary prec emax (ofZ n) = true.
Proof. apply binary_normalize_valid. Qed.

Lemma ofDecimal_valid (s : bool) (m e : Z) :
  valid_binary prec emax (ofDecimal s m e) = true.
Proof.
  unfold ofDecimal. destruct m; try reflexivity.
  destruct (0 <=? e); [apply binary_normalize_valid|apply div_valid].
Qed.

Lemma Math_round_valid (x : number) :
  valid_binary prec emax x = true ->
  valid_binary prec emax (Math_round x) = true.
Proof.
  destruct x as [s|s| |s m e]; try (intros; reflexivity).
  intros V. unfold Math_round. destruct (0 <=? e); [exact V|].
  apply binary_normalize_valid.
Qed.

Lemma unsignedDecimal_valid (sg : bool) (s : jsstring) :
  valid_binary prec emax (unsignedDecimal sg s) = true.
Proof.
  unfold unsignedDecimal. destruct (JSString.eqb s _); [reflexivity|].
  destruct (spanDigits s) as [ip r].
  destruct (match r with 46%N :: r1 => _ | _ => _ end) as [[fp r'] dot].
  destruct ip, fp; try reflexivity;
    destruct (exponentPart r'); try reflexivity; apply ofDecimal_valid.
Qed.

Lemma nonDecimal_valid (s : jsstring) (x : number) :
  nonDecimal s = Some x -> valid_binary prec emax x = true.
Proof.
  unfold nonDecimal. destruct s as [|c [|p [|d ds]]]; try discriminate;
    try (destruct c as [|c]; [discriminate|]; 
         do 7 (try (destruct c as [c|c|]; try discriminate)); fail).
  destruct c as [|c]; [discriminate|].
  do 7 (try (destruct c as [c|c|]; try discriminate)).
  destruct (if _ : bool then _ else _) as [b|]; [|discriminate].
  destruct (digitsValue b 0 (d :: ds)); intros [= <-]; [apply ofZ_valid|reflexivity].
Qed.

(** Every result of [Number(s)] is a binary64 value. *)
Lemma StringToNumber_valid (s : jsstring) :
  valid_binary prec emax (StringToNumber s) = true.
Proof.
  unfold StringToNumber. destruct (trim s) as [|c s']; [reflexivity|].
  destruct (nonDecimal (c :: s')) eqn:N; [exact (nonDecimal_valid _ _ N)|].
  destruct (c =? 43)%N; [apply unsignedDecimal_valid|].
  destruct (c =? 45)%N; apply unsignedDecimal_valid.
Qed.

(** ** The place of the exact value *)

Lemma locate_unique (a b q r : Z) :
  0 <= r < b -> a = b * q + r ->
  locate a b = (q, if r =? 0 then loc_Exact else loc_Inexact (2 * r ?= b)).
Proof.
  intros R E. unfold locate.
  rewrite <- (Z.div_unique_pos a b q r R E), <- (Z.mod_unique_pos a b q r R E).
  reflexivity.
Qed.

Lemma new_location_locate (a b : Z) :
  0 < b -> new_location b (a mod b) = snd (locate a b).
Proof.
  intros B. unfold locate, new_location, new_location_even, new_location_odd.
  cbn [snd]. pose proof (Z.mod_pos_bound a b B) as R.
  destruct (Z.even b) eqn:Ev; [reflexivity|].
  destruct (a mod b =? 0); [reflexivity|]. f_equal.
  assert (O : Z.odd b = true) by (rewrite <- Z.negb_even, Ev; reflexivity).
  apply Z.odd_spec in O as [k ->].
  destruct (2 * (a mod (2 * k + 1)) + 1 ?= 2 * k + 1) eqn:C1;
    destruct (2 * (a mod (2 * k + 1)) ?= 2 * k + 1) eqn:C2;
    try reflexivity;
    rewrite ?Z.compare_eq_iff, ?Z.compare_lt_iff, ?Z.compare_gt_iff in *; lia.
Qed.

Lemma shr_1_locate (a b : Z) :
  0 <= a -> 0 < b ->
  shr_1 (recordOf (locate a b)) = recordOf (locate a (2 * b)).
Proof.
  intros A B.
  pose proof (Z.div_mod a b ltac:(lia)) as E.
  pose proof (Z.mod_pos_bound a b B) as R.
  assert (Q : 0 <= a / b) by (apply Z.div_pos; lia).
  set (q := a / b) in *. set (r := a mod b) in *.
  assert (L1 : locate a b = (q, if r =? 0 then loc_Exact else loc_Inexact (2 * r ?= b)))
    by reflexivity.
  rewrite L1.
  assert (L2 : forall q' t, q = 2 * q' + t -> 0 <= t <= 1 ->
            locate a (2 * b) =
            (q', if t * b + r =? 0 then loc_Exact
                 else loc_Inexact (2 * (t * b + r) ?= 2 * b))).
  { intros q' t Eq T. apply locate_unique; nia. }
  unfold recordOf. cbn [fst snd].
  destruct q as [|[p|p|]|p]; try lia.
  - rewrite (L2 0 0) by lia. cbn [fst snd]. rewrite Z.mul_0_l, Z.add_0_l.
    destruct (r =? 0) eqn:R0; [reflexivity|].
    apply Z.eqb_neq in R0.
    assert (C : (2 * r ?= 2 * b) = Lt) by (apply Z.compare_lt_iff; lia).
    rewrite C. destruct (2 * r ?= b); reflexivity.
  - rewrite (L2 (Zpos p) 1) by lia. cbn [fst snd]. rewrite Z.mul_1_l.
    destruct (r =? 0) eqn:R0.
    + apply Z.eqb_eq in R0. rewrite R0, Z.add_0_r.
      assert (N : (b =? 0) = false) by (apply Z.eqb_neq; lia).
      assert (C : (2 * b ?= 2 * b) = Eq) by apply Z.compare_refl.
      rewrite N, C. reflexivity.
    + apply Z.eqb_neq in R0.
      assert (N : (b + r =? 0) = false) by (apply Z.eqb_neq; lia).
      assert (C : (2 * (b + r) ?= 2 * b) = Gt) by (apply Z.compare_gt_iff; lia).
      rewrite N, C. destruct (2 * r ?= b); reflexivity.
  - rewrite (L2 (Zpos p) 0) by lia. cbn [fst snd]. rewrite Z.mul_0_l, Z.add_0_l.
    destruct (r =? 0) eqn:R0; [reflexivity|].
    apply Z.eqb_neq in R0.
    assert (C : (2 * r ?= 2 * b) = Lt) by (apply Z.compare_lt_iff; lia).
    rewrite C. destruct (2 * r ?= b); reflexivity.
  - rewrite (L2 0 1) by lia. cbn [fst snd]. rewrite Z.mul_1_l.
    destruct (r =? 0) eqn:R0.
    + apply Z.eqb_eq in R0. rewrite R0, Z.add_0_r.
      assert (N : (b =? 0) = false) by (apply Z.eqb_neq; lia).
      assert (C : (2 * b ?= 2 * b) = Eq) by apply Z.compare_refl.
      rewrite N, C. reflexivity.
    + apply Z.eqb_neq in R0.
      assert (N : (b + r =? 0) = false) by (apply Z.eqb_neq; lia).
      assert (C : (2 * (b + r) ?= 2 * b) = Gt) by (apply Z.compare_gt_iff; lia).
      rewrite N, C. destruct (2 * r ?= b); reflexivity.
Qed.

Lemma iter_shr_locate (n : positive) (a b : Z) :
  0 <= a -> 0 < b ->
  iter_pos shr_1 n (recordOf (locate a b)) =
  recordOf (locate a (b * 2 ^ Zpos n)).
Proof.
  intros A B. rewrite iter_pos_iter.
  induction n as [|n IH] using Pos.peano_ind.
  - cbn [Pos.iter]. rewrite shr_1_locate by assumption.
    do 2 f_equal. lia.
  - rewrite Pos.iter_succ, IH.
    assert (0 < 2 ^ Zpos n) by (apply Z.pow_pos_nonneg; lia).
    rewrite shr_1_locate by nia.
    do 2 f_equal. rewrite Pos2Z.inj_succ, Z.pow_succ_r by lia. lia.
Qed.

Lemma recordOf_loc (ml : Z * location) :
  shr_m (recordOf ml) = fst ml /\ loc_of_shr_record (recordOf ml) = snd ml.
Proof. destruct ml as [m [|[]]]; split; reflexivity. Qed.

(** Shifting to the exponent of the format keeps track of the place of
    the exact value. *)
Lemma shr_fexp_locate (a b e : Z) :
  0 <= a -> 0 < b ->
  let m := a / b in
  let E := fexp prec emax (Zdigits2 m + e) in
  e <= E ->
  shr_fexp prec emax m e (snd (locate a b)) =
  (recordOf (locate a (b * 2 ^ (E - e))), E).
Proof.
  intros A B m E L. unfold shr_fexp, shr. fold m E.
  change (shr_record_of_loc m (snd (locate a b))) with (recordOf (locate a b)).
  destruct (E - e) as [|n|n] eqn:N; try lia.
  - rewrite Z.pow_0_r, Z.mul_1_r. f_equal. lia.
  - rewrite iter_shr_locate by assumption. f_equal. lia.
Qed.

Lemma round_nearest_even_locate (a b : Z) :
  0 < b ->
  let M := round_nearest_even (fst (locate a b)) (snd (locate a b)) in
  a / b <= M <= a / b + 1 /\ - b <= 2 * (M * b - a) <= b.
Proof.
  intros B M.
  pose proof (Z.div_mod a b ltac:(lia)) as E.
  pose proof (Z.mod_pos_bound a b B) as R.
  unfold M, locate, round_nearest_even. cbn [fst snd].
  destruct (a mod b =? 0) eqn:R0.
  - apply Z.eqb_eq in R0. nia.
  - apply Z.eqb_neq in R0.
    destruct (2 * (a mod b) ?= b) eqn:C;
      rewrite ?Z.compare_eq_iff, ?Z.compare_lt_iff, ?Z.compare_gt_iff in C;
      try destruct (Z.even (a / b)); nia.
Qed.

Lemma Zdigits2_53 (m : Z) : 2 ^ 52 <= m < 2 ^ 53 -> Zdigits2 m = 53.
Proof. intros H. apply Zdigits2_unique; [lia|exact H]. Qed.

(** In the normal range the rounded result is a 53-bit mantissa within
    half a unit in the last place of the exact value [a / b * 2^e]. *)
Lemma binary_round_aux_near (s : bool) (a b e : Z) :
  0 <= a -> 0 < b ->
  53 <= Zdigits2 (a / b) -> -1074 <= Zdigits2 (a / b) + e - 53 ->
  exists (M : positive) (E : Z),
    2 ^ 52 <= Zpos M < 2 ^ 53
    /\ (E = e + Zdigits2 (a / b) - 53 \/ E = e + Zdigits2 (a / b) - 52)
    /\ - (b * 2 ^ (E - e)) <= 2 * (Zpos M * (b * 2 ^ (E - e)) - a)
       <= b * 2 ^ (E - e)
    /\ binary_round_aux prec emax s (a / b) e (snd (locate a b)) =
       if E <=? 971 then S754_finite s M E else S754_infinity s.
Proof.
  intros A B D R.
  assert (Pm : 0 < a / b).
  { pose proof (Z.div_pos a b A B). destruct (a / b); simpl in D; lia. }
  set (m := a / b) in *. set (n := Zdigits2 m - 53).
  assert (F : fexp prec emax (Zdigits2 m + e) = e + n)
    by (rewrite fexp64_eq; unfold n; lia).
  unfold binary_round_aux.
  pose proof (shr_fexp_locate a b e A B) as SF. cbv zeta in SF.
  fold m in SF. rewrite F in SF. rewrite SF by (unfold n; lia). clear SF. replace (e + n - e) with n by lia.
  assert (P2 : 0 < 2 ^ n) by (apply Z.pow_pos_nonneg; unfold n; lia).
  destruct (recordOf_loc (locate a (b * 2 ^ n))) as [-> ->].
  pose proof (round_nearest_even_locate a (b * 2 ^ n) ltac:(nia)) as [[Lo Hi] Er].
  set (M0 := round_nearest_even (fst (locate a (b * 2 ^ n)))
                                (snd (locate a (b * 2 ^ n)))) in *.
  assert (Q : a / (b * 2 ^ n) = m / 2 ^ n)
    by (unfold m; rewrite Z.div_div by lia; reflexivity).
  assert (Dq : Zdigits2 (m / 2 ^ n) = 53)
    by (rewrite Zdigits2_shiftr by (unfold n; lia); unfold n; lia).
  assert (Pq : 0 < m / 2 ^ n).
  { pose proof (Z.div_pos m (2 ^ n) ltac:(lia) P2).
    destruct (m / 2 ^ n); simpl in Dq; lia. }
  pose proof (Zdigits2_bounds (m / 2 ^ n) Pq) as Bq.
  rewrite Dq in Bq. rewrite Q in Lo, Hi.
  destruct (Z_lt_le_dec M0 (2 ^ 53)) as [Lt|Ge].
  - destruct M0 as [|p|p] eqn:EM; try lia.
    exists p, (e + n). replace (e + n - e) with n by lia.
    split; [lia|]. split; [unfold n; lia|]. split; [exact Er|].
    assert (C : fexp prec emax (Zpos (digits2_pos p) + (e + n)) = e + n).
    { change (Zpos (digits2_pos p)) with (Zdigits2 (Zpos p)).
      rewrite Zdigits2_53 by lia. rewrite fexp64_eq. unfold n. lia. }
    pose proof (shr_fexp_exact p (e + n) (e + n) C (Z.le_refl _)) as S.
    rewrite Z.sub_diag, Z.pow_0_r, Z.mul_1_r in S. rewrite S.
    cbn [shr_m]. reflexivity.
  - assert (EM : M0 = 2 ^ 53) by lia.
    exists (Z.to_pos (2 ^ 52)), (e + n + 1).
    replace (e + n + 1 - e) with (n + 1) by lia.
    rewrite Z.pow_add_r by (unfold n; lia).
    split; [simpl; lia|]. split; [unfold n; lia|].
    split; [change (Zpos (Z.to_pos (2 ^ 52))) with (2 ^ 52);
            change (2 ^ 53) with (2 * 2 ^ 52) in EM; nia|].
    assert (C : fexp prec emax (Zpos (digits2_pos (Z.to_pos (2 ^ 52))) + (e + n + 1))
                = e + n + 1).
    { change (Zpos (digits2_pos (Z.to_pos (2 ^ 52)))) with 53.
      rewrite fexp64_eq. unfold n. lia. }
    pose proof (shr_fexp_exact (Z.to_pos (2 ^ 52)) (e + n + 1) (e + n) C ltac:(lia)) as S.
    replace (e + n + 1 - (e + n)) with 1 in S by lia.
    change (Zpos (Z.to_pos (2 ^ 52)) * 2 ^ 1) with (2 ^ 53) in S.
    rewrite EM, S. cbn [shr_m]. reflexivity.
Qed.

Lemma Zdigits2_div_le (a b : Z) :
  0 < b <= a -> Zdigits2 (a / b) <= Zdigits2 a - Zdigits2 b + 1.
Proof.
  intros [B AB]. assert (A : 0 < a) by lia.
  pose proof (Zdigits2_mono b a ltac:(lia)) as Mo.
  pose proof (Zdigits2_bounds b B) as [Lb _].
  pose proof (Zdigits2_pos a A) as Da. pose proof (Zdigits2_pos b B) as Db.
  assert (P : 0 < 2 ^ (Zdigits2 b - 1)) by (apply Z.pow_pos_nonneg; lia).
  assert (Q : 0 <= a / b <= a / 2 ^ (Zdigits2 b - 1)).
  { split; [apply Z.div_pos; lia|]. apply Z.div_le_compat_l; [lia|split; assumption]. }
  apply Zdigits2_mono in Q.
  destruct (Z_lt_le_dec (Zdigits2 b - 1) (Zdigits2 a)) as [Lt|Ge].
  - rewrite Zdigits2_shiftr in Q by lia. lia.
  - lia.
Qed.

Lemma locate_scale (a b c : Z) :
  0 < b -> 0 < c -> locate (a * c) (b * c) = locate a b.
Proof.
  intros B C. unfold locate.
  rewrite Z.div_mul_cancel_r by lia.
  rewrite Z.mul_mod_distr_r by lia.
  pose proof (Z.mod_pos_bound a b B) as R.
  f_equal. destruct (a mod b =? 0) eqn:R0.
  - apply Z.eqb_eq in R0. rewrite R0. reflexivity.
  - apply Z.eqb_neq in R0.
    assert (N : (a mod b * c =? 0) = false) by (apply Z.eqb_neq; nia).
    rewrite N. f_equal.
    destruct (2 * (a mod b) ?= b) eqn:K;
      rewrite ?Z.compare_eq_iff, ?Z.compare_lt_iff, ?Z.compare_gt_iff in *; nia.
Qed.

(** The quotient and the place of the exact quotient that [SFdiv] hands
    to the rounding. *)
Lemma SFdiv_core_locate (m1 m2 : positive) (e1 e2 : Z) :
  let e' := Z.min (fexp prec emax (Zdigits2 (Zpos m1) + e1 - (Zdigits2 (Zpos m2) + e2)))
                  (e1 - e2) in
  let a := Zpos m1 * 2 ^ (e1 - e2 - e') in
  SFdiv_core_binary prec emax (Zpos m1) e1 (Zpos m2) e2 =
  (a / Zpos m2, e', snd (locate a (Zpos m2))).
Proof.
  intros e' a. unfold SFdiv_core_binary. fold e'.
  assert (S0 : 0 <= e1 - e2 - e') by (unfold e'; lia).
  assert (M' : match e1 - e2 - e' with
               | Zpos _ => Z.shiftl (Zpos m1) (e1 - e2 - e')
               | Z0 => Zpos m1 | Zneg _ => 0 end = a).
  { unfold a. destruct (e1 - e2 - e') as [|s|s] eqn:S; try lia.
    rewrite Z.shiftl_mul_pow2 by lia. reflexivity. }
  rewrite M'. change IntDef.Z.div_eucl with Z.div_eucl.
  destruct (Z.div_eucl a (Zpos m2)) as [q r] eqn:DE.
  assert (Q : q = a / Zpos m2) by (unfold Z.div; now rewrite DE).
  assert (R : r = a mod Zpos m2) by (unfold Z.modulo; now rewrite DE).
  rewrite Q, R, new_location_locate by lia. reflexivity.
Qed.

Lemma ofZ_100 : ofZ 100 = S754_finite false (Z.to_pos (100 * 2 ^ 46)) (-46).
Proof. reflexivity. Qed.

(** An integer below [2^53] is a Number: its mantissa is shifted up to
    53 bits. *)
Lemma ofZ_normal (n : positive) :
  Zpos n < 2 ^ 53 ->
  let j := 53 - Zdigits2 (Zpos n) in
  ofZ (Zpos n) = S754_finite false (Z.to_pos (Zpos n * 2 ^ j)) (- j).
Proof.
  intros N j. pose proof (Zdigits2_bounds (Zpos n) ltac:(lia)) as [L U].
  pose proof (Zdigits2_pos (Zpos n) ltac:(lia)) as D.
  assert (J : 0 <= j).
  { unfold j. destruct (Z_lt_le_dec 53 (Zdigits2 (Zpos n))) as [G|]; [|lia].
    assert (2 ^ 53 <= 2 ^ (Zdigits2 (Zpos n) - 1)) by (apply Z.pow_le_mono_r; lia).
    lia. }
  assert (P2 : 0 < 2 ^ j) by (apply Z.pow_pos_nonneg; lia).
  assert (V : bounded prec emax (Z.to_pos (Zpos n * 2 ^ j)) (- j) = true).
  { unfold bounded, canonical_mantissa. apply andb_true_iff. split.
    - apply Z.eqb_eq.
      change (Zpos (digits2_pos (Z.to_pos (Zpos n * 2 ^ j))))
        with (Zdigits2 (Zpos (Z.to_pos (Zpos n * 2 ^ j)))).
      rewrite Z2Pos.id by nia. rewrite Zdigits2_mul_pow2 by lia.
      rewrite fexp64_eq. unfold j. lia.
    - apply Z.leb_le. change (emax - prec) with 971. lia. }
  unfold ofZ, binary_normalize, binary_round, shl_align.
  change (Zpos (digits2_pos n)) with (Zdigits2 (Zpos n)).
  rewrite Z.add_0_r, Z.sub_0_r.
  assert (F : fexp prec emax (Zdigits2 (Zpos n)) = - j)
    by (rewrite fexp64_eq; unfold j; lia).
  rewrite F.
  destruct (Z.eq_dec j 0) as [J0|JN].
  - rewrite J0 in *. cbn [Z.opp].
    pose proof (binary_round_aux_exact false _ 0 0 V (Z.le_refl 0)) as X.
    rewrite Z2Pos.id in X by lia. rewrite Z.sub_diag in X.
    rewrite Z.pow_0_r, !Z.mul_1_r in X. rewrite Z.pow_0_r, Z.mul_1_r.
    rewrite Pos2Z.id. rewrite Pos2Z.id in X. exact X.
  - destruct j as [|pj|pj] eqn:Ej; try lia. cbn [Z.opp].
    pose proof (binary_round_aux_exact false _ (- Zpos pj) (- Zpos pj) V (Z.le_refl _)) as X.
    rewrite Z.sub_diag, Z.pow_0_r, Z.mul_1_r in X.
    rewrite <- Zpos_iter_xO in X. rewrite <- Zpos_iter_xO. rewrite Pos2Z.id in *.
    exact X.
Qed.

(** ** Amounts in hundredths *)

Lemma pow2_le (a b : Z) : 0 <= a <= b -> 2 ^ a <= 2 ^ b.
Proof. intros H. apply Z.pow_le_mono_r; lia. Qed.

(** The Number for [n] hundredths. *)
Lemma cents_number (n : positive) :
  Zpos n < 2 ^ 49 ->
  exists (M : positive) (E : Z),
    ofDecimal false (Zpos n) (-2) = S754_finite false M E
    /\ 2 ^ 52 <= Zpos M < 2 ^ 53
    /\ E <= -9
    /\ -50 <= 100 * Zpos M - Zpos n * 2 ^ (- E) <= 50.
Proof.
  intros N.
  pose proof (Zdigits2_bounds (Zpos n) ltac:(lia)) as [L U].
  pose proof (Zdigits2_pos (Zpos n) ltac:(lia)) as D.
  set (d := Zdigits2 (Zpos n)) in *.
  assert (D49 : d <= 49).
  { destruct (Z_lt_le_dec 49 d) as [G|]; [|lia].
    assert (2 ^ 49 <= 2 ^ (d - 1)) by (apply pow2_le; lia). lia. }
  unfold ofDecimal. cbn [Z.leb Z.compare Z.opp]. unfold SFdiv.
  rewrite SFdiv_core_locate. cbv zeta.
  change (Zdigits2 (Zpos (Z.to_pos (10 ^ 2)))) with 7.
  change (Zpos (Z.to_pos (10 ^ 2))) with 100. fold d.
  rewrite fexp64_eq.
  replace (Z.min (Z.max (d + 0 - (7 + 0) - 53) (-1074)) (0 - 0)) with (d - 60) by lia.
  replace (0 - 0 - (d - 60)) with (60 - d) by lia.
  set (a := Zpos n * 2 ^ (60 - d)).
  assert (P2 : 0 < 2 ^ (60 - d)) by (apply Z.pow_pos_nonneg; lia).
  assert (Da : Zdigits2 a = 60) by (unfold a; rewrite Zdigits2_mul_pow2 by lia; fold d; lia).
  assert (Pa : 0 < a) by (unfold a; nia).
  pose proof (Zdigits2_bounds a Pa) as [La Ua]. rewrite Da in La, Ua.
  pose proof (Zdigits2_div_ge a 100 Pa ltac:(lia)) as G1.
  pose proof (Zdigits2_div_le a 100 ltac:(simpl in La; lia)) as G2.
  rewrite Da in G1, G2. change (Zdigits2 100) with 7 in G1, G2.
  cbn [xorb].
  destruct (binary_round_aux_near false a 100 (d - 60) ltac:(lia) ltac:(lia)
              ltac:(lia) ltac:(lia)) as (M & E & BM & HE & Er & ->).
  assert (E9 : E <= -9) by lia.
  replace (E <=? 971) with true by (symmetry; apply Z.leb_le; lia).
  exists M, E. split; [reflexivity|]. split; [exact BM|]. split; [exact E9|].
  set (t := E - (d - 60)) in *.
  assert (T : 0 <= t <= 2) by (unfold t; lia).
  assert (X : 2 ^ (60 - d) = 2 ^ t * 2 ^ (- E)).
  { rewrite <- Z.pow_add_r by lia. f_equal. unfold t. lia. }
  unfold a in Er. rewrite X in Er.
  assert (Pt : 0 < 2 ^ t) by (apply Z.pow_pos_nonneg; lia).
  nia.
Qed.

Lemma locate_1 (a : Z) : locate a 1 = (a, loc_Exact).
Proof. unfold locate. now rewrite Z.div_1_r, Z.mod_1_r. Qed.

(** Multiplying the Number for [n] hundredths by 100 and rounding to an
    integer gives [n] back. *)
Lemma round_hundredfold (n M : positive) (E : Z) :
  2 ^ 52 <= Zpos M < 2 ^ 53 -> E <= -9 ->
  -50 <= 100 * Zpos M - Zpos n * 2 ^ (- E) <= 50 ->
  Math_round (mul (S754_finite false M E) (ofZ 100)) = ofZ (Zpos n).
Proof.
  intros BM E9 Er. rewrite ofZ_100. unfold mul, SFmul. cbn [xorb].
  set (c := Z.to_pos (100 * 2 ^ 46)).
  set (a := Zpos (M * c)).
  assert (Ea : a = 100 * Zpos M * 2 ^ 46) by (unfold a, c; rewrite Pos2Z.inj_mul; simpl; lia).
  assert (Da : 105 <= Zdigits2 a <= 106).
  { rewrite Ea, Zdigits2_mul_pow2 by lia.
    pose proof (Zdigits2_mono (2 ^ 58) (100 * Zpos M) ltac:(lia)) as Lo.
    pose proof (Zdigits2_mono (100 * Zpos M) (2 ^ 60 - 1) ltac:(lia)) as Hi.
    change (Zdigits2 (2 ^ 58)) with 59 in Lo.
    change (Zdigits2 (2 ^ 60 - 1)) with 60 in Hi. lia. }
  assert (E60 : -60 < E).
  { destruct (Z_lt_le_dec (-60) E) as [|G]; [assumption|].
    assert (2 ^ 60 <= 2 ^ (- E)) by (apply pow2_le; lia). nia. }
  pose proof (binary_round_aux_near false a 1 (E + -46)) as Near.
  rewrite locate_1, Z.div_1_r in Near. cbn [snd] in Near.
  destruct (Near ltac:(lia) ltac:(lia) ltac:(lia) ltac:(lia))
    as (M2 & E2 & BM2 & HE & Er2 & ->). clear Near.
  set (w := E2 - E) in *.
  assert (W : 6 <= w <= 8) by (unfold w; lia).
  replace (E2 - (E + -46)) with (w + 46) in Er2 by (unfold w; lia).
  rewrite Z.pow_add_r, Ea in Er2 by lia.
  replace (E2 <=? 971) with true by (symmetry; apply Z.leb_le; lia).
  unfold Math_round.
  replace (0 <=? E2) with false by (symmetry; apply Z.leb_gt; lia).
  cbv zeta. cbn [cond_Zopp]. unfold ofZ. f_equal.
  set (U := 2 ^ (- E2)).
  assert (PU : 0 < U) by (apply Z.pow_pos_nonneg; lia).
  assert (T : 2 ^ (- E) = U * 2 ^ w).
  { unfold U. rewrite <- Z.pow_add_r by lia. f_equal. unfold w. lia. }
  assert (T9 : 2 ^ 9 <= 2 ^ (- E)) by (apply pow2_le; lia).
  rewrite T in Er, T9.
  assert (PW : 2 ^ w = 64 \/ 2 ^ w = 128 \/ 2 ^ w = 256).
  { assert (w = 6 \/ w = 7 \/ w = 8) as [->| [->| ->]] by lia; simpl; lia. }
  symmetry. apply (Z.div_unique_pos _ _ _ (2 * Zpos M2 + U - 2 * U * Zpos n)); [|lia].
  change (2 ^ 9) with 512 in T9. change (2 ^ 46) with 70368744177664 in Er2.
  destruct PW as [PW| [PW|PW]]; rewrite PW in *; lia.
Qed.

(** Dividing the integer [n] by 100 is the Number for [n] hundredths. *)
Lemma div_ofZ_100 (n : positive) :
  Zpos n < 2 ^ 53 ->
  div (ofZ (Zpos n)) (ofZ 100) = ofDecimal false (Zpos n) (-2).
Proof.
  intros N. rewrite (ofZ_normal n N), ofZ_100. cbv zeta.
  pose proof (Zdigits2_bounds (Zpos n) ltac:(lia)) as [L U].
  pose proof (Zdigits2_pos (Zpos n) ltac:(lia)) as D.
  set (d := Zdigits2 (Zpos n)) in *.
  assert (D53 : d <= 53).
  { destruct (Z_lt_le_dec 53 d) as [G|]; [|lia].
    assert (2 ^ 53 <= 2 ^ (d - 1)) by (apply pow2_le; lia). lia. }
  assert (P2 : 0 < 2 ^ (53 - d)) by (apply Z.pow_pos_nonneg; lia).
  unfold ofDecimal, div, SFdiv. cbn [Z.leb Z.compare Z.opp xorb].
  rewrite !SFdiv_core_locate. cbv zeta.
  rewrite !Z2Pos.id by (try nia; reflexivity).
  rewrite Zdigits2_mul_pow2 by lia. fold d.
  change (Zdigits2 (100 * 2 ^ 46)) with 53.
  change (Zdigits2 (10 ^ 2)) with 7.
  rewrite !fexp64_eq.
  replace (Z.min (Z.max (d + (53 - d) + - (53 - d) - (53 + -46) - 53) (-1074))
                 (- (53 - d) - -46)) with (d - 60) by lia.
  replace (Z.min (Z.max (d + 0 - (7 + 0) - 53) (-1074)) (0 - 0)) with (d - 60) by lia.
  replace (- (53 - d) - -46 - (d - 60)) with 53 by lia.
  replace (0 - 0 - (d - 60)) with (60 - d) by lia.
  assert (X : Zpos n * 2 ^ (53 - d) * 2 ^ 53 = Zpos n * 2 ^ (60 - d) * 2 ^ 46).
  { rewrite <- !Z.mul_assoc, <- !Z.pow_add_r by lia. do 2 f_equal. lia. }
  rewrite X. change (10 ^ 2) with 100.
  rewrite locate_scale by lia.
  rewrite Z.div_mul_cancel_r by lia. reflexivity.
Qed.

(** An amount of [n] hundredths goes through [Math.round(x * 100) / 100]
    unchanged. *)
Lemma round2_cents (n : positive) :
  Zpos n < 2 ^ 49 ->
  round2 (ofDecimal false (Zpos n) (-2)) = ofDecimal false (Zpos n) (-2).
Proof.
  intros N. destruct (cents_number n N) as (M & E & X & BM & E9 & Er).
  unfold round2. rewrite X at 1.
  rewrite (round_hundredfold n M E BM E9 Er).
  apply div_ofZ_100. lia.
Qed.

(** ** The value decides the result *)

Lemma Zdigits2_div_scaled (a b k : Z) :
  0 < b <= a -> 0 <= k ->
  Zdigits2 (a * 2 ^ k / b) = Zdigits2 (a / b) + k.
Proof.
  intros [B AB] K.
  assert (Pq : 0 < a / b) by (apply Z.div_str_pos; lia).
  pose proof (Zdigits2_bounds (a / b) Pq) as [L U].
  pose proof (Zdigits2_pos (a / b) Pq) as D.
  set (D0 := Zdigits2 (a / b)) in *.
  assert (P2 : 0 < 2 ^ k) by (apply Z.pow_pos_nonneg; lia).
  assert (La : 2 ^ (D0 - 1) * b <= a).
  { pose proof (Z.mul_div_le a b B). nia. }
  assert (Ua : a < 2 ^ D0 * b).
  { pose proof (Z.mul_succ_div_gt a b B). nia. }
  assert (P1 : 0 < 2 ^ (D0 - 1)) by (apply Z.pow_pos_nonneg; lia).
  apply Zdigits2_unique.
  - apply Z.div_str_pos. nia.
  - replace (D0 + k - 1) with (D0 - 1 + k) by lia.
    rewrite !Z.pow_add_r by lia. split.
    + apply Z.div_le_lower_bound; [lia|]. nia.
    + apply Z.div_lt_upper_bound; [lia|]. nia.
Qed.

(** The rounded result depends only on the value [a / b * 2^e]. *)
Lemma binary_round_aux_value_le (s : bool) (a b e a' b' e' : Z) :
  0 < b <= a -> 0 < b' <= a' ->
  e <= fexp prec emax (Zdigits2 (a / b) + e) ->
  e' <= fexp prec emax (Zdigits2 (a' / b') + e') ->
  e <= e' -> a * b' = a' * b * 2 ^ (e' - e) ->
  binary_round_aux prec emax s (a / b) e (snd (locate a b)) =
  binary_round_aux prec emax s (a' / b') e' (snd (locate a' b')).
Proof.
  intros [B AB] [B' AB'] P P' L V.
  assert (P2 : 0 < 2 ^ (e' - e)) by (apply Z.pow_pos_nonneg; lia).
  assert (Q : a / b = a' * 2 ^ (e' - e) / b').
  { rewrite <- (Z.div_mul_cancel_r a b b') by lia.
    rewrite V.
    replace (a' * b * 2 ^ (e' - e)) with (a' * 2 ^ (e' - e) * b) by ring.
    replace (b * b') with (b' * b) by ring.
    apply Z.div_mul_cancel_r; lia. }
  assert (Dg : Zdigits2 (a / b) + e = Zdigits2 (a' / b') + e').
  { rewrite Q, Zdigits2_div_scaled by lia. lia. }
  unfold binary_round_aux.
  pose proof (shr_fexp_locate a b e ltac:(lia) B) as S1.
  pose proof (shr_fexp_locate a' b' e' ltac:(lia) B') as S2.
  cbv zeta in S1, S2. rewrite S1, S2 by assumption. clear S1 S2.
  rewrite Dg in *. set (E := fexp prec emax (Zdigits2 (a' / b') + e')) in *.
  assert (X : locate a (b * 2 ^ (E - e)) = locate a' (b' * 2 ^ (E - e'))).
  { assert (PE : 0 < 2 ^ (E - e')) by (apply Z.pow_pos_nonneg; lia).
    rewrite <- (locate_scale a (b * 2 ^ (E - e)) b') by nia.
    rewrite V.
    replace (E - e) with ((E - e') + (e' - e)) by lia.
    rewrite Z.pow_add_r by lia.
    replace (a' * b * 2 ^ (e' - e)) with (a' * (b * 2 ^ (e' - e))) by ring.
    replace (b * (2 ^ (E - e') * 2 ^ (e' - e)) * b')
      with (b' * 2 ^ (E - e') * (b * 2 ^ (e' - e))) by ring.
    apply locate_scale; nia. }
  rewrite X. reflexivity.
Qed.

Lemma binary_round_aux_value (s : bool) (a b e a' b' e' c : Z) :
  0 < b <= a -> 0 < b' <= a' ->
  e <= fexp prec emax (Zdigits2 (a / b) + e) ->
  e' <= fexp prec emax (Zdigits2 (a' / b') + e') ->
  e <= c -> e' <= c ->
  a * b' * 2 ^ (c - e') = a' * b * 2 ^ (c - e) ->
  binary_round_aux prec emax s (a / b) e (snd (locate a b)) =
  binary_round_aux prec emax s (a' / b') e' (snd (locate a' b')).
Proof.
  intros H H' P P' C C' V.
  assert (Pc : 0 < 2 ^ (c - e)) by (apply Z.pow_pos_nonneg; lia).
  assert (Pc' : 0 < 2 ^ (c - e')) by (apply Z.pow_pos_nonneg; lia).
  destruct (Z_le_gt_dec e e') as [L|G].
  - apply binary_round_aux_value_le; try assumption.
    replace (c - e) with ((c - e') + (e' - e)) in V by lia.
    rewrite Z.pow_add_r in V by lia.
    apply (Z.mul_reg_r _ _ (2 ^ (c - e'))); [lia|]. rewrite V. ring.
  - symmetry. apply binary_round_aux_value_le; try assumption; [lia|].
    replace (c - e') with ((c - e) + (e - e')) in V by lia.
    rewrite Z.pow_add_r in V by lia.
    apply (Z.mul_reg_r _ _ (2 ^ (c - e))); [lia|]. rewrite <- V. ring.
Qed.

Lemma decimalDen_pos (e : Z) : 0 < decimalDen e.
Proof.
  unfold decimalDen. destruct (0 <=? e) eqn:E; [lia|].
  apply Z.leb_gt in E. apply Z.pow_pos_nonneg; lia.
Qed.

Lemma decimalNum_pos (m e : Z) : 0 < m -> 0 < decimalNum m e.
Proof.
  intros M. unfold decimalNum. destruct (0 <=? e) eqn:E; [|lia].
  apply Z.leb_le in E. apply Z.mul_pos_pos; [lia|]. apply Z.pow_pos_nonneg; lia.
Qed.

(** [ofDecimal] rounds the exact quotient of numerator and denominator. *)
Lemma ofDecimal_locate (s : bool) (m e : Z) :
  0 < m ->
  Zdigits2 (decimalDen e) - Zdigits2 (decimalNum m e) <= 1021 ->
  exists a b e0,
    0 < b <= a
    /\ e0 <= fexp prec emax (Zdigits2 (a / b) + e0)
    /\ e0 <= 0
    /\ a * decimalDen e = decimalNum m e * b * 2 ^ (- e0)
    /\ ofDecimal s m e =
       binary_round_aux prec emax s (a / b) e0 (snd (locate a b)).
Proof.
  intros M R. unfold decimalNum, decimalDen in *. unfold ofDecimal.
  destruct m as [|p|p]; try lia.
  destruct (0 <=? e) eqn:E.
  - apply Z.leb_le in E.
    assert (PN : 0 < Zpos p * 10 ^ e)
      by (apply Z.mul_pos_pos; [lia | apply Z.pow_pos_nonneg; lia]).
    destruct (Zpos p * 10 ^ e) as [|q|q] eqn:N; try lia.
    assert (BN : binary_normalize prec emax (cond_Zopp s (Zpos q)) 0 s =
                 binary_round prec emax s q 0) by (destruct s; reflexivity).
    rewrite BN. unfold binary_round, shl_align.
    change (Zpos (digits2_pos q)) with (Zdigits2 (Zpos q)).
    rewrite Z.add_0_r, Z.sub_0_r.
    destruct (fexp prec emax (Zdigits2 (Zpos q))) as [|t|t] eqn:F.
    + exists (Zpos q), 1, 0. rewrite locate_1, Z.div_1_r. cbn [snd].
      rewrite Z.add_0_r, F. repeat split; try lia. 
    + exists (Zpos q), 1, 0. rewrite locate_1, Z.div_1_r. cbn [snd].
      rewrite Z.add_0_r, F. repeat split; try lia. 
    + exists (Zpos (Pos.iter xO q t)), 1, (Zneg t).
      rewrite locate_1, Z.div_1_r. cbn [snd].
      assert (0 < 2 ^ Zpos t) by (apply Z.pow_pos_nonneg; lia).
      split; [lia|]. split.
      { rewrite Zpos_iter_xO, Zdigits2_mul_pow2 by lia.
        replace (Zdigits2 (Zpos q) + Zpos t + Zneg t) with (Zdigits2 (Zpos q)) by lia.
        rewrite F. lia. }
      split; [lia|]. split; [|reflexivity].
      rewrite Zpos_iter_xO. cbn [Z.opp]. ring.
  - apply Z.leb_gt in E. unfold SFdiv. rewrite SFdiv_core_locate. cbv zeta.
    rewrite xorb_false_r.
    assert (PD : 0 < 10 ^ (- e)) by (apply Z.pow_pos_nonneg; lia).
    rewrite Z2Pos.id by exact PD.
    set (dp := Zdigits2 (Zpos p)) in *. set (dd := Zdigits2 (10 ^ (- e))) in *.
    set (e' := Z.min (fexp prec emax (dp + 0 - (dd + 0))) (0 - 0)).
    set (a := Zpos p * 2 ^ (0 - 0 - e')).
    pose proof (Zdigits2_bounds (Zpos p) ltac:(lia)) as [Lp Up]. fold dp in Lp, Up.
    pose proof (Zdigits2_bounds (10 ^ (- e)) PD) as [Ld Ud]. fold dd in Ld, Ud.
    pose proof (Zdigits2_pos (Zpos p) ltac:(lia)) as Dp. fold dp in Dp.
    pose proof (Zdigits2_pos (10 ^ (- e)) PD) as Dd. fold dd in Dd.
    assert (E' : e' <= 0) by (unfold e'; lia).
    assert (P2 : 0 < 2 ^ (0 - 0 - e')) by (apply Z.pow_pos_nonneg; lia).
    assert (Da : Zdigits2 a = dp + (0 - 0 - e'))
      by (unfold a; rewrite Zdigits2_mul_pow2 by lia; reflexivity).
    assert (Pa : 0 < a) by (unfold a; nia).
    assert (BA : 10 ^ (- e) <= a).
    { pose proof (Zdigits2_bounds a Pa) as [La _]. rewrite Da in La.
      assert (2 ^ dd <= 2 ^ (dp + (0 - 0 - e') - 1)).
      { apply pow2_le. unfold e'. rewrite fexp64_eq. lia. }
      lia. }
    exists a, (10 ^ (- e)), e'.
    split; [lia|]. split.
    + pose proof (Zdigits2_div_ge a (10 ^ (- e)) Pa PD) as G.
      rewrite Da in G. fold dd in G.
      apply Z.le_trans with (fexp prec emax (dp + 0 - (dd + 0))); [unfold e'; lia|].
      apply fexp_mono. lia.
    + split; [exact E'|]. split; [|reflexivity].
      unfold a. replace (0 - 0 - e') with (- e') by lia. ring.
Qed.

(** Two decimal notations of the same value give the same Number. *)
Lemma ofDecimal_value (s : bool) (m e m' e' : Z) :
  0 < m -> 0 < m' ->
  Zdigits2 (decimalDen e) - Zdigits2 (decimalNum m e) <= 1021 ->
  Zdigits2 (decimalDen e') - Zdigits2 (decimalNum m' e') <= 1021 ->
  decimalNum m e * decimalDen e' = decimalNum m' e' * decimalDen e ->
  ofDecimal s m e = ofDecimal s m' e'.
Proof.
  intros M M' R R' V.
  destruct (ofDecimal_locate s m e M R) as (a & b & e0 & AB & P & N & X & ->).
  destruct (ofDecimal_locate s m' e' M' R') as (a' & b' & e0' & AB' & P' & N' & X' & ->).
  pose proof (decimalDen_pos e) as D. pose proof (decimalDen_pos e') as D'.
  pose proof (decimalNum_pos m e M) as U. pose proof (decimalNum_pos m' e' M') as U'.
  apply (binary_round_aux_value s a b e0 a' b' e0' 0); try assumption.
  replace (0 - e0) with (- e0) by lia. replace (0 - e0') with (- e0') by lia.
  apply (Z.mul_reg_r _ _ (decimalDen e * decimalNum m' e')); [nia|].
  transitivity (a * decimalDen e * (decimalNum m' e' * b' * 2 ^ (- e0'))); [ring|].
  rewrite <- X', X.
  transitivity (a' * b * 2 ^ (- e0) * (decimalNum m e * decimalDen e')); [ring|].
  rewrite V. ring.
Qed.

(** ** Decimal notations of hundredths *)

Lemma Zdigits2_mul_le (a : Z) (k : Z) :
  0 < a -> 0 <= k -> forall c, 0 < c <= 2 ^ k -> Zdigits2 (a * c) <= Zdigits2 a + k.
Proof.
  intros A K c C.
  rewrite <- (Zdigits2_mul_pow2 a k A K).
  apply Zdigits2_mono. nia.
Qed.

(** A decimal that is a whole number [n] of hundredths is the Number
    for [n] hundredths, however it is written. *)
Lemma ofDecimal_hundredths (m e : Z) (n : positive) :
  0 < m -> decimalNum m e * 100 = Zpos n * decimalDen e ->
  ofDecimal false m e = ofDecimal false (Zpos n) (-2).
Proof.
  intros M V.
  pose proof (decimalDen_pos e) as D. pose proof (decimalNum_pos m e M) as U.
  apply ofDecimal_value; try lia.
  - pose proof (Zdigits2_mul_le (decimalNum m e) 7 U ltac:(lia) 100 ltac:(simpl; lia)) as G.
    pose proof (Zdigits2_mono (decimalDen e) (decimalNum m e * 100) ltac:(nia)). lia.
  - change (decimalDen (-2)) with 100. change (decimalNum (Zpos n) (-2)) with (Zpos n).
    pose proof (Zdigits2_pos (Zpos n) ltac:(lia)). change (Zdigits2 100) with 7. lia.
  - change (decimalDen (-2)) with 100. change (decimalNum (Zpos n) (-2)) with (Zpos n).
    exact V.
Qed.

(** Such a decimal, with [n < 2^49], is stored by
    [Math.round(x * 100) / 100] as it is. *)
Lemma round2_hundredths (m e : Z) (n : positive) :
  0 < m -> Zpos n < 2 ^ 49 ->
  decimalNum m e * 100 = Zpos n * decimalDen e ->
  round2 (ofDecimal false m e) = ofDecimal false m e.
Proof.
  intros M N V. rewrite (ofDecimal_hundredths m e n M V).
  apply round2_cents. exact N.
Qed.

(** [Number(t)] for a plain decimal text: digits, or digits, a dot and
    digits. *)
Lemma StringToNumber_plain (ip fp : jsstring) :
  forallb isDigit ip = true -> ip <> [] -> forallb isDigit fp = true ->
  StringToNumber (ip ++ match fp with [] => [] | _ => 46%N :: fp end) =
  ofDecimal false (decimalValue (ip ++ fp)) (- Z.of_nat (List.length fp)).
Proof.
  intros Di NE Df.
  set (t := ip ++ match fp with [] => [] | _ => 46%N :: fp end).
  assert (C : forallb isNumberChar t = true).
  { unfold t. rewrite forallb_app. apply andb_true_iff. split.
    - rewrite forallb_forall in *. intros c Hc. unfold isNumberChar.
      now rewrite (Di c Hc).
    - destruct fp as [|f fp]; [reflexivity|].
      change (forallb isNumberChar (46%N :: f :: fp))
        with (forallb isNumberChar (f :: fp)).
      rewrite forallb_forall in *. intros c Hc. unfold isNumberChar.
      now rewrite (Df c Hc). }
  destruct ip as [|c ip]; [congruence|].
  assert (Dc : isDigit c = true) by (cbn [forallb] in Di; now apply andb_true_iff in Di).
  unfold StringToNumber. rewrite (numberChars_trim t C).
  assert (T : t = c :: (ip ++ match fp with [] => [] | _ => 46%N :: fp end)) by reflexivity.
  rewrite T at 1. cbv beta iota. rewrite <- T.
  rewrite (nonDecimal_numberChars t C).
  assert (N43 : (c =? 43)%N = false).
  { apply N.eqb_neq. intros ->. discriminate. }
  assert (N45 : (c =? 45)%N = false).
  { apply N.eqb_neq. intros ->. discriminate. }
  rewrite N43, N45. unfold t.
  destruct fp as [|f fp].
  - rewrite !app_nil_r. 
    pose proof (unsignedDecimal_integer false (c :: ip) [] 0 Di NE eq_refl) as X.
    rewrite app_nil_r in X. exact X.
  - pose proof (unsignedDecimal_fraction false (c :: ip) (f :: fp) [] 0 Di NE Df eq_refl) as X.
    rewrite app_nil_r in X. exact X.
Qed.

(** On the Number for [n] hundredths, rounding the exact value to two
    decimal places gives the Number back. *)
Lemma roundedTo2Places_cents (n : positive) :
  Zpos n < 2 ^ 49 ->
  Scenario.roundedTo2Places (ofDecimal false (Zpos n) (-2)) =
  ofDecimal false (Zpos n) (-2).
Proof.
  intros N. destruct (cents_number n N) as (M & E & X & BM & E9 & Er).
  rewrite X at 1. unfold Scenario.roundedTo2Places.
  replace (0 <=? E) with false by (symmetry; apply Z.leb_gt; lia).
  cbv zeta. cbn [cond_Zopp].
  assert (T9 : 2 ^ 9 <= 2 ^ (- E)) by (apply pow2_le; lia).
  change (2 ^ 9) with 512 in T9.
  assert (K : (200 * Zpos M + 2 ^ (- E)) / (2 * 2 ^ (- E)) = Zpos n).
  { symmetry.
    apply (Z.div_unique_pos _ _ _ (200 * Zpos M + 2 ^ (- E) - 2 * 2 ^ (- E) * Zpos n));
      lia. }
  rewrite K. reflexivity.
Qed.

Lemma roundedTo2Places_hundredths (m e : Z) (n : positive) :
  0 < m -> Zpos n < 2 ^ 49 ->
  decimalNum m e * 100 = Zpos n * decimalDen e ->
  Scenario.roundedTo2Places (ofDecimal false m e) = ofDecimal false m e.
Proof.
  intros M N V. rewrite (ofDecimal_hundredths m e n M V).
  apply roundedTo2Places_cents. exact N.
Qed.

(** ** Every amount below the overflow *)

(** A quotient of positive Numbers rounds the exact quotient. *)
Lemma div_locate (m1 m2 : positive) (e1 e2 : Z) :
  exists a e0,
    0 < a
    /\ e0 <= fexp prec emax (Zdigits2 (a / Zpos m2) + e0)
    /\ e0 <= e1 - e2
    /\ a = Zpos m1 * 2 ^ (e1 - e2 - e0)
    /\ div (S754_finite false m1 e1) (S754_finite false m2 e2) =
       binary_round_aux prec emax false (a / Zpos m2) e0
                        (snd (locate a (Zpos m2))).
Proof.
  destruct (SFdiv_core_binary_spec m1 m2 e1 e2) as (q & e & l & S & Q & P).
  pose proof (SFdiv_core_locate m1 m2 e1 e2) as L. cbv zeta in L.
  rewrite S in L. injection L as -> -> ->.
  set (e0 := Z.min (fexp prec emax (Zdigits2 (Zpos m1) + e1 - (Zdigits2 (Zpos m2) + e2)))
                   (e1 - e2)) in *.
  assert (E0 : e0 <= e1 - e2) by (unfold e0; lia).
  exists (Zpos m1 * 2 ^ (e1 - e2 - e0)), e0.
  assert (P2 : 0 < 2 ^ (e1 - e2 - e0)) by (apply Z.pow_pos_nonneg; lia).
  split; [nia|]. split; [exact P|]. split; [exact E0|]. split; [reflexivity|].
  unfold div, SFdiv. rewrite S. reflexivity.
Qed.

(** Dividing an integral Number by 100 gives the Number nearest to that
    many hundredths. *)
Lemma div_integer_100 (m : positive) (e : Z) :
  valid_binary prec emax (S754_finite false m e) = true -> 0 <= e ->
  div (S754_finite false m e) (ofZ 100) = ofDecimal false (Zpos m * 2 ^ e) (-2).
Proof.
  intros V E. apply valid_finite_inv in V as (D & _ & [D53|]); [|lia].
  pose proof (Zdigits2_bounds (Zpos m) ltac:(lia)) as [Lm Um]. rewrite D53 in Lm, Um.
  change (2 ^ (53 - 1)) with (2 ^ 52) in Lm.
  assert (PE : 0 < 2 ^ e) by (apply Z.pow_pos_nonneg; lia).
  assert (PN : 0 < Zpos m * 2 ^ e) by nia.
  rewrite ofZ_100.
  destruct (div_locate m (Z.to_pos (100 * 2 ^ 46)) e (-46))
    as (a & e0 & Pa & P & E0 & Ea & ->).
  change (Zpos (Z.to_pos (100 * 2 ^ 46))) with (100 * 2 ^ 46) in *.
  destruct (ofDecimal_locate false (Zpos m * 2 ^ e) (-2) PN)
    as (a' & b' & e0' & AB' & P' & N' & X' & ->).
  { change (decimalDen (-2)) with 100. change (Zdigits2 100) with 7.
    change (decimalNum (Zpos m * 2 ^ e) (-2)) with (Zpos m * 2 ^ e).
    pose proof (Zdigits2_pos _ PN). lia. }
  change (decimalDen (-2)) with 100 in X'.
  change (decimalNum (Zpos m * 2 ^ e) (-2)) with (Zpos m * 2 ^ e) in X'.
  assert (S0 : 0 <= e - -46 - e0) by lia.
  assert (P2 : 0 < 2 ^ (e - -46 - e0)) by (apply Z.pow_pos_nonneg; lia).
  assert (BA : 100 * 2 ^ 46 <= a).
  { destruct (Z_le_gt_dec (100 * 2 ^ 46) a) as [|G]; [assumption|exfalso].
    rewrite (Z.div_small a (100 * 2 ^ 46)) in P by lia.
    change (Zdigits2 0) with 0 in P. rewrite fexp64_eq in P.
    assert (e + 46 - e0 <= 52).
    { destruct (Z_le_gt_dec (e + 46 - e0) 52) as [|G2]; [assumption|exfalso].
      assert (2 ^ 53 <= 2 ^ (e - -46 - e0)) by (apply pow2_le; lia).
      change (2 ^ 53) with (2 * 2 ^ 52) in *. change (2 ^ 46) with 70368744177664 in *.
      nia. }
    lia. }
  apply (binary_round_aux_value false a (100 * 2 ^ 46) e0 a' b' e0' (e + 46));
    try assumption; try lia.
  replace (e + 46 - e0') with (e + 46 + - e0') by lia.
  replace (e + 46 - e0) with (e - -46 - e0) by lia.
  rewrite Z.pow_add_r by lia. rewrite Z.pow_add_r by lia.
  replace (a' * (100 * 2 ^ 46) * 2 ^ (e - -46 - e0))
    with (a' * 100 * (2 ^ 46 * 2 ^ (e - -46 - e0))) by ring.
  rewrite X', Ea. ring.
Qed.

Lemma nearestInteger_unique (num den n n' : Z) :
  0 < den -> nearestInteger num den n -> nearestInteger num den n' -> n = n'.
Proof. unfold nearestInteger. intros D H H'. nia. Qed.

Lemma nearestInteger_div (num den : Z) :
  0 < den -> nearestInteger num den ((2 * num + den) / (2 * den)).
Proof.
  intros D. unfold nearestInteger.
  pose proof (Z.div_mod (2 * num + den) (2 * den) ltac:(lia)) as E.
  pose proof (Z.mod_pos_bound (2 * num + den) (2 * den) ltac:(lia)) as R.
  remember ((2 * num + den) / (2 * den)) as q.
  remember ((2 * num + den) mod (2 * den)) as r. nia.
Qed.

(** [Math.round] of a positive finite Number is the Number of the
    integer nearest to it. *)
Lemma Math_round_nearest (m : positive) (e : Z) :
  valid_binary prec emax (S754_finite false m e) = true ->
  exists n,
    0 <= n
    /\ nearestInteger (binaryNum m e) (binaryDen e) n
    /\ ((0 <= e /\ n = Zpos m * 2 ^ e
         /\ Math_round (S754_finite false m e) = S754_finite false m e)
        \/ (e < 0 /\ n < 2 ^ 53
            /\ Math_round (S754_finite false m e) = ofZ n)).
Proof.
  intros V. pose proof (valid_finite_inv _ _ _ V) as (D & _ & _).
  pose proof (Zdigits2_bounds (Zpos m) ltac:(lia)) as [_ Um].
  assert (U53 : Zpos m < 2 ^ 53).
  { apply Z.lt_le_trans with (2 ^ Zdigits2 (Zpos m)); [exact Um|].
    apply pow2_le. pose proof (Zdigits2_pos (Zpos m)). lia. }
  unfold binaryNum, binaryDen.
  destruct (Z.leb_spec 0 e) as [E|E].
  - exists (Zpos m * 2 ^ e).
    assert (PE : 0 < 2 ^ e) by (apply Z.pow_pos_nonneg; lia).
    rewrite (Z.max_r 0 e) by lia. rewrite (Z.max_l 0 (- e)) by lia.
    split; [nia|]. split; [unfold nearestInteger; rewrite Z.pow_0_r; lia|].
    left. split; [exact E|]. split; [reflexivity|].
    unfold Math_round. now replace (0 <=? e) with true by (symmetry; apply Z.leb_le; lia).
  - rewrite (Z.max_l 0 e) by lia. rewrite (Z.max_r 0 (- e)) by lia.
    rewrite Z.pow_0_r, Z.mul_1_r.
    assert (PD : 2 <= 2 ^ (- e)).
    { change 2 with (2 ^ 1) at 1. apply pow2_le. lia. }
    exists ((2 * Zpos m + 2 ^ (- e)) / (2 * 2 ^ (- e))).
    pose proof (nearestInteger_div (Zpos m) (2 ^ (- e)) ltac:(lia)) as N.
    remember ((2 * Zpos m + 2 ^ (- e)) / (2 * 2 ^ (- e))) as n eqn:En.
    remember (2 ^ (- e)) as d eqn:Ed.
    assert (N0 : 0 <= n).
    { rewrite En. apply Z.div_pos; lia. }
    split; [exact N0|]. split; [exact N|].
    right. split; [exact E|]. split.
    + unfold nearestInteger in N. nia.
    + unfold Math_round.
      replace (0 <=? e) with false by (symmetry; apply Z.leb_gt; lia).
      cbv zeta. cbn [cond_Zopp]. rewrite <- Ed, <- En. reflexivity.
Qed.

(** Below the overflow [Math.round(x * 100) / 100] is the Number nearest
    to [n] hundredths, [n] being the integer nearest to the product. *)
Lemma round2_of_product (x : number) (m : positive) (e : Z) :
  valid_binary prec emax x = true ->
  mul x (ofZ 100) = S754_finite false m e ->
  exists n,
    0 <= n
    /\ nearestInteger (binaryNum m e) (binaryDen e) n
    /\ round2 x = ofDecimal false n (-2).
Proof.
  intros Vx Ep.
  assert (V : valid_binary prec emax (S754_finite false m e) = true).
  { rewrite <- Ep. apply mul_valid; [exact Vx | apply ofZ_valid]. }
  destruct (Math_round_nearest m e V) as (n & N0 & N & [(E & -> & R)|(E & N53 & R)]).
  - exists (Zpos m * 2 ^ e). split; [exact N0|]. split; [exact N|].
    unfold round2. rewrite Ep, R. now apply div_integer_100.
  - exists n. split; [exact N0|]. split; [exact N|].
    unfold round2. rewrite Ep, R.
    destruct n as [|q|q]; [reflexivity | now apply div_ofZ_100 | lia].
Qed.

(** ** How far the stored amount is from the exact rounding *)

(** With [c] and [t] positive, a bound in units of [c * t] is a bound in
    units of [t]. *)
Lemma scale_bound (c t u v : Z) :
  0 < c -> - (c * t) <= 2 * (u * (c * t) - v * c) <= c * t ->
  - t <= 2 * (u * t - v) <= t.
Proof. intros C H. nia. Qed.

(** Between two neighbouring half-integers, in units of [1 / (2 * h)]. *)
Lemma half_grid (h t k m v : Z) :
  0 < h -> 0 < t ->
  (2 * k - 1) * (2 * h * t) <= 2 * v < (2 * k + 1) * (2 * h * t) ->
  - t <= 2 * (m * t - v) <= t ->
  (2 * k - 1) * (2 * h) <= 2 * m <= (2 * k + 1) * (2 * h).
Proof.
  intros H T [K1 K2] [N1 N2].
  assert (A : 0 <= (2 * (m - (2 * k - 1) * h) + 1) * t).
  { replace ((2 * (m - (2 * k - 1) * h) + 1) * t)
      with (2 * (m * t) - (2 * k - 1) * (2 * h * t) + t) by ring. lia. }
  assert (B : 0 < (1 - 2 * (m - (2 * k + 1) * h)) * t).
  { replace ((1 - 2 * (m - (2 * k + 1) * h)) * t)
      with (t - 2 * (m * t) + (2 * k + 1) * (2 * h * t)) by ring. lia. }
  apply Z.mul_nonneg_cancel_r in A; [|exact T].
  apply Z.mul_pos_cancel_r in B; [|exact T]. lia.
Qed.

(** The product of a normal Number with 100, when it is below [2^52],
    lies within half a unit in its last place of the exact product. *)
Lemma mul_hundred_near (mx : positive) (ex : Z) (m : positive) (e : Z) :
  valid_binary prec emax (S754_finite false mx ex) = true ->
  2 ^ 52 <= Zpos mx ->
  mul (S754_finite false mx ex) (ofZ 100) = S754_finite false m e ->
  ex + 6 <= e
  /\ - 2 ^ (e - ex) <= 2 * (Zpos m * 2 ^ (e - ex) - 100 * Zpos mx) <= 2 ^ (e - ex).
Proof.
  intros V N. apply valid_finite_inv in V as (D & Ex & _).
  rewrite ofZ_100. unfold mul, SFmul. cbn [xorb].
  set (c := Z.to_pos (100 * 2 ^ 46)).
  set (a := Zpos (mx * c)).
  assert (Ea : a = 100 * Zpos mx * 2 ^ 46)
    by (unfold a, c; rewrite Pos2Z.inj_mul; simpl; lia).
  assert (Da : 105 <= Zdigits2 a).
  { rewrite Ea, Zdigits2_mul_pow2 by lia.
    pose proof (Zdigits2_mono (2 ^ 58) (100 * Zpos mx) ltac:(lia)) as Lo.
    change (Zdigits2 (2 ^ 58)) with 59 in Lo. lia. }
  pose proof (binary_round_aux_near false a 1 (ex + -46)) as Near.
  rewrite locate_1, Z.div_1_r in Near. cbn [snd] in Near.
  destruct (Near ltac:(lia) ltac:(lia) ltac:(lia) ltac:(lia))
    as (M2 & E2 & BM2 & HE & Er2 & ->). clear Near.
  destruct (E2 <=? 971); [|discriminate].
  intros Q. injection Q as -> ->.
  split; [lia|].
  assert (T : 0 < 2 ^ (e - ex)) by (apply Z.pow_pos_nonneg; lia).
  replace (e - (ex + -46)) with (46 + (e - ex)) in Er2 by lia.
  rewrite Z.pow_add_r, Z.mul_1_l in Er2 by lia.
  apply (scale_bound (2 ^ 46)); [reflexivity|].
  rewrite Ea in Er2.
  replace (100 * Zpos mx * 2 ^ 46) with (100 * Zpos mx * 2 ^ 46) in Er2 by reflexivity.
  exact Er2.
Qed.

(** Rounding the product instead of the exact hundredfold changes the
    nearest integer only when the product lands on a half: then the
    result is one more. *)
Lemma product_accuracy (mx : positive) (ex : Z) (m : positive) (e : Z) :
  valid_binary prec emax (S754_finite false mx ex) = true ->
  2 ^ 52 <= Zpos mx ->
  mul (S754_finite false mx ex) (ofZ 100) = S754_finite false m e ->
  e < 0 ->
  exists k,
    0 <= k
    /\ nearestInteger (100 * binaryNum mx ex) (binaryDen ex) k
    /\ Scenario.roundedTo2Places (S754_finite false mx ex) =
       ofDecimal false k (-2)
    /\ forall n, nearestInteger (binaryNum m e) (binaryDen e) n ->
                 n = k \/ (n = k + 1
                           /\ 2 * binaryNum m e = (2 * k + 1) * binaryDen e).
Proof.
  intros V N P E.
  destruct (mul_hundred_near mx ex m e V N P) as [G Near].
  assert (Ex : ex < 0) by lia.
  unfold binaryNum, binaryDen.
  rewrite (Z.max_l 0 ex), (Z.max_r 0 (- ex)) by lia.
  rewrite (Z.max_l 0 e), (Z.max_r 0 (- e)) by lia.
  rewrite Z.pow_0_r, !Z.mul_1_r.
  assert (H : 0 < 2 ^ (- e - 1)) by (apply Z.pow_pos_nonneg; lia).
  assert (T : 0 < 2 ^ (e - ex)) by (apply Z.pow_pos_nonneg; lia).
  assert (U : 2 ^ (- e) = 2 * 2 ^ (- e - 1)).
  { replace (- e) with (1 + (- e - 1)) at 1 by lia.
    rewrite Z.pow_add_r by lia. reflexivity. }
  assert (X : 2 ^ (- ex) = 2 * 2 ^ (- e - 1) * 2 ^ (e - ex)).
  { rewrite <- U, <- Z.pow_add_r by lia. f_equal. lia. }
  pose proof (nearestInteger_div (100 * Zpos mx) (2 ^ (- ex)) ltac:(lia)) as K.
  replace (2 * (100 * Zpos mx)) with (200 * Zpos mx) in K by ring.
  remember ((200 * Zpos mx + 2 ^ (- ex)) / (2 * 2 ^ (- ex))) as k eqn:Ek.
  assert (K0 : 0 <= k) by (rewrite Ek; apply Z.div_pos; lia).
  exists k. split; [exact K0|]. split; [exact K|]. split.
  - unfold Scenario.roundedTo2Places.
    replace (0 <=? ex) with false by (symmetry; apply Z.leb_gt; lia).
    cbv zeta. cbn [cond_Zopp]. rewrite <- Ek.
    replace (k <? 0) with false by (symmetry; apply Z.ltb_ge; lia).
    now rewrite Z.abs_eq.
  - intros n Hn. unfold nearestInteger in K, Hn.
    rewrite X in K. rewrite U in Hn |- *.
    pose proof (half_grid (2 ^ (- e - 1)) (2 ^ (e - ex)) k (Zpos m)
                          (100 * Zpos mx) H T K Near) as B.
    remember (2 ^ (- e - 1)) as h. clear - B Hn H.
    destruct (Z.eq_dec (2 * Zpos m) ((2 * k + 1) * (2 * h))) as [Q|Q].
    + right. split; [nia | exact Q].
    + left. nia.
Qed.

(** ** The product is never zero *)

(** Rounding a positive integer mantissa with enough digits above the
    least exponent gives a Number that is not zero. *)
Lemma binary_round_aux_positive (s : bool) (m e : Z) :
  0 < m -> e <= fexp prec emax (Zdigits2 m + e) -> -1074 - e < Zdigits2 m ->
  sign (binary_round_aux prec emax s m e loc_Exact) = if s then Lt else Gt.
Proof.
  intros M P E.
  pose proof (Zdigits2_pos m M) as D.
  unfold binary_round_aux.
  pose proof (shr_fexp_locate m 1 e ltac:(lia) ltac:(lia)) as S1.
  rewrite locate_1, Z.div_1_r in S1. cbn [snd] in S1. cbv zeta in S1.
  rewrite (S1 P). clear S1.
  pose proof (fexp64_eq (Zdigits2 m + e)) as F1.
  remember (fexp prec emax (Zdigits2 m + e)) as E1 eqn:HE1.
  assert (N1 : 0 <= E1 - e < Zdigits2 m) by lia.
  destruct (recordOf_loc (locate m (1 * 2 ^ (E1 - e)))) as [-> ->].
  assert (PP1 : 0 < 2 ^ (E1 - e)) by (apply Z.pow_pos_nonneg; lia).
  pose proof (round_nearest_even_locate m (1 * 2 ^ (E1 - e)) ltac:(lia))
    as [[Lo _] _].
  remember (round_nearest_even _ _) as M1 eqn:HM1.
  rewrite Z.mul_1_l in Lo.
  assert (Q : 0 < m / 2 ^ (E1 - e)).
  { pose proof (Zdigits2_shiftr m (E1 - e) M N1) as Dq.
    pose proof (Z.div_pos m (2 ^ (E1 - e)) ltac:(lia) PP1).
    destruct (m / 2 ^ (E1 - e)); simpl in Dq; lia. }
  assert (PM : 0 < M1) by lia.
  assert (DM : Zdigits2 (m / 2 ^ (E1 - e)) <= Zdigits2 M1)
    by (apply Zdigits2_mono; lia).
  rewrite (Zdigits2_shiftr m (E1 - e) M N1) in DM.
  assert (P2 : E1 <= fexp prec emax (Zdigits2 M1 + E1)).
  { rewrite fexp64_eq. lia. }
  pose proof (shr_fexp_locate M1 1 E1 ltac:(lia) ltac:(lia)) as S2.
  rewrite locate_1, Z.div_1_r in S2. cbn [snd] in S2. cbv zeta in S2.
  rewrite (S2 P2). clear S2.
  pose proof (fexp64_eq (Zdigits2 M1 + E1)) as F2.
  remember (fexp prec emax (Zdigits2 M1 + E1)) as E2 eqn:HE2.
  pose proof (Zdigits2_pos M1 PM) as D1.
  assert (N2 : 0 <= E2 - E1 < Zdigits2 M1) by lia.
  destruct (recordOf_loc (locate M1 (1 * 2 ^ (E2 - E1)))) as [-> _].
  unfold locate. cbn [fst]. rewrite Z.mul_1_l.
  assert (PP2 : 0 < 2 ^ (E2 - E1)) by (apply Z.pow_pos_nonneg; lia).
  assert (Q2 : 0 < M1 / 2 ^ (E2 - E1)).
  { pose proof (Zdigits2_shiftr M1 (E2 - E1) PM N2) as Dq.
    pose proof (Z.div_pos M1 (2 ^ (E2 - E1)) ltac:(lia) PP2).
    destruct (M1 / 2 ^ (E2 - E1)); simpl in Dq; lia. }
  destruct (M1 / 2 ^ (E2 - E1)) as [|q|q]; try lia.
  destruct (E2 <=? emax - prec); reflexivity.
Qed.

(** The hundredfold of a Number greater than zero is [Infinity] or a
    finite Number greater than zero. *)
Lemma mul_hundred_shape (x : number) :
  valid_binary prec emax x = true -> ltb zero x = true ->
  mul x (ofZ 100) = Infinity
  \/ exists m e, mul x (ofZ 100) = S754_finite false m e.
Proof.
  intros V P.
  destruct x as [[]|[]| |[] mx ex]; try discriminate; [left; reflexivity|].
  pose proof (valid_finite_inv _ _ _ V) as (D & Ex & _).
  assert (S : sign (mul (S754_finite false mx ex) (ofZ 100)) = Gt).
  { rewrite ofZ_100. unfold mul, SFmul. cbn [xorb].
    set (c := Z.to_pos (100 * 2 ^ 46)).
    assert (Ea : Zpos (mx * c) = 100 * Zpos mx * 2 ^ 46)
      by (unfold c; rewrite Pos2Z.inj_mul; simpl; lia).
    assert (Da : 53 <= Zdigits2 (Zpos (mx * c))).
    { rewrite Ea, Zdigits2_mul_pow2 by lia.
      pose proof (Zdigits2_mono 100 (100 * Zpos mx) ltac:(lia)) as Lo.
      change (Zdigits2 100) with 7 in Lo. lia. }
    apply (binary_round_aux_positive false); [lia | | lia].
    rewrite fexp64_eq. lia. }
  destruct (mul (S754_finite false mx ex) (ofZ 100)) as [s|[]| |[] m e];
    try discriminate; [left; reflexivity | right; now exists m, e].
Qed.

End RoundingFacts.


Module JSArrayFacts.
Import JSNumber JSArray Scenario.

Lemma before_cons {A : Type} (x y z : A) (l : list A) :
  before x y l -> before x y (z :: l).
Proof.
  intros (l1 & l2 & l3 & ->). now exists (z :: l1), l2, l3.
Qed.

Lemma before_head {A : Type} (x y : A) (l : list A) :
  In y l -> before x y (x :: l).
Proof.
  intros H. apply in_split in H as (l2 & l3 & ->). now exists [], l2, l3.
Qed.

Lemma before_inv {A : Type} (x y z : A) (l : list A) :
  before x y (z :: l) -> (x = z /\ In y l) \/ before x y l.
Proof.
  intros (l1 & l2 & l3 & E). destruct l1 as [|w l1]; simpl in E.
  - injection E as -> ->. left. split; [reflexivity|].
    apply in_or_app. right. now left.
  - injection E as -> ->. right. now exists l1, l2, l3.
Qed.

Lemma before_In {A : Type} (x y : A) (l : list A) :
  before x y l -> In x l /\ In y l.
Proof.
  intros (l1 & l2 & l3 & ->). split.
  - apply in_or_app. right. now left.
  - apply in_or_app. right. right. apply in_or_app. right. now left.
Qed.

Lemma before_total {A : Type} (x y : A) (l : list A) :
  In x l -> In y l -> x <> y -> before x y l \/ before y x l.
Proof.
  induction l as [|z l IH]; simpl; [tauto|].
  intros [-> | Hx] [-> | Hy] N.
  - congruence.
  - left. now apply before_head.
  - right. now apply before_head.
  - destruct (IH Hx Hy N); [left | right]; now apply before_cons.
Qed.

Lemma StronglySorted_before {A : Type} (R : A -> A -> Prop) (l : list A) :
  StronglySorted R l -> forall x y, before x y l -> R x y.
Proof.
  induction 1 as [|z l S IH F]; intros x y B.
  - destruct B as (l1 & l2 & l3 & E). now destruct l1.
  - apply before_inv in B as [[-> Hy] | B].
    + rewrite Forall_forall in F. now apply F.
    + now apply IH.
Qed.

Section SortFacts.
Context {A : Type}.
Variable comparefn : A -> A -> number.

Local Abbreviation cmp := (sortCompare comparefn).

Lemma insert_perm (x : A) (l : list A) :
  Permutation (insert comparefn x l) (x :: l).
Proof.
  induction l as [|y l IH]; simpl.
  - reflexivity.
  - destruct (cmp x y); try reflexivity.
    rewrite IH. apply perm_swap.
Qed.

(** Sorting rearranges: nothing is lost, added or duplicated. *)
Lemma sort_perm (l : list A) : Permutation (sort comparefn l) l.
Proof.
  induction l as [|x l IH]; simpl.
  - reflexivity.
  - rewrite insert_perm. now constructor.
Qed.

Lemma insert_keeps_before (x a b : A) (l : list A) :
  before a b l -> before a b (insert comparefn x l).
Proof.
  induction l as [|y l IH]; intros B; simpl.
  - destruct B as (l1 & l2 & l3 & E). now destruct l1.
  - destruct (cmp x y); try now apply before_cons.
    apply before_inv in B as [[-> Hb] | B].
    + apply before_head.
      apply (Permutation_in b (Permutation_sym (insert_perm x l))).
      now right.
    + apply before_cons. now apply IH.
Qed.

(** The inserted element stops in front of every element it does not
    compare greater than. *)
Lemma insert_stops (x y : A) (l : list A) :
  In y l -> cmp x y <> Gt -> before x y (insert comparefn x l).
Proof.
  induction l as [|z l IH]; simpl; [tauto|].
  intros Hy N. destruct (cmp x z) eqn:E.
  - now apply before_head.
  - now apply before_head.
  - destruct Hy as [-> | Hy]; [congruence|].
    apply before_cons. now apply IH.
Qed.

(** Stability: an element never overtakes a later one unless it
    compares greater than it. *)
Lemma sort_keeps_before (a b : A) (l : list A) :
  before a b l -> cmp a b <> Gt -> before a b (sort comparefn l).
Proof.
  induction l as [|x l IH]; intros B N; simpl.
  - destruct B as (l1 & l2 & l3 & E). now destruct l1.
  - apply before_inv in B as [[-> Hb] | B].
    + apply insert_stops; [|exact N].
      now apply (Permutation_in b (Permutation_sym (sort_perm l))).
    + apply insert_keeps_before. now apply IH.
Qed.

(** On a domain [P] where the comparator is a total preorder the result
    is sorted. *)
Section Sorted.
Variable P : A -> Prop.
Hypothesis cmp_trans :
  forall x y z, P x -> P y -> P z ->
    cmp x y <> Gt -> cmp y z <> Gt -> cmp x z <> Gt.
Hypothesis cmp_total :
  forall x y, P x -> P y -> cmp x y = Gt -> cmp y x <> Gt.

Lemma insert_sorted (x : A) (l : list A) :
  P x -> Forall P l ->
  StronglySorted (fun a b => cmp a b <> Gt) l ->
  StronglySorted (fun a b => cmp a b <> Gt) (insert comparefn x l).
Proof.
  intros Px. induction l as [|y l IH]; intros Pl S; simpl.
  - constructor; constructor.
  - inversion Pl as [|? ? Py Pl']; subst.
    inversion S as [|? ? S' F]; subst.
    destruct (cmp x y) eqn:E.
    + constructor; [exact S|]. constructor; [congruence|].
      rewrite Forall_forall in *. intros z Hz.
      apply (cmp_trans x y z); auto. congruence.
    + constructor; [exact S|]. constructor; [congruence|].
      rewrite Forall_forall in *. intros z Hz.
      apply (cmp_trans x y z); auto. congruence.
    + constructor; [now apply IH|].
      rewrite Forall_forall in *. intros z Hz.
      apply (Permutation_in z (insert_perm x l)) in Hz as [<- | Hz].
      * now apply cmp_total.
      * now apply F.
Qed.

Lemma sort_sorted (l : list A) :
  Forall P l -> StronglySorted (fun a b => cmp a b <> Gt) (sort comparefn l).
Proof.
  induction l as [|x l IH]; intros Pl; simpl.
  - constructor.
  - inversion Pl; subst. apply insert_sorted; auto.
    rewrite Forall_forall in *. intros z Hz.
    apply (Permutation_in z (sort_perm l)) in Hz. auto.
Qed.
End Sorted.

End SortFacts.
End JSArrayFacts.

(* ================================================================== *)
(** * Properties of the page *)
(* ================================================================== *)

Module WalletFacts.
Import JSString JSNumber Rounding JSArray Intl Wallet.
Import JSStringFacts JSNumberFacts.

Lemma isEmpty_true (s : jsstring) : isEmpty s = true <-> s = [].
Proof. destruct s; simpl; split; congruence. Qed.

Lemma isEmpty_false (s : jsstring) : isEmpty s = false <-> s <> [].
Proof. destruct s; simpl; split; congruence. Qed.

(** The guard of [handleAdd] in the words of the specification. *)
Lemma rejects_iff (s : State) :
  rejects s = true <->
  (isNaN (parseAmount (formAmount s)) = true
   \/ leb (parseAmount (formAmount s)) zero = true
   \/ forallb isWhiteSpace (formDescription s) = true
   \/ formDate s = []).
Proof.
  unfold rejects. rewrite !orb_true_iff, !isEmpty_true, trim_nil. tauto.
Qed.

Lemma accepts_iff (s : State) :
  rejects s = false <->
  (trim (formDescription s) <> [] /\ formDate s <> []
   /\ ltb zero (parseAmount (formAmount s)) = true).
Proof.
  unfold rejects. rewrite !orb_false_iff, !isEmpty_false, positive_iff. tauto.
Qed.

(** C2.  Whenever the amount input does not parse to a number, or parses
    to a number that is not greater than zero, or the description is
    empty or white space only, or the date is empty, [handleAdd]
    returns the state it was given: the collection and the form fields
    (and everything else) are unchanged. *)
Theorem handleAdd_rejects_silently (env : Env) (s : State) :
  (isNaN (parseAmount (formAmount s)) = true
   \/ leb (parseAmount (formAmount s)) zero = true
   \/ forallb isWhiteSpace (formDescription s) = true
   \/ formDate s = []) ->
  handleAdd env s = s.
Proof.
  intros H. apply rejects_iff in H. unfold handleAdd. now rewrite H.
Qed.

Lemma handleAdd_accepted (env : Env) (s : State) :
  rejects s = false ->
  handleAdd env s =
  resetForm env
    (setExpenses
       (fun prev =>
          {| id := randomUUID env;
             description := trim (formDescription s);
             category := formCategory s;
             date := formDate s;
             amount := round2 (parseAmount (formAmount s)) |} :: prev) s).
Proof. intros H. unfold handleAdd. now rewrite H. Qed.

(** Every amount the page computes is a binary64 value: the parsed
    input, the amount [handleAdd] stores and the amount the row editor
    puts in its working copy. *)
Lemma parseAmount_valid (input : jsstring) :
  valid_binary prec emax (parseAmount input) = true.
Proof. apply RoundingFacts.StringToNumber_valid. Qed.

Lemma round2_valid (x : number) : valid_binary prec emax (round2 x) = true.
Proof. apply RoundingFacts.div_valid. Qed.

Lemma coerceAmount_valid (v : jsstring) :
  valid_binary prec emax (coerceAmount v) = true.
Proof.
  unfold coerceAmount, or. destruct (truthy (parseAmount v));
    [apply parseAmount_valid | reflexivity].
Qed.

(** C1, as amended.  When the description is not empty after trimming,
    the date is not empty and the amount input parses to a number
    greater than zero, [handleAdd] puts exactly one new record in
    front of the collection; the record carries the trimmed
    description, the chosen category and date, the identifier drawn
    from the host, and the amount [Math.round(parsed * 100) / 100] as
    binary64 arithmetic evaluates it.  The product [parsed * 100] is
    [Infinity] or a finite Number.  Whenever it is finite, the amount is
    the input rounded to two decimal places in this sense: it is the
    Number nearest to [n / 100], where [n] is the integer nearest to the
    product, a tie going up.  For a parsed value that is a normal Number
    with a product below [2^52], [n] is what rounding the exact value
    of the parsed input gives, or one more when the product lands on a
    half.  The amount is the parsed input itself whenever the input is
    a decimal [m * 10^e] that makes a whole number [n < 2^49] of
    hundredths, and it is [Infinity] as soon as the product overflows.
    The form goes back to its defaults and the rest of the state is
    untouched. *)
Theorem handleAdd_prepends_rounded (env : Env) (s : State) :
  trim (formDescription s) <> [] ->
  formDate s <> [] ->
  ltb zero (parseAmount (formAmount s)) = true ->
  let parsed := parseAmount (formAmount s) in
  let product := mul parsed (ofZ 100) in
  let s' := handleAdd env s in
  exists next : Expense,
    expenses s' = next :: expenses s
    /\ List.length (expenses s') = S (List.length (expenses s))
    /\ id next = randomUUID env
    /\ description next = trim (formDescription s)
    /\ category next = formCategory s
    /\ date next = formDate s
    /\ amount next = div (Math_round product) (ofZ 100)
    /\ valid_binary prec emax (amount next) = true
    /\ (product = Infinity \/ exists m e, product = S754_finite false m e)
    /\ (forall (m : positive) (e : Z),
          product = S754_finite false m e ->
          exists n : Z,
            0 <= n
            /\ nearestInteger (binaryNum m e) (binaryDen e) n
            /\ amount next = ofDecimal false n (-2))
    /\ (forall (mx : positive) (ex : Z) (m : positive) (e : Z),
          parsed = S754_finite false mx ex -> 2 ^ 52 <= Zpos mx ->
          product = S754_finite false m e -> e < 0 ->
          exists k : Z,
            0 <= k
            /\ nearestInteger (100 * binaryNum mx ex) (binaryDen ex) k
            /\ Scenario.roundedTo2Places parsed = ofDecimal false k (-2)
            /\ (amount next = Scenario.roundedTo2Places parsed
                \/ (2 * binaryNum m e = (2 * k + 1) * binaryDen e
                    /\ amount next = ofDecimal false (k + 1) (-2))))
    /\ (forall (m e : Z) (n : positive),
          0 < m -> Zpos n < 2 ^ 49 ->
          decimalNum m e * 100 = Zpos n * decimalDen e ->
          parsed = ofDecimal false m e ->
          amount next = parsed
          /\ amount next = Scenario.roundedTo2Places parsed)
    /\ (product = Infinity -> amount next = Infinity)
    /\ formDescription s' = [] /\ formCategory s' = Eda
    /\ formDate s' = today env /\ formAmount s' = []
    /\ filterCategory s' = filterCategory s /\ sortKey s' = sortKey s
    /\ sortDir s' = sortDir s /\ editingId s' = editingId s.
Proof.
  intros Hd Ht Hp parsed product s'.
  assert (A : rejects s = false) by (apply accepts_iff; auto).
  assert (Vp : valid_binary prec emax parsed = true) by apply parseAmount_valid.
  subst s'. rewrite (handleAdd_accepted env s A).
  exists {| id := randomUUID env;
            description := trim (formDescription s);
            category := formCategory s;
            date := formDate s;
            amount := round2 parsed |}.
  split; [reflexivity|]. split; [reflexivity|]. split; [reflexivity|].
  split; [reflexivity|]. split; [reflexivity|]. split; [reflexivity|].
  split; [reflexivity|]. cbn [amount].
  split; [apply RoundingFacts.div_valid|].
  split; [exact (RoundingFacts.mul_hundred_shape parsed Vp Hp)|].
  split; [intros m e P; exact (RoundingFacts.round2_of_product parsed m e Vp P)|].
  split.
  { intros mx ex m e X N P E.
    destruct (RoundingFacts.round2_of_product parsed m e Vp P) as (n & _ & Hn & R).
    unfold product in P. rewrite X in P, R |- *.
    rewrite X in Vp.
    destruct (RoundingFacts.product_accuracy mx ex m e Vp N P E)
      as (k & K0 & K & Rk & Acc).
    exists k. split; [exact K0|]. split; [exact K|]. split; [exact Rk|].
    destruct (Acc n Hn) as [->|[-> T]].
    - left. now rewrite R, Rk.
    - right. split; [exact T | exact R]. }
  split.
  { intros m e n M N V ->. split.
    - exact (RoundingFacts.round2_hundredths m e n M N V).
    - rewrite (RoundingFacts.roundedTo2Places_hundredths m e n M N V).
      exact (RoundingFacts.round2_hundredths m e n M N V). }
  split; [unfold round2, product; intros ->; reflexivity|].
  repeat split; reflexivity.
Qed.

(** The specification's example: [" Кофе "] with amount ["199,5"]
    is stored as [199.5]; and ["1.234"], which is no whole number of
    hundredths, is stored as [1.23]. *)
Lemma handleAdd_prepends_rounded_witness :
  let s := Scenario.fill Scenario.coffee (initialState Scenario.env1) in
  let t := Scenario.fill (Scenario.withAmount "1.234")
                         (initialState Scenario.env1) in
  (trim (formDescription s) <> []
   /\ formDate s <> []
   /\ ltb zero (parseAmount (formAmount s)) = true
   /\ exists next,
        expenses (handleAdd Scenario.env1 s) = [next]
        /\ description next = Scenario.kofe
        /\ amount next = StringToNumber (ofAscii "199.5")
        /\ formAmount (handleAdd Scenario.env1 s) = [])
  /\ (ltb zero (parseAmount (formAmount t)) = true
      /\ exists next,
           expenses (handleAdd Scenario.env1 t) = [next]
           /\ amount next = StringToNumber (ofAscii "1.23")).
Proof.
  intros s t. split.
  - assert (H1 : trim (formDescription s) <> []) by (vm_compute; discriminate).
    assert (H2 : formDate s <> []) by (vm_compute; discriminate).
    assert (H3 : ltb zero (parseAmount (formAmount s)) = true)
      by (vm_compute; reflexivity).
    split; [exact H1|]. split; [exact H2|]. split; [exact H3|].
    destruct (handleAdd_prepends_rounded Scenario.env1 s H1 H2 H3)
      as (next & E & _ & _ & D & _ & _ & _ & _ & _ & _ & _ & A & _ & _ & _ & _ & F & _).
    exists next.
    split; [exact E|].
    split; [rewrite D; vm_compute; reflexivity|].
    split; [|exact F].
    destruct (A 1995 (-1) 19950%positive) as [A1 _];
      [lia | vm_compute; reflexivity | reflexivity | vm_compute; reflexivity |].
    rewrite A1. vm_compute. reflexivity.
  - assert (H1 : trim (formDescription t) <> []) by (vm_compute; discriminate).
    assert (H2 : formDate t <> []) by (vm_compute; discriminate).
    assert (H3 : ltb zero (parseAmount (formAmount t)) = true)
      by (vm_compute; reflexivity).
    split; [exact H3|].
    destruct (handleAdd_prepends_rounded Scenario.env1 t H1 H2 H3)
      as (next & E & _ & _ & _ & _ & _ & _ & _ & _ & B & _).
    exists next. split; [exact E|].
    destruct (B 8683503031523738%positive (-46)) as (n & _ & N & ->);
      [vm_compute; reflexivity|].
    assert (Q : n = 123).
    { unfold nearestInteger, binaryNum, binaryDen in N.
      change (2 ^ Z.max 0 (- -46)) with 70368744177664 in N.
      change (2 ^ Z.max 0 (-46)) with 1 in N. lia. }
    rewrite Q. vm_compute. reflexivity.
Defined.

(** C1 as stated fails once the product [parsed * 100] leaves the
    binary64 range: the input ["1e307"] is a positive number that has
    no fractional digits at all, so rounding it to two decimal places
    gives it back, yet the stored amount is [Infinity]. *)
Lemma handleAdd_amount_overflow :
  let s := Scenario.fill (Scenario.withAmount "1e307")
                         (initialState Scenario.env1) in
  let parsed := parseAmount (formAmount s) in
  trim (formDescription s) <> []
  /\ formDate s <> []
  /\ ltb zero parsed = true
  /\ isFinite parsed = true
  /\ Scenario.roundedTo2Places parsed = parsed
  /\ exists next,
       expenses (handleAdd Scenario.env1 s) = [next]
       /\ amount next = Infinity
       /\ amount next <> Scenario.roundedTo2Places parsed.
Proof.
  intros s parsed.
  split; [vm_compute; discriminate|].
  split; [vm_compute; discriminate|].
  split; [vm_compute; reflexivity|].
  split; [vm_compute; reflexivity|].
  split; [vm_compute; reflexivity|].
  eexists. split; [vm_compute; reflexivity|].
  split; [reflexivity | vm_compute; discriminate].
Qed.

(** Below the overflow the product [parsed * 100] is still rounded before
    [Math.round] sees it.  The text ["1.305"] parses to the Number just
    under 1.305, whose exact value rounds to 1.3; its product with 100
    is the Number 130.5, and the stored amount is 1.31. *)
Example round2_rounds_the_product :
  let parsed := parseAmount (ofAscii "1.305") in
  mul parsed (ofZ 100) = StringToNumber (ofAscii "130.5")
  /\ round2 parsed = StringToNumber (ofAscii "1.31")
  /\ Scenario.roundedTo2Places parsed = StringToNumber (ofAscii "1.3").
Proof. vm_compute. repeat split. Qed.

Lemma handleAdd_rejects_silently_witness :
  let s := Scenario.fill (Scenario.withAmount "abc")
                         (initialState Scenario.env1) in
  isNaN (parseAmount (formAmount s)) = true /\ handleAdd Scenario.env1 s = s.
Proof.
  intros s.
  assert (H : isNaN (parseAmount (formAmount s)) = true)
    by (vm_compute; reflexivity).
  split; [exact H|].
  apply handleAdd_rejects_silently. left. exact H.
Defined.

(** The inputs the specification names: ["abc"] does not parse, ["0"]
    and ["-5"] parse to numbers that are not positive; a blank
    description and an empty date are refused as well. *)
Example rejected_inputs :
  let s0 := initialState Scenario.env1 in
  let add f := handleAdd Scenario.env1 (Scenario.fill f s0) in
  parseAmount (ofAscii "abc") = NaN
  /\ parseAmount (ofAscii "0") = zero
  /\ parseAmount (ofAscii "-5") = neg (ofZ 5)
  /\ add (Scenario.withAmount "abc") = Scenario.fill (Scenario.withAmount "abc") s0
  /\ add (Scenario.withAmount "0") = Scenario.fill (Scenario.withAmount "0") s0
  /\ add (Scenario.withAmount "-5") = Scenario.fill (Scenario.withAmount "-5") s0.
Proof. vm_compute. repeat split. Qed.

(** ** Creation order *)

Lemma rejects_fill (ef : Env * Scenario.FormInput) (s : State) :
  rejects (Scenario.fill (snd ef) s) = negb (Scenario.accepted ef).
Proof.
  unfold rejects, Scenario.accepted. cbn [formDescription formDate formAmount Scenario.fill].
  destruct (isEmpty (trim _)); [reflexivity|].
  destruct (isEmpty (Scenario.inDate _)); [reflexivity|].
  cbn [negb andb orb].
  destruct (ltb zero _) eqn:E.
  - apply positive_iff in E as [-> ->]. reflexivity.
  - destruct (isNaN _) eqn:E1; [reflexivity|].
    destruct (leb _ zero) eqn:E2; [reflexivity|].
    assert (ltb zero (parseAmount (Scenario.inAmount (snd ef))) = true)
      by (apply positive_iff; auto).
    congruence.
Qed.

Lemma submit_accepted (ef : Env * Scenario.FormInput) (s : State) :
  Scenario.accepted ef = true ->
  expenses (Scenario.submit ef s) = Scenario.created ef :: expenses s.
Proof.
  intros H. unfold Scenario.submit.
  rewrite handleAdd_accepted by (rewrite rejects_fill, H; reflexivity).
  reflexivity.
Qed.

Lemma run_accepted (efs : list (Env * Scenario.FormInput)) (s : State) :
  Forall (fun ef => Scenario.accepted ef = true) efs ->
  expenses (Scenario.run efs s) = rev (map Scenario.created efs) ++ expenses s.
Proof.
  revert s. induction efs as [|ef efs IH]; intros s F; simpl.
  - reflexivity.
  - inversion F; subst. unfold Scenario.run in *. simpl.
    rewrite IH by assumption. rewrite submit_accepted by assumption.
    now rewrite <- app_assoc.
Qed.

(** C6, as amended.  After any sequence of successful add operations on
    the empty collection the stored collection lists the records from
    newest to oldest: the record created last is first and the record
    created first is last. *)
Theorem stored_order_newest_first
        (env : Env) (efs : list (Env * Scenario.FormInput)) :
  Forall (fun ef => Scenario.accepted ef = true) efs ->
  let stored := expenses (Scenario.run efs (initialState env)) in
  stored = rev (map Scenario.created efs)
  /\ (forall earliest rest, efs = earliest :: rest ->
        last stored (Scenario.created earliest) = Scenario.created earliest)
  /\ (forall rest latest, efs = rest ++ [latest] ->
        hd_error stored = Some (Scenario.created latest)).
Proof.
  intros F stored.
  assert (E : stored = rev (map Scenario.created efs)).
  { subst stored. rewrite run_accepted by assumption. apply app_nil_r. }
  split; [exact E|]. split.
  - intros earliest rest ->. rewrite E. simpl. apply last_last.
  - intros rest latest ->. rewrite E, map_app, rev_app_distr. reflexivity.
Qed.

Lemma stored_order_newest_first_witness :
  let efs := [(Scenario.env1, Scenario.coffee); (Scenario.env2, Scenario.taxi)] in
  Forall (fun ef => Scenario.accepted ef = true) efs
  /\ expenses (Scenario.run efs (initialState Scenario.env1)) =
     [Scenario.created (Scenario.env2, Scenario.taxi);
      Scenario.created (Scenario.env1, Scenario.coffee)].
Proof.
  intros efs.
  assert (F : Forall (fun ef => Scenario.accepted ef = true) efs)
    by (repeat constructor).
  split; [exact F|].
  exact (proj1 (stored_order_newest_first Scenario.env1 efs F)).
Defined.

(** C6 as stated fails: after the coffee and then the taxi are added,
    the earliest record (the coffee) is not first and the latest (the
    taxi) is not last. *)
Lemma stored_order_not_oldest_first :
  let efs := [(Scenario.env1, Scenario.coffee); (Scenario.env2, Scenario.taxi)] in
  let stored := expenses (Scenario.run efs (initialState Scenario.env1)) in
  Forall (fun ef => Scenario.accepted ef = true) efs
  /\ hd_error stored <> Some (Scenario.created (Scenario.env1, Scenario.coffee))
  /\ last stored (Scenario.created (Scenario.env1, Scenario.coffee))
     <> Scenario.created (Scenario.env2, Scenario.taxi).
Proof.
  intros efs stored. split; [repeat constructor|].
  split; vm_compute; discriminate.
Qed.

(** ** Editing *)

Lemma map_replace_absent (u : Expense) (l : list Expense) :
  Forall (fun e => id e <> id u) l ->
  map (fun e => if JSString.eqb (id e) (id u) then u else e) l = l.
Proof.
  induction 1 as [|e l N F IH]; simpl.
  - reflexivity.
  - apply JSStringFacts.eqb_neq in N. now rewrite N, IH.
Qed.

(** C9.  [saveEdit] replaces, position by position, every record whose
    id is the id of the supplied record by the supplied record as a
    whole and keeps every other record where it was; with no such id the
    collection is unchanged, and with exactly one it alone is replaced.
    Only the collection and the edit marker change. *)
Theorem saveEdit_replaces_by_id (updated : Expense) (s : State) :
  let s' := saveEdit updated s in
  List.length (expenses s') = List.length (expenses s)
  /\ (forall i e, nth_error (expenses s) i = Some e ->
        nth_error (expenses s') i =
        Some (if JSString.eqb (id e) (id updated) then updated else e))
  /\ (Forall (fun e => id e <> id updated) (expenses s) ->
        expenses s' = expenses s)
  /\ (forall l1 old l2,
        expenses s = l1 ++ old :: l2 -> id old = id updated ->
        Forall (fun e => id e <> id updated) l1 ->
        Forall (fun e => id e <> id updated) l2 ->
        expenses s' = l1 ++ updated :: l2)
  /\ editingId s' = None
  /\ formDescription s' = formDescription s /\ formCategory s' = formCategory s
  /\ formDate s' = formDate s /\ formAmount s' = formAmount s
  /\ filterCategory s' = filterCategory s /\ sortKey s' = sortKey s
  /\ sortDir s' = sortDir s.
Proof.
  intros s'. subst s'. unfold saveEdit. cbn [expenses setEditingId setExpenses].
  split; [apply length_map|].
  split; [intros i e H; rewrite nth_error_map, H; reflexivity|].
  split; [apply map_replace_absent|].
  split; [|repeat split].
  intros l1 old l2 -> E F1 F2.
  rewrite map_app. cbn [map].
  rewrite !map_replace_absent by assumption.
  rewrite E, JSStringFacts.eqb_refl. reflexivity.
Qed.

Lemma saveEdit_unique (updated old : Expense) (l1 l2 : list Expense) (s : State) :
  expenses s = l1 ++ old :: l2 -> id old = id updated ->
  Forall (fun e => id e <> id updated) l1 ->
  Forall (fun e => id e <> id updated) l2 ->
  expenses (saveEdit updated s) = l1 ++ updated :: l2.
Proof.
  intros E I F1 F2. unfold saveEdit. cbn [expenses setEditingId setExpenses].
  rewrite E, map_app. cbn [map].
  rewrite !map_replace_absent by assumption.
  rewrite I, JSStringFacts.eqb_refl. reflexivity.
Qed.

(** The row of the record being edited. *)
Lemma mountRow_editing (e : Expense) (s : State) :
  isEditing (mountRow (startEdit (id e) s) e) = true.
Proof. cbn. apply JSStringFacts.eqb_refl. Qed.

Lemma commit_editing (r : Row) (s : State) :
  isEditing r = true -> commit r s = saveEdit (local r) s.
Proof. intros H. unfold commit. now rewrite H. Qed.

(** C8.  The edit path validates nothing.  For a record [old] of the
    collection with a unique id, opened for editing: an amount text that
    does not parse as a number is committed as the amount [0], and an
    emptied description is committed as the empty description; in both
    cases the record is stored at its old position. *)
Theorem edit_commits_without_validation
        (s : State) (l1 l2 : list Expense) (old : Expense) (v : jsstring) :
  expenses s = l1 ++ old :: l2 ->
  Forall (fun e => id e <> id old) l1 ->
  Forall (fun e => id e <> id old) l2 ->
  isNaN (parseAmount v) = true ->
  let editing := startEdit (id old) s in
  let row := mountRow editing old in
  expenses (commit (setLocal (fun l => changeAmount l v) row) editing) =
    l1 ++ {| id := id old; description := description old;
             category := category old; date := date old;
             amount := zero |} :: l2
  /\ expenses (commit (setLocal (fun l => changeDescription l []) row) editing) =
    l1 ++ {| id := id old; description := [];
             category := category old; date := date old;
             amount := amount old |} :: l2.
Proof.
  intros E F1 F2 N editing row.
  assert (R : isEditing row = true) by apply mountRow_editing.
  split.
  - rewrite commit_editing by exact R.
    rewrite (saveEdit_unique _ old l1 l2) by (try assumption; reflexivity).
    cbn [local setLocal row mountRow]. unfold changeAmount, coerceAmount.
    destruct (parseAmount v); try discriminate.
    reflexivity.
  - rewrite commit_editing by exact R.
    now rewrite (saveEdit_unique _ old l1 l2) by (try assumption; reflexivity).
Qed.

Lemma sample_expenses :
  expenses Scenario.sampleState =
  [Scenario.rLunch; Scenario.rTaxi; Scenario.rCoffee].
Proof. vm_compute. reflexivity. Qed.

Lemma edit_commits_without_validation_witness :
  let s := Scenario.sampleState in
  let editing := startEdit (id Scenario.rTaxi) s in
  let row := mountRow editing Scenario.rTaxi in
  isNaN (parseAmount (ofAscii "abc")) = true
  /\ expenses (commit (setLocal (fun l => changeAmount l (ofAscii "abc")) row)
                      editing) =
     [Scenario.rLunch;
      {| id := id Scenario.rTaxi; description := ofAscii "Taxi";
         category := Transport; date := ofAscii "2024-01-06";
         amount := zero |};
      Scenario.rCoffee]
  /\ expenses (commit (setLocal (fun l => changeDescription l []) row) editing) =
     [Scenario.rLunch;
      {| id := id Scenario.rTaxi; description := [];
         category := Transport; date := ofAscii "2024-01-06";
         amount := ofZ 1250 |};
      Scenario.rCoffee].
Proof.
  intros s editing row.
  assert (N : isNaN (parseAmount (ofAscii "abc")) = true)
    by (vm_compute; reflexivity).
  split; [exact N|].
  assert (F1 : Forall (fun e => id e <> id Scenario.rTaxi) [Scenario.rLunch])
    by (repeat constructor; vm_compute; discriminate).
  assert (F2 : Forall (fun e => id e <> id Scenario.rTaxi) [Scenario.rCoffee])
    by (repeat constructor; vm_compute; discriminate).
  destruct (edit_commits_without_validation s [Scenario.rLunch]
              [Scenario.rCoffee] Scenario.rTaxi (ofAscii "abc")
              sample_expenses F1 F2 N) as [A D].
  split; [exact A | exact D].
Defined.

Lemma saveEdit_replaces_by_id_witness :
  let updated :=
    {| id := id Scenario.rTaxi; description := ofAscii "Metro";
       category := Transport; date := ofAscii "2024-01-06";
       amount := ofZ 60 |} in
  expenses (saveEdit updated Scenario.sampleState) =
  [Scenario.rLunch; updated; Scenario.rCoffee].
Proof.
  intros updated.
  refine (proj1 (proj2 (proj2 (proj2
            (saveEdit_replaces_by_id updated Scenario.sampleState))))
          [Scenario.rLunch] Scenario.rTaxi [Scenario.rCoffee] _ _ _ _).
  - reflexivity.
  - reflexivity.
  - repeat constructor; vm_compute; discriminate.
  - repeat constructor; vm_compute; discriminate.
Defined.

(** C10.  The coercion [|| 0] of the amount field only replaces [NaN]
    and the zeros: an amount text that parses to a number below zero is
    kept in the working copy as that number and committed to the
    collection, although [handleAdd] refuses the same text. *)
Theorem edit_accepts_negative_amount
        (s : State) (l1 l2 : list Expense) (old : Expense) (v : jsstring) :
  expenses s = l1 ++ old :: l2 ->
  Forall (fun e => id e <> id old) l1 ->
  Forall (fun e => id e <> id old) l2 ->
  ltb (parseAmount v) zero = true ->
  let editing := startEdit (id old) s in
  let row := mountRow editing old in
  coerceAmount v = parseAmount v
  /\ amount (local (setLocal (fun l => changeAmount l v) row)) = parseAmount v
  /\ expenses (commit (setLocal (fun l => changeAmount l v) row) editing) =
       l1 ++ {| id := id old; description := description old;
                category := category old; date := date old;
                amount := parseAmount v |} :: l2
  /\ (forall env st, formAmount st = v -> handleAdd env st = st).
Proof.
  intros E F1 F2 N editing row.
  assert (C : coerceAmount v = parseAmount v).
  { unfold coerceAmount, or. now rewrite negative_truthy. }
  assert (R : isEditing row = true) by apply mountRow_editing.
  split; [exact C|]. split; [exact C|]. split.
  - rewrite commit_editing by exact R.
    rewrite (saveEdit_unique _ old l1 l2) by (try assumption; reflexivity).
    cbn [local setLocal row mountRow]. unfold changeAmount. now rewrite C.
  - intros env st <-. unfold handleAdd.
    assert (G : rejects st = true).
    { apply rejects_iff. right. left. now apply negative_not_positive. }
    now rewrite G.
Qed.

Lemma edit_accepts_negative_amount_witness :
  let s := Scenario.sampleState in
  let editing := startEdit (id Scenario.rTaxi) s in
  let row := mountRow editing Scenario.rTaxi in
  ltb (parseAmount (ofAscii "-5,5")) zero = true
  /\ expenses (commit (setLocal (fun l => changeAmount l (ofAscii "-5,5")) row)
                      editing) =
     [Scenario.rLunch;
      {| id := id Scenario.rTaxi; description := ofAscii "Taxi";
         category := Transport; date := ofAscii "2024-01-06";
         amount := StringToNumber (ofAscii "-5.5") |};
      Scenario.rCoffee].
Proof.
  intros s editing row.
  assert (N : ltb (parseAmount (ofAscii "-5,5")) zero = true)
    by (vm_compute; reflexivity).
  split; [exact N|].
  assert (F1 : Forall (fun e => id e <> id Scenario.rTaxi) [Scenario.rLunch])
    by (repeat constructor; vm_compute; discriminate).
  assert (F2 : Forall (fun e => id e <> id Scenario.rTaxi) [Scenario.rCoffee])
    by (repeat constructor; vm_compute; discriminate).
  destruct (edit_accepts_negative_amount s [Scenario.rLunch]
              [Scenario.rCoffee] Scenario.rTaxi (ofAscii "-5,5")
              sample_expenses F1 F2 N) as (_ & _ & A & _).
  exact A.
Defined.

(** ** The projection *)

Lemma CategoryKey_eqb_eq (a b : CategoryKey) :
  CategoryKey_eqb a b = true <-> a = b.
Proof. destruct a, b; simpl; split; congruence. Qed.

Lemma count_occ_filter (f : Expense -> bool) (l : list Expense) (r : Expense) :
  count_occ Scenario.Expense_eq_dec (filter f l) r =
  if f r then count_occ Scenario.Expense_eq_dec l r else 0%nat.
Proof.
  induction l as [|e l IH]; simpl.
  - now destruct (f r).
  - destruct (f e) eqn:Fe; simpl;
      destruct (Scenario.Expense_eq_dec e r) as [->|N]; rewrite IH.
    + now rewrite Fe.
    + reflexivity.
    + now rewrite Fe.
    + reflexivity.
Qed.

Lemma project_perm {C : Collator} (es : list Expense) (f : CategoryFilter)
      (key : SortKey) (dir : SortDir) :
  Permutation (project es f key dir) (byCategory f es).
Proof. apply JSArrayFacts.sort_perm. Qed.

(** C3.  With a category as the filter every record of the projection
    has that category, and the projection holds the records of the
    collection with that category, each as often as the collection
    does; with the filter [Все] it holds all records of the collection,
    each as often as the collection does.  In a collection without
    repeated records that is exactly once. *)
Theorem projection_filter_correct {C : Collator}
        (es : list Expense) (key : SortKey) (dir : SortDir) :
  (forall c,
      let out := project es (Only c) key dir in
      Forall (fun r => category r = c) out
      /\ Permutation out (filter (fun e => CategoryKey_eqb (category e) c) es)
      /\ (forall r, category r = c ->
            count_occ Scenario.Expense_eq_dec out r =
            count_occ Scenario.Expense_eq_dec es r)
      /\ (NoDup es -> forall r, In r es -> category r = c ->
            count_occ Scenario.Expense_eq_dec out r = 1%nat))
  /\ (let out := project es Vse key dir in
      Permutation out es
      /\ (forall r, count_occ Scenario.Expense_eq_dec out r =
                    count_occ Scenario.Expense_eq_dec es r)
      /\ (NoDup es -> forall r, In r es ->
            count_occ Scenario.Expense_eq_dec out r = 1%nat)).
Proof.
  split.
  - intros c out.
    assert (P : Permutation out (filter (fun e => CategoryKey_eqb (category e) c) es))
      by apply project_perm.
    assert (K : forall r, category r = c ->
                count_occ Scenario.Expense_eq_dec out r =
                count_occ Scenario.Expense_eq_dec es r).
    { intros r Hr.
      rewrite (Permutation_count_occ Scenario.Expense_eq_dec) in P.
      rewrite P, count_occ_filter.
      apply CategoryKey_eqb_eq in Hr. now rewrite Hr. }
    split; [|split; [exact P|split; [exact K|]]].
    + rewrite Forall_forall. intros r Hr.
      apply (Permutation_in r P) in Hr. apply filter_In in Hr as [_ Hr].
      now apply CategoryKey_eqb_eq.
    + intros ND r Hr Hc. rewrite K by exact Hc.
      now apply (NoDup_count_occ' Scenario.Expense_eq_dec).
  - intros out.
    assert (P : Permutation out es) by apply project_perm.
    split; [exact P|]. split.
    + intros r. now apply (Permutation_count_occ Scenario.Expense_eq_dec).
    + intros ND r Hr.
      rewrite (Permutation_count_occ Scenario.Expense_eq_dec) in P. rewrite P.
      now apply (NoDup_count_occ' Scenario.Expense_eq_dec).
Qed.

Lemma projection_filter_correct_witness :
  let out := @project codeUnitCollator (expenses Scenario.sampleState)
                      (Only Eda) SortAmount Asc in
  NoDup (expenses Scenario.sampleState)
  /\ Forall (fun r => category r = Eda) out
  /\ count_occ Scenario.Expense_eq_dec out Scenario.rCoffee = 1%nat
  /\ count_occ Scenario.Expense_eq_dec out Scenario.rLunch = 1%nat
  /\ count_occ Scenario.Expense_eq_dec out Scenario.rTaxi = 0%nat.
Proof.
  intros out.
  assert (ND : NoDup (expenses Scenario.sampleState)).
  { vm_compute. repeat constructor; simpl; intuition discriminate. }
  destruct (@projection_filter_correct codeUnitCollator
              (expenses Scenario.sampleState) SortAmount Asc) as [H _].
  destruct (H Eda) as (A & _ & _ & B).
  split; [exact ND|]. split; [exact A|].
  split; [apply (B ND); [vm_compute; right; right; left; reflexivity
                        | vm_compute; reflexivity]|].
  split; [apply (B ND); [vm_compute; left; reflexivity
                        | vm_compute; reflexivity]|].
  vm_compute. reflexivity.
Defined.

Lemma sortCompare_sign {A : Type} (f : A -> A -> number) (x y : A) :
  sortCompare f x y = sign (f x y).
Proof. reflexivity. Qed.

Lemma sign_neg (x : number) : sign (neg x) = CompOpp (sign x).
Proof. destruct x as [s|s| |s m e]; try destruct s; reflexivity. Qed.

Lemma sign_ofComparison (c : comparison) : sign (ofComparison c) = c.
Proof. destruct c; reflexivity. Qed.

Lemma byCategory_Forall (P : Expense -> Prop) (f : CategoryFilter)
      (es : list Expense) :
  Forall P es -> Forall P (byCategory f es).
Proof.
  destruct f as [|c]; simpl; [trivial|].
  rewrite !Forall_forall. intros H x Hx. apply filter_In in Hx. now apply H.
Qed.


End WalletFacts.

(* ================================================================== *)
(** * Properties of persistence *)
(* ================================================================== *)

Module PersistenceFacts.
Import JSString JSNumber JSON Wallet Persistence JSONFacts.

(** ** String literals *)

Lemma parseString_literal (c : code_unit) (r : jsstring) :
  c <> 34%N -> c <> 92%N ->
  parseString (c :: r) =
  if ((c <? 32) || (c =? 92))%N then None
  else match parseString r with
       | Some (t, r') => Some (c :: t, r')
       | None => None
       end.
Proof.
  intros N1 N2. destruct c as [|p]; [reflexivity|].
  do 8 (try (destruct p as [p|p|]; try reflexivity)); congruence.
Qed.

Lemma parseString_u (a b c d : code_unit) (r : jsstring) :
  parseString (92%N :: 117%N :: a :: b :: c :: d :: r) =
  match hex4 a b c d, parseString r with
  | Some u, Some (t, r') => Some (u :: t, r')
  | _, _ => None
  end.
Proof. reflexivity. Qed.

Lemma digitOfBase_hexDigit (d : N) :
  (d < 16)%N -> digitOfBase 16 (hexDigit d) = Some d.
Proof.
  intros H.
  assert (C : (d = 0 \/ d = 1 \/ d = 2 \/ d = 3 \/ d = 4 \/ d = 5 \/ d = 6
               \/ d = 7 \/ d = 8 \/ d = 9 \/ d = 10 \/ d = 11 \/ d = 12
               \/ d = 13 \/ d = 14 \/ d = 15)%N) by lia.
  repeat (destruct C as [->|C]; [reflexivity|]). subst. reflexivity.
Qed.

Lemma hex4_unicodeEscape (c : code_unit) :
  (c < 65536)%N ->
  hex4 (hexDigit (c / 4096)) (hexDigit ((c / 256) mod 16))
       (hexDigit ((c / 16) mod 16)) (hexDigit (c mod 16)) = Some c.
Proof.
  intros H. unfold hex4.
  rewrite !digitOfBase_hexDigit;
    try (apply N.mod_lt; lia);
    try (apply N.Div0.div_lt_upper_bound; lia).
  f_equal.
  pose proof (N.div_mod' c 16) as E0.
  pose proof (N.div_mod' (c / 16) 16) as E1.
  pose proof (N.div_mod' (c / 256) 16) as E2.
  replace (c / 16 / 16)%N with (c / 256)%N in E1
    by (rewrite N.Div0.div_div; reflexivity).
  replace (c / 256 / 16)%N with (c / 4096)%N in E2
    by (rewrite N.Div0.div_div; reflexivity).
  lia.
Qed.

Lemma parseString_escape (c : code_unit) (r : jsstring) :
  (c < 65536)%N ->
  parseString (unicodeEscape c ++ r) =
  match parseString r with
  | Some (t, r') => Some (c :: t, r')
  | None => None
  end.
Proof.
  intros H. unfold unicodeEscape. cbn [app].
  rewrite parseString_u, (hex4_unicodeEscape c H). reflexivity.
Qed.

Lemma surrogate_bounds (c : code_unit) :
  isLeadingSurrogate c = true \/ isTrailingSurrogate c = true ->
  (55296 <= c < 65536)%N.
Proof.
  unfold isLeadingSurrogate, isTrailingSurrogate.
  rewrite !andb_true_iff, !N.leb_le. lia.
Qed.

Lemma parseString_surrogate (c : code_unit) (r : jsstring) :
  isLeadingSurrogate c = true \/ isTrailingSurrogate c = true ->
  parseString (c :: r) =
  match parseString r with
  | Some (t, r') => Some (c :: t, r')
  | None => None
  end.
Proof.
  intros H. apply surrogate_bounds in H.
  rewrite parseString_literal by lia.
  assert (E : ((c <? 32) || (c =? 92) = false)%N).
  { apply orb_false_iff. split; [apply N.ltb_ge | apply N.eqb_neq]; lia. }
  now rewrite E.
Qed.

Lemma parseString_unit (c : code_unit) (r : jsstring) :
  parseString (quoteUnit c ++ r) =
  match parseString r with
  | Some (t, r') => Some (c :: t, r')
  | None => None
  end.
Proof.
  unfold quoteUnit.
  destruct (c =? 8)%N eqn:E8; [apply N.eqb_eq in E8; subst; reflexivity|].
  destruct (c =? 9)%N eqn:E9; [apply N.eqb_eq in E9; subst; reflexivity|].
  destruct (c =? 10)%N eqn:E10; [apply N.eqb_eq in E10; subst; reflexivity|].
  destruct (c =? 12)%N eqn:E12; [apply N.eqb_eq in E12; subst; reflexivity|].
  destruct (c =? 13)%N eqn:E13; [apply N.eqb_eq in E13; subst; reflexivity|].
  destruct (c =? 34)%N eqn:E34; [apply N.eqb_eq in E34; subst; reflexivity|].
  destruct (c =? 92)%N eqn:E92; [apply N.eqb_eq in E92; subst; reflexivity|].
  apply N.eqb_neq in E34, E92.
  destruct ((c <? 32)%N || isLeadingSurrogate c || isTrailingSurrogate c) eqn:E.
  - apply parseString_escape.
    apply orb_true_iff in E as [E|E]; [apply orb_true_iff in E as [E|E]|].
    + apply N.ltb_lt in E. lia.
    + apply (surrogate_bounds c). now left.
    + apply (surrogate_bounds c). now right.
  - apply orb_false_iff in E as [E _]. apply orb_false_iff in E as [E _].
    cbn [app]. rewrite parseString_literal by assumption.
    assert (E' : ((c <? 32) || (c =? 92) = false)%N)
      by (rewrite E; now apply N.eqb_neq in E92; rewrite E92).
    now rewrite E'.
Qed.

Lemma parseString_quoteBody_bounded (n : nat) (s rest : jsstring) :
  (List.length s <= n)%nat ->
  parseString (quoteBody s ++ 34%N :: rest) = Some (s, rest).
Proof.
  revert s. induction n as [|n IH]; intros s L.
  - destruct s; [reflexivity | simpl in L; lia].
  - destruct s as [|c s']; [reflexivity|]. cbn [List.length] in L.
    cbn [quoteBody]. destruct (isLeadingSurrogate c) eqn:Lc.
    + destruct s' as [|d s''].
      * rewrite parseString_escape by (apply (surrogate_bounds c); now left).
        reflexivity.
      * cbn [List.length] in L. destruct (isTrailingSurrogate d) eqn:Td.
        -- cbn [app]. rewrite parseString_surrogate by now left.
           rewrite parseString_surrogate by now right.
           rewrite IH by lia. reflexivity.
        -- rewrite <- app_assoc.
           rewrite parseString_escape by (apply (surrogate_bounds c); now left).
           rewrite IH by (cbn [List.length]; lia). reflexivity.
    + rewrite <- app_assoc, parseString_unit, IH by lia. reflexivity.
Qed.

(** A quoted string reads back as the string. *)
Lemma parseString_quoteBody (s rest : jsstring) :
  parseString (quoteBody s ++ 34%N :: rest) = Some (s, rest).
Proof. now apply (parseString_quoteBody_bounded (List.length s)). Qed.

(** ** Values *)

Lemma parseValue_string (f : nat) (s rest : jsstring) :
  parseValue (S f) (quote s ++ rest) = Some (VString s, rest).
Proof.
  unfold quote. cbn [app parseValue skipWs].
  change (isJSONWhiteSpace 34%N) with false. cbv iota.
  rewrite <- app_assoc. cbn [app]. now rewrite parseString_quoteBody.
Qed.

Lemma spanNumber_app (t r : jsstring) :
  forallb isNumberChar t = true -> noNumberHead r -> spanNumber (t ++ r) = (t, r).
Proof.
  intros D H. induction t as [|c t IH]; cbn [app spanNumber forallb] in *.
  - destruct r as [|c r]; [reflexivity|]. cbn [spanNumber]. cbn [noNumberHead] in H.
    now rewrite H.
  - apply andb_true_iff in D as [Dc D]. rewrite Dc, (IH D). reflexivity.
Qed.

Lemma parseValue_numberText (f : nat) (t rest : jsstring) :
  forallb isNumberChar t = true ->
  (exists c r, t = c :: r /\ (isDigit c = true \/ c = 45%N)) ->
  validNumber t = true -> noNumberHead rest ->
  parseValue (S f) (t ++ rest) = Some (VNumber (StringToNumber t), rest).
Proof.
  intros C (c & r & E & Hc) V NH.
  assert (R : (let (n, r0) := spanNumber (t ++ rest) in
               if validNumber n then Some (VNumber (StringToNumber n), r0) else None)
              = Some (VNumber (StringToNumber t), rest)).
  { now rewrite (spanNumber_app t rest C NH), V. }
  rewrite E in *. cbn [app] in *.
  assert (K : (c = 48 \/ c = 49 \/ c = 50 \/ c = 51 \/ c = 52 \/ c = 53
               \/ c = 54 \/ c = 55 \/ c = 56 \/ c = 57 \/ c = 45)%N).
  { destruct Hc as [D| ->]; [|lia]. unfold isDigit in D.
    apply andb_true_iff in D as [D1 D2]. apply N.leb_le in D1, D2. lia. }
  destruct K as [->|[->|[->|[->|[->|[->|[->|[->|[->|[->| ->]]]]]]]]]];
    exact R.
Qed.

Lemma parseValue_number (f : nat) (x : number) (rest : jsstring) :
  valid_binary prec emax x = true -> isFinite x = true ->
  noNumberHead rest ->
  parseValue (S f) (Number_toString x ++ rest) =
  Some (VNumber (positiveZero x), rest).
Proof.
  intros V F NH. rewrite <- (StringToNumber_toString x V F).
  destruct x as [s|s| |s m e]; try discriminate.
  - apply parseValue_numberText; try reflexivity; [|exact NH].
    exists 48%N, []. split; [reflexivity | now left].
  - destruct (toString_finite_shape s m e V) as (ip & fp & ex & E & W & _).
    pose proof (decimalText_chars ip fp ex W) as C.
    destruct (decimalText_head ip fp ex W) as (c & r & Eh & D).
    rewrite E. apply parseValue_numberText; [| | |exact NH].
    + destruct s; cbn [app forallb]; [now rewrite C | exact C].
    + destruct s; cbn [app].
      * exists 45%N, (decimalText ip fp ex). split; [reflexivity | now right].
      * exists c, r. split; [exact Eh | now left].
    + destruct s; cbn [app].
      * now apply validNumber_signed.
      * now apply validNumber_unsigned.
Qed.

(** ** Objects and arrays *)

Lemma parseMembers_string_more (f : nat) (k s more rest' : jsstring)
      (ps : list (jsstring * value)) :
  parseMembers (S f) more = Some (ps, rest') ->
  parseMembers (S (S f)) (quote k ++ 58%N :: quote s ++ 44%N :: more) =
  Some ((k, VString s) :: ps, rest').
Proof.
  intros Hm. remember (S f) as g eqn:G.
  unfold quote at 1. cbn [app parseMembers skipWs].
  change (isJSONWhiteSpace 34%N) with false. cbv iota.
  rewrite <- app_assoc. cbn [app]. rewrite parseString_quoteBody.
  cbn [skipWs]. change (isJSONWhiteSpace 58%N) with false. cbv iota.
  replace (parseValue g (quote s ++ 44%N :: more))
    with (Some (VString s, 44%N :: more))
    by (subst g; symmetry; apply parseValue_string).
  cbn [skipWs]. change (isJSONWhiteSpace 44%N) with false. cbv iota.
  now rewrite Hm.
Qed.

Lemma parseMembers_number_last (f : nat) (k rest : jsstring) (x : number) :
  valid_binary prec emax x = true -> isFinite x = true ->
  parseMembers (S (S f)) (quote k ++ 58%N :: Number_toString x ++ 125%N :: rest) =
  Some ([(k, VNumber (positiveZero x))], rest).
Proof.
  intros V F. remember (S f) as g eqn:G.
  unfold quote at 1. cbn [app parseMembers skipWs].
  change (isJSONWhiteSpace 34%N) with false. cbv iota.
  rewrite <- app_assoc. cbn [app]. rewrite parseString_quoteBody.
  cbn [skipWs]. change (isJSONWhiteSpace 58%N) with false. cbv iota.
  replace (parseValue g (Number_toString x ++ 125%N :: rest))
    with (Some (VNumber (positiveZero x), 125%N :: rest))
    by (subst g; symmetry; now apply parseValue_number).
  cbn [skipWs]. change (isJSONWhiteSpace 125%N) with false. reflexivity.
Qed.

Lemma parseValue_object (f : nat) (k more rest : jsstring)
      (ps : list (jsstring * value)) :
  parseMembers f (quote k ++ more) = Some (ps, rest) ->
  parseValue (S f) (123%N :: quote k ++ more) = Some (makeObject ps, rest).
Proof.
  intros H. destruct f as [|f']; [discriminate|].
  remember (S f') as g eqn:G. unfold quote in *. cbn [app] in *.
  cbn [parseValue skipWs].
  change (isJSONWhiteSpace 123%N) with false. cbv iota.
  change (isJSONWhiteSpace 34%N) with false. cbv iota.
  now rewrite H.
Qed.

Lemma stringify_toValue (e : Expense) (rest : jsstring) :
  isFinite (amount e) = true ->
  stringify (toValue e) ++ rest = expenseText e rest.
Proof.
  intros F. unfold toValue, expenseText. cbn [stringify map joinComma fst snd].
  rewrite F. repeat (cbn [app]; rewrite <- ?app_assoc). reflexivity.
Qed.

Lemma parseValue_expense (f : nat) (e : Expense) (rest : jsstring) :
  storable e ->
  parseValue (7 + f) (expenseText e rest) = Some (toValue (reloaded e), rest).
Proof.
  intros [V F]. unfold expenseText.
  change (7 + f)%nat with (S (S (S (S (S (S (S f))))))).
  erewrite parseValue_object; cycle 1.
  { erewrite parseMembers_string_more; [reflexivity|].
    erewrite parseMembers_string_more; [reflexivity|].
    erewrite parseMembers_string_more; [reflexivity|].
    erewrite parseMembers_string_more; [reflexivity|].
    now apply parseMembers_number_last. }
  reflexivity.
Qed.

Lemma parseValue_expense_ge (g : nat) (e : Expense) (rest : jsstring) :
  storable e -> (7 <= g)%nat ->
  parseValue g (expenseText e rest) = Some (toValue (reloaded e), rest).
Proof.
  intros S L. replace g with (7 + (g - 7))%nat by lia.
  now apply parseValue_expense.
Qed.

Lemma joinComma_single (x : jsstring) : joinComma [x] = x.
Proof. reflexivity. Qed.

Lemma joinComma_cons (x y : jsstring) (l : list jsstring) :
  joinComma (x :: y :: l) = x ++ 44%N :: joinComma (y :: l).
Proof. reflexivity. Qed.

Lemma elementsText_cons (e e' : Expense) (tl : list Expense) (rest : jsstring) :
  elementsText (e :: e' :: tl) rest =
  expenseText e (44%N :: elementsText (e' :: tl) rest).
Proof. reflexivity. Qed.

Lemma joinComma_elementsText (es : list Expense) (rest : jsstring) :
  es <> [] -> Forall storable es ->
  joinComma (map stringify (map toValue es)) ++ 93%N :: rest =
  elementsText es rest.
Proof.
  induction es as [|e es IH]; intros NE St; [congruence|].
  inversion St as [|? ? Se Ss]; subst.
  destruct es as [|e' es'].
  - rewrite !map_cons, joinComma_single. apply stringify_toValue, Se.
  - rewrite elementsText_cons, <- IH by (auto; discriminate).
    rewrite (map_cons toValue e), (map_cons toValue e'), !(map_cons stringify).
    rewrite joinComma_cons, <- app_assoc, <- app_comm_cons.
    rewrite (stringify_toValue e) by apply Se.
    rewrite ?map_cons. reflexivity.
Qed.

Lemma parseElements_single (g : nat) (e : Expense) (rest : jsstring) :
  storable e -> (7 <= g)%nat ->
  parseElements (S g) (expenseText e (93%N :: rest)) =
  Some ([toValue (reloaded e)], rest).
Proof.
  intros Se L. cbn [parseElements].
  rewrite (parseValue_expense_ge g e _ Se) by lia.
  cbn [skipWs]. change (isJSONWhiteSpace 93%N) with false. reflexivity.
Qed.

Lemma parseElements_more (g : nat) (e : Expense) (more rest : jsstring)
      (vs : list value) :
  storable e -> (7 <= g)%nat ->
  parseElements g more = Some (vs, rest) ->
  parseElements (S g) (expenseText e (44%N :: more)) =
  Some (toValue (reloaded e) :: vs, rest).
Proof.
  intros Se L H. cbn [parseElements].
  rewrite (parseValue_expense_ge g e _ Se) by lia.
  cbn [skipWs]. change (isJSONWhiteSpace 44%N) with false. cbv iota.
  now rewrite H.
Qed.

Lemma parseElements_expenses (es : list Expense) (f : nat) (rest : jsstring) :
  es <> [] -> Forall storable es ->
  parseElements (List.length es + 7 + f) (elementsText es rest) =
  Some (map toValue (map reloaded es), rest).
Proof.
  induction es as [|e es IH]; intros NE St; [congruence|].
  inversion St as [|? ? Se Ss]; subst.
  destruct es as [|e' es'].
  - apply parseElements_single; [exact Se | lia].
  - rewrite elementsText_cons.
    change (List.length (e :: e' :: es') + 7 + f)%nat
      with (S (List.length (e' :: es') + 7 + f)).
    rewrite (map_cons reloaded e), (map_cons toValue).
    apply parseElements_more; [exact Se | lia |].
    apply IH; [discriminate | exact Ss].
Qed.

Lemma stringify_toValue_length (e : Expense) :
  (2 <= List.length (stringify (toValue e)))%nat.
Proof.
  unfold toValue. cbn [stringify]. cbn [List.length]. rewrite length_app.
  cbn [List.length]. lia.
Qed.

Lemma joinComma_length (es : list Expense) :
  (2 * List.length es <=
   List.length (joinComma (map stringify (map toValue es))))%nat.
Proof.
  induction es as [|e es IH]; [simpl; lia|].
  pose proof (stringify_toValue_length e) as L.
  destruct es as [|e' es'].
  - rewrite !map_cons, joinComma_single. cbn [List.length]. lia.
  - rewrite (map_cons toValue e), (map_cons toValue e'), !(map_cons stringify).
    rewrite joinComma_cons, length_app.
    rewrite (map_cons toValue e'), (map_cons stringify) in IH.
    cbn [List.length] in *. lia.
Qed.

Lemma categoryOfLabel_label (c : CategoryKey) :
  categoryOfLabel (categoryLabel c) = Some c.
Proof. destruct c; reflexivity. Qed.

Lemma asExpense_toValue (e : Expense) : asExpense (toValue e) = Some e.
Proof.
  destruct e as [i d c t a]. unfold toValue, asExpense.
  cbn [id description category date amount].
  change (getProperty (ofAscii "id") _) with (Some (VString i)).
  change (getProperty (ofAscii "description") _) with (Some (VString d)).
  change (getProperty (ofAscii "category") _) with (Some (VString (categoryLabel c))).
  change (getProperty (ofAscii "date") _) with (Some (VString t)).
  change (getProperty (ofAscii "amount") _) with (Some (VNumber a)).
  cbv iota. now rewrite categoryOfLabel_label.
Qed.

Lemma asExpenses_toValue (es : list Expense) :
  asExpenses (map toValue es) = Some es.
Proof.
  induction es as [|e es IH]; [reflexivity|].
  cbn [map asExpenses]. now rewrite asExpense_toValue, IH.
Qed.

(** Parsing what [JSON.stringify] wrote for a collection gives the
    collection back. *)
Lemma parse_stringify_expenses (es : list Expense) :
  Forall storable es ->
  parse (stringify (VArray (map toValue es))) =
  Some (VArray (map toValue (map reloaded es))).
Proof.
  intros St. destruct es as [|e es']; [reflexivity|].
  remember (e :: es') as es eqn:E.
  assert (NE : es <> []) by (subst; discriminate).
  cbn [stringify].
  pose proof (joinComma_length es) as L.
  pose proof (joinComma_elementsText es [] NE St) as T.
  assert (H : exists b, elementsText es [] = 123%N :: b).
  { subst es. destruct es'; eexists; reflexivity. }
  destruct H as [b Hb].
  unfold parse.
  match goal with |- context [parseValue ?k _] => remember k as fuel eqn:EF end.
  assert (F : exists f, fuel = S (List.length es + 7 + f)).
  { exists (fuel - S (List.length es + 7))%nat. subst fuel.
    cbn [List.length]. rewrite length_app. cbn [List.length].
    destruct es; [congruence|]. cbn [List.length] in *. lia. }
  destruct F as [f ->].
  match goal with
  | |- context [parseValue _ (91%N :: ?t)] =>
      replace t with (elementsText es []) by (symmetry; exact T)
  end.
  remember (List.length es + 7 + f)%nat as g eqn:G.
  cbn [parseValue skipWs]. change (isJSONWhiteSpace 91%N) with false. cbv iota.
  rewrite Hb. cbn [skipWs]. change (isJSONWhiteSpace 123%N) with false.
  cbv iota. rewrite <- Hb. subst g.
  rewrite (parseElements_expenses es f [] NE St).
  reflexivity.
Qed.

Lemma positiveZero_same (x : number) :
  valid_binary prec emax x = true -> isFinite x = true ->
  SFeqb (positiveZero x) x = true.
Proof.
  destruct x as [s|s| |s m e]; try discriminate; intros _ _.
  - reflexivity.
  - unfold SFeqb, SFcompare. cbn [positiveZero].
    rewrite Z.compare_refl, Pos.compare_cont_refl. now destruct s.
Qed.

Lemma reloaded_same (e : Expense) :
  amount e <> S754_zero true -> reloaded e = e.
Proof.
  destruct e as [i d c t a]. unfold reloaded. cbn [id description category date amount].
  intros N. f_equal. destruct a as [[|]| | |]; try reflexivity. congruence.
Qed.

Lemma map_reloaded_same (es : list Expense) :
  Forall (fun e => amount e <> S754_zero true) es -> map reloaded es = es.
Proof.
  induction 1 as [|e es N F IH]; [reflexivity|].
  cbn [map]. now rewrite reloaded_same, IH.
Qed.

Lemma restore_persist (es : list Expense) (s s0 : State) :
  expenses s = es -> Forall storable es ->
  restore (persist s) s0 = Replaced (setExpenses (fun _ => map reloaded es) s0).
Proof.
  intros E St. unfold persist. rewrite E.
  pose proof (parse_stringify_expenses es St) as P.
  remember (stringify (VArray (map toValue es))) as text eqn:T.
  assert (H : exists b, text = 91%N :: b) by (subst text; eexists; reflexivity).
  destruct H as [b Hb]. rewrite Hb in *. unfold restore. cbv beta iota.
  rewrite P. now rewrite asExpenses_toValue.
Qed.

(** C7, as amended.  For every collection whose amounts are finite
    binary64 numbers, the empty collection included, what the second
    effect writes to the storage slot is read back by the first effect
    as a collection of the same length with, record by record, the same
    id, description, category and date and an amount equal as a number;
    the only value that changes its representation is the negative zero
    [-0], which comes back as [0], so a collection without [-0] comes
    back identical. *)
Theorem persistence_round_trip (s s0 : State) :
  Forall storable (expenses s) ->
  restore (persist s) s0 =
    Replaced (setExpenses (fun _ => map reloaded (expenses s)) s0)
  /\ List.length (map reloaded (expenses s)) = List.length (expenses s)
  /\ Forall (fun e =>
               id (reloaded e) = id e
               /\ description (reloaded e) = description e
               /\ category (reloaded e) = category e
               /\ date (reloaded e) = date e
               /\ SFeqb (amount (reloaded e)) (amount e) = true)
            (expenses s)
  /\ (Forall (fun e => amount e <> S754_zero true) (expenses s) ->
      restore (persist s) s0 = Replaced (setExpenses (fun _ => expenses s) s0)).
Proof.
  intros St.
  assert (R := restore_persist (expenses s) s s0 eq_refl St).
  split; [exact R|]. split; [apply length_map|]. split.
  - rewrite Forall_forall in *. intros e He. repeat split.
    destruct (St e He) as [V F]. now apply positiveZero_same.
  - intros NZ. rewrite R. now rewrite map_reloaded_same.
Qed.

Lemma persistence_round_trip_witness :
  Forall storable (expenses Scenario.sampleState)
  /\ restore (persist Scenario.sampleState) (initialState Scenario.env2) =
     Replaced (setExpenses (fun _ => expenses Scenario.sampleState)
                           (initialState Scenario.env2))
  /\ restore (persist (initialState Scenario.env1)) Scenario.sampleState =
     Replaced (setExpenses (fun _ => []) Scenario.sampleState).
Proof.
  assert (F : Forall storable (expenses Scenario.sampleState))
    by (vm_compute; repeat constructor).
  split; [exact F|]. split.
  - apply (persistence_round_trip Scenario.sampleState
             (initialState Scenario.env2) F).
    vm_compute. repeat constructor; discriminate.
  - apply (persistence_round_trip (initialState Scenario.env1)
             Scenario.sampleState (Forall_nil _)).
    constructor.
Defined.

(** C7 as stated fails for a collection the page itself can build: the
    record added with the amount text ["1e307"] has the amount
    [Infinity], which [JSON.stringify] writes as [null]; what is read
    back has the amount [null] and is no collection of expense records
    any more. *)
Lemma persistence_loses_infinite_amount :
  let s := Scenario.overflowed in
  let slot := persist s in
  (exists e, expenses s = [e] /\ amount e = Infinity)
  /\ (forall s0, restore slot s0 <> Replaced (setExpenses (fun _ => expenses s) s0))
  /\ (exists i d c t,
        slot = Some (stringify (VArray
                 [VObject [(ofAscii "id", VString i);
                           (ofAscii "description", VString d);
                           (ofAscii "category", VString c);
                           (ofAscii "date", VString t);
                           (ofAscii "amount", VNumber Infinity)]]))
        /\ forall s0,
             restore slot s0 =
             Untyped (VArray
                 [VObject [(ofAscii "id", VString i);
                           (ofAscii "description", VString d);
                           (ofAscii "category", VString c);
                           (ofAscii "date", VString t);
                           (ofAscii "amount", VNull)]])).
Proof.
  intros s slot.
  assert (R : forall s0,
             restore slot s0 =
             Untyped (VArray
                 [VObject [(ofAscii "id", VString (randomUUID Scenario.env1));
                           (ofAscii "description", VString Scenario.kofe);
                           (ofAscii "category", VString (categoryLabel Eda));
                           (ofAscii "date", VString (ofAscii "2024-01-05"));
                           (ofAscii "amount", VNull)]])).
  { intros s0. vm_compute. reflexivity. }
  split; [eexists; split; vm_compute; reflexivity|].
  split; [intros s0; rewrite R; discriminate|].
  exists (randomUUID Scenario.env1), Scenario.kofe, (categoryLabel Eda),
         (ofAscii "2024-01-05").
  split; [vm_compute; reflexivity | exact R].
Qed.

End PersistenceFacts.

(* ================================================================== *)
(** * What a row shows: [truncateText] and [formatDateHuman] *)
(* ================================================================== *)

Module ViewFacts.
Import JSString JSNumber Wallet View JSStringFacts.

(** ** [trimEnd] *)

Lemma trimEnd_split (s : jsstring) :
  exists w, s = trimEnd s ++ w /\ forallb isWhiteSpace w = true.
Proof.
  induction s as [|c s [w [E W]]]; cbn [trimEnd].
  - now exists [].
  - destruct (trimEnd s) as [|d t] eqn:T.
    + destruct (isWhiteSpace c) eqn:Hc.
      * exists (c :: w). cbn [app forallb]. rewrite Hc, W.
        split; [now rewrite E at 1|reflexivity].
      * exists w. split; [now rewrite E at 1|exact W].
    + exists w. split; [|exact W]. cbn [app]. now rewrite E at 1.
Qed.

Lemma trimEnd_length (s : jsstring) :
  (List.length (trimEnd s) <= List.length s)%nat.
Proof.
  destruct (trimEnd_split s) as [w [E _]].
  rewrite E at 2. rewrite length_app. lia.
Qed.

(** What [trimEnd] returns does not end in white space. *)
Lemma trimEnd_last (s p : jsstring) (c : code_unit) :
  trimEnd s = p ++ [c] -> isWhiteSpace c = false.
Proof.
  revert p. induction s as [|x s IH]; intros p E; cbn [trimEnd] in E.
  - now destruct p.
  - destruct (trimEnd s) as [|d t] eqn:T.
    + destruct (isWhiteSpace x) eqn:Hx; [now destruct p|].
      destruct p as [|y p]; [now injection E as <-|].
      injection E as _ E. now destruct p.
    + destruct p as [|y p].
      * discriminate.
      * injection E as _ E. now apply (IH p).
Qed.

Lemma trimEnd_fixed (s : jsstring) :
  (forall p c, s = p ++ [c] -> isWhiteSpace c = false) -> trimEnd s = s.
Proof.
  induction s as [|x s IH]; intros H; cbn [trimEnd]; [reflexivity|].
  destruct s as [|y s].
  - cbn [trimEnd]. now rewrite (H [] x eq_refl).
  - rewrite IH.
    + reflexivity.
    + intros p c E. apply (H (x :: p) c). now rewrite E.
Qed.

Lemma trimEnd_idem (s : jsstring) : trimEnd (trimEnd s) = trimEnd s.
Proof. apply trimEnd_fixed. intros p c E. now apply (trimEnd_last s p c). Qed.

(** ** [truncateText] *)

Lemma truncateText_short (text : jsstring) (max : Z) :
  Z.of_nat (List.length text) <= max -> truncateText text max = text.
Proof.
  intros H. unfold truncateText. apply Z.leb_le in H. now rewrite H.
Qed.

Lemma truncateText_long (text : jsstring) (max : Z) :
  max < Z.of_nat (List.length text) ->
  truncateText text max =
  trimEnd (firstn (Z.to_nat (Z.max 0 (max - 1))) text) ++ [ellipsis].
Proof.
  intros H. unfold truncateText. apply Z.leb_gt in H. now rewrite H.
Qed.

Lemma truncateText_bound (text : jsstring) (max : Z) :
  1 <= max -> Z.of_nat (List.length (truncateText text max)) <= max.
Proof.
  intros M. destruct (Z_le_gt_dec (Z.of_nat (List.length text)) max) as [S|L].
  - now rewrite truncateText_short.
  - rewrite truncateText_long by lia. rewrite length_app. cbn [List.length].
    pose proof (trimEnd_length (firstn (Z.to_nat (Z.max 0 (max - 1))) text)) as T.
    rewrite length_firstn in T. lia.
Qed.

(** X1.  For a limit [max] of at least one, the text [truncateText]
    returns has at most [max] code units, and truncating it again with
    the same limit changes nothing. *)
Theorem truncateText_fits (text : jsstring) (max : Z) :
  1 <= max ->
  Z.of_nat (List.length (truncateText text max)) <= max
  /\ truncateText (truncateText text max) max = truncateText text max.
Proof.
  intros M. pose proof (truncateText_bound text max M) as B.
  split; [exact B|]. now apply truncateText_short.
Qed.

Lemma truncateText_fits_witness :
  1 <= 8
  /\ truncateText (ofAscii "hello world") 8 = ofAscii "hello w" ++ [ellipsis]
  /\ Z.of_nat (List.length (truncateText (ofAscii "hello world") 8)) <= 8.
Proof.
  assert (H : 1 <= 8) by lia.
  split; [exact H|]. split; [reflexivity|].
  exact (proj1 (truncateText_fits (ofAscii "hello world") 8 H)).
Defined.

(** X2.  A text longer than [max] is cut: the result is a prefix of
    the text of at most [max - 1] code units (none when [max <= 1]),
    which does not end in white space, followed by the ellipsis. *)
Theorem truncateText_cuts (text : jsstring) (max : Z) :
  max < Z.of_nat (List.length text) ->
  exists p rest,
    text = p ++ rest
    /\ truncateText text max = p ++ [ellipsis]
    /\ (List.length p <= Z.to_nat (Z.max 0 (max - 1)))%nat
    /\ (forall q c, p = q ++ [c] -> isWhiteSpace c = false)
    /\ (max <= 1 -> truncateText text max = [ellipsis]).
Proof.
  intros L. rewrite (truncateText_long text max L).
  set (k := Z.to_nat (Z.max 0 (max - 1))).
  destruct (trimEnd_split (firstn k text)) as [w [E W]].
  exists (trimEnd (firstn k text)), (w ++ skipn k text).
  split.
  - rewrite app_assoc, <- E. symmetry. apply firstn_skipn.
  - split; [reflexivity|]. split.
    + pose proof (trimEnd_length (firstn k text)) as T.
      rewrite length_firstn in T. lia.
    + split.
      * intros q c Q. now apply (trimEnd_last (firstn k text) q c).
      * intros M. replace k with 0%nat by (unfold k; lia). reflexivity.
Qed.

Lemma truncateText_cuts_witness :
  7 < Z.of_nat (List.length (ofAscii "hello world"))
  /\ truncateText (ofAscii "hello world") 7 = ofAscii "hello" ++ [ellipsis]
  /\ exists p rest,
       ofAscii "hello world" = p ++ rest
       /\ truncateText (ofAscii "hello world") 7 = p ++ [ellipsis]
       /\ (List.length p <= 6)%nat.
Proof.
  assert (H : 7 < Z.of_nat (List.length (ofAscii "hello world")))
    by (vm_compute; reflexivity).
  split; [exact H|]. split; [reflexivity|].
  destruct (truncateText_cuts (ofAscii "hello world") 7 H)
    as (p & rest & E & T & L & _).
  exists p, rest. split; [exact E|]. split; [exact T | exact L].
Defined.

(** ** [split] and [formatDateHuman] *)

Lemma split_cons (sep : code_unit) (s : jsstring) :
  exists p ps, split sep s = p :: ps.
Proof.
  induction s as [|c s (p & ps & E)]; cbn [split].
  - now exists [], [].
  - destruct (c =? sep)%N; [now eexists _, _|].
    rewrite E. now eexists _, _.
Qed.

Lemma split_piece (sep : code_unit) (a b : jsstring) :
  ~ In sep a -> split sep (a ++ sep :: b) = a :: split sep b.
Proof.
  induction a as [|c a IH]; intros N; cbn [app split].
  - now rewrite N.eqb_refl.
  - assert (Hc : (c =? sep)%N = false).
    { apply N.eqb_neq. intros ->. apply N. now left. }
    rewrite Hc, IH; [reflexivity|]. intros H. apply N. now right.
Qed.

Lemma split_last (sep : code_unit) (a : jsstring) :
  ~ In sep a -> split sep a = [a].
Proof.
  induction a as [|c a IH]; intros N; cbn [split]; [reflexivity|].
  assert (Hc : (c =? sep)%N = false).
  { apply N.eqb_neq. intros ->. apply N. now left. }
  rewrite Hc, IH; [reflexivity|]. intros H. apply N. now right.
Qed.

Lemma formatDateHuman_parts (y m d : jsstring) :
  ~ In 45%N y -> ~ In 45%N m -> ~ In 45%N d ->
  formatDateHuman (y ++ 45%N :: m ++ 45%N :: d) = d ++ 46%N :: m ++ 46%N :: y.
Proof.
  intros Hy Hm Hd. unfold formatDateHuman.
  rewrite (split_piece 45%N y _ Hy), (split_piece 45%N m _ Hm),
    (split_last 45%N d Hd).
  reflexivity.
Qed.

Lemma digit_not_hyphen (c : code_unit) : isDigit c = true -> c <> 45%N.
Proof. intros D ->. discriminate. Qed.

Lemma isISODate_parts (iso : jsstring) :
  Scenario.isISODate iso = true ->
  exists y m d,
    iso = y ++ 45%N :: m ++ 45%N :: d
    /\ List.length y = 4%nat /\ List.length m = 2%nat /\ List.length d = 2%nat
    /\ forallb isDigit y = true /\ forallb isDigit m = true
    /\ forallb isDigit d = true.
Proof.
  unfold Scenario.isISODate.
  destruct iso as [|y1 [|y2 [|y3 [|y4 [|h1 [|m1 [|m2 [|h2 [|d1 [|d2 [|x r]]]]]]]]]]];
    try discriminate.
  rewrite !andb_true_iff, !N.eqb_eq.
  intros [[[[[[[[[Y1 Y2] Y3] Y4] H1] M1] M2] H2] D1] D2]. subst h1 h2.
  exists [y1; y2; y3; y4], [m1; m2], [d1; d2]. cbn [app forallb List.length].
  rewrite Y1, Y2, Y3, Y4, M1, M2, D1, D2. repeat split.
Qed.

Lemma digits_no_hyphen (s : jsstring) :
  forallb isDigit s = true -> ~ In 45%N s.
Proof.
  rewrite forallb_forall. intros H I. now apply (digit_not_hyphen 45%N (H _ I)).
Qed.

Lemma app_same_length {A : Type} (a a' b b' : list A) :
  List.length a = List.length a' -> a ++ b = a' ++ b' -> a = a' /\ b = b'.
Proof.
  revert a'. induction a as [|x a IH]; intros [|x' a'] L E;
    try discriminate; cbn [app] in *.
  - now split.
  - injection E as -> E. injection L as L.
    destruct (IH a' L E) as [-> ->]. now split.
Qed.

(** X3.  A date in the storage format [yyyy-mm-dd] is shown as
    [dd.mm.yyyy], ten code units, and two such dates that are shown
    alike are equal. *)
Theorem formatDateHuman_iso (a b : jsstring) :
  Scenario.isISODate a = true -> Scenario.isISODate b = true ->
  (exists y m d,
      a = y ++ 45%N :: m ++ 45%N :: d
      /\ List.length y = 4%nat /\ List.length m = 2%nat /\ List.length d = 2%nat
      /\ formatDateHuman a = d ++ 46%N :: m ++ 46%N :: y)
  /\ List.length (formatDateHuman a) = 10%nat
  /\ (formatDateHuman a = formatDateHuman b -> a = b).
Proof.
  intros Ia Ib.
  destruct (isISODate_parts a Ia) as (y & m & d & Ea & Ly & Lm & Ld & Dy & Dm & Dd).
  destruct (isISODate_parts b Ib) as (y' & m' & d' & Eb & Ly' & Lm' & Ld' & Dy' & Dm' & Dd').
  assert (Fa : formatDateHuman a = d ++ 46%N :: m ++ 46%N :: y)
    by (rewrite Ea; apply formatDateHuman_parts; now apply digits_no_hyphen).
  assert (Fb : formatDateHuman b = d' ++ 46%N :: m' ++ 46%N :: y')
    by (rewrite Eb; apply formatDateHuman_parts; now apply digits_no_hyphen).
  split; [now exists y, m, d|]. split.
  - rewrite Fa, length_app. cbn [List.length]. rewrite length_app.
    cbn [List.length]. lia.
  - rewrite Fa, Fb. intros E.
    destruct (app_same_length d d' _ _ (eq_trans Ld (eq_sym Ld')) E) as [-> E1].
    injection E1 as E1.
    destruct (app_same_length m m' _ _ (eq_trans Lm (eq_sym Lm')) E1) as [-> E2].
    injection E2 as ->. now rewrite Ea, Eb.
Qed.

Lemma formatDateHuman_iso_witness :
  Scenario.isISODate (ofAscii "2024-01-05") = true
  /\ Scenario.isISODate (ofAscii "2024-05-01") = true
  /\ formatDateHuman (ofAscii "2024-01-05") = ofAscii "05.01.2024"
  /\ (formatDateHuman (ofAscii "2024-01-05") =
      formatDateHuman (ofAscii "2024-05-01") ->
      ofAscii "2024-01-05" = ofAscii "2024-05-01").
Proof.
  assert (Ia : Scenario.isISODate (ofAscii "2024-01-05") = true) by reflexivity.
  assert (Ib : Scenario.isISODate (ofAscii "2024-05-01") = true) by reflexivity.
  split; [exact Ia|]. split; [exact Ib|]. split; [reflexivity|].
  exact (proj2 (proj2 (formatDateHuman_iso _ _ Ia Ib))).
Defined.

Lemma formatDateHuman_no_hyphen (iso : jsstring) :
  ~ In 45%N iso ->
  formatDateHuman iso = ofAscii "undefined.undefined." ++ iso.
Proof.
  intros H. unfold formatDateHuman. rewrite (split_last 45%N iso H). reflexivity.
Qed.

(** X4.  The row editor stores a date without a hyphen as it is, the
    empty text of a cleared date field for one, and the row then shows
    it as [undefined.undefined.] followed by that text. *)
Theorem edited_date_without_hyphen
        (s : State) (l1 l2 : list Expense) (old : Expense) (v : jsstring) :
  expenses s = l1 ++ old :: l2 ->
  Forall (fun e => id e <> id old) l1 ->
  Forall (fun e => id e <> id old) l2 ->
  ~ In 45%N v ->
  let editing := startEdit (id old) s in
  let row := setLocal (fun l => changeDate l v) (mountRow editing old) in
  let s' := commit row editing in
  expenses s' = l1 ++ changeDate old v :: l2
  /\ editingId s' = None
  /\ dateCell (mountRow s' (changeDate old v)) =
     ofAscii "undefined.undefined." ++ v.
Proof.
  intros E F1 F2 N editing row s'.
  assert (R : isEditing row = true) by exact (WalletFacts.mountRow_editing old s).
  unfold s'. rewrite WalletFacts.commit_editing by exact R.
  split; [|split].
  - now rewrite (WalletFacts.saveEdit_unique _ old l1 l2) by (try assumption; reflexivity).
  - reflexivity.
  - unfold dateCell. cbn [local mountRow changeDate date].
    now apply formatDateHuman_no_hyphen.
Qed.

Lemma edited_date_without_hyphen_witness :
  let s := Scenario.sampleState in
  let editing := startEdit (id Scenario.rTaxi) s in
  let row := setLocal (fun l => changeDate l []) (mountRow editing Scenario.rTaxi) in
  let s' := commit row editing in
  expenses s' = [Scenario.rLunch; changeDate Scenario.rTaxi []; Scenario.rCoffee]
  /\ editingId s' = None
  /\ dateCell (mountRow s' (changeDate Scenario.rTaxi [])) =
     ofAscii "undefined.undefined.".
Proof.
  intros s editing row s'.
  pose proof (edited_date_without_hyphen s [Scenario.rLunch] [Scenario.rCoffee]
                Scenario.rTaxi [] WalletFacts.sample_expenses) as H.
  cbv zeta in H. rewrite app_nil_r in H. apply H.
  - repeat constructor. vm_compute. discriminate.
  - repeat constructor. vm_compute. discriminate.
  - intros [].
Defined.

End ViewFacts.

(* ================================================================== *)
(** * Sorting with a consistent comparator *)
(* ================================================================== *)

Module SortingFacts.
Import JSNumber JSArray Scenario JSArrayFacts.

Lemma before_not_head {A : Type} (x y : A) (l : list A) :
  NoDup (y :: l) -> ~ before x y (y :: l).
Proof.
  intros ND B. inversion ND as [|? ? N _]; subst.
  apply before_inv in B as [[-> Hy] | B]; [contradiction|].
  apply before_In in B as [_ Hy]. contradiction.
Qed.

Lemma before_asym {A : Type} (x y : A) (l : list A) :
  NoDup l -> before x y l -> ~ before y x l.
Proof.
  induction l as [|z l IH]; intros ND B1 B2.
  - destruct B1 as (l1 & l2 & l3 & E). now destruct l1.
  - inversion ND as [|? ? N ND']; subst.
    apply before_inv in B1 as [[-> Hy] | B1];
      apply before_inv in B2 as [[E2 Hx] | B2].
    + subst. contradiction.
    + apply before_In in B2 as [_ Hz]. contradiction.
    + subst. apply before_In in B1 as [_ Hz]. contradiction.
    + now apply (IH ND').
Qed.

(** Two arrangements of the same distinct elements that agree on which
    of any two elements comes first are the same list. *)
Lemma before_determines {A : Type} (l1 l2 : list A) :
  NoDup l1 -> Permutation l1 l2 ->
  (forall x y, before x y l1 -> before x y l2) -> l1 = l2.
Proof.
  revert l2. induction l1 as [|h t IH]; intros l2 ND P B.
  - apply Permutation_nil in P. now subst.
  - assert (ND2 : NoDup l2) by (apply (Permutation_NoDup P ND)).
    inversion ND as [|? ? Nh NDt]; subst.
    destruct l2 as [|h' t'].
    { apply Permutation_sym, Permutation_nil in P. discriminate. }
    assert (E : h' = h).
    { assert (Hh' : In h' (h :: t))
        by (apply (Permutation_in h' (Permutation_sym P)); now left).
      destruct Hh' as [E | Hh']; [now subst|].
      exfalso. apply (before_not_head h h' t' ND2).
      apply B. now apply before_head. }
    subst h'. f_equal. apply IH.
    + exact NDt.
    + now apply Permutation_cons_inv in P.
    + intros x y Bxy.
      pose proof (B x y (before_cons x y h t Bxy)) as B2.
      apply before_inv in B2 as [[-> _] | B2]; [|exact B2].
      apply before_In in Bxy as [Hx _]. contradiction.
Qed.

Lemma before_rev {A : Type} (x y : A) (l : list A) :
  before x y (rev l) -> before y x l.
Proof.
  intros (l1 & l2 & l3 & E).
  apply (f_equal (@rev A)) in E. rewrite rev_involutive in E.
  rewrite rev_app_distr in E. cbn [rev] in E.
  rewrite rev_app_distr in E. cbn [rev] in E.
  rewrite <- !app_assoc in E. cbn [app] in E.
  now exists (rev l3), (rev l2), (rev l1).
Qed.

Lemma before_filter {A : Type} (p : A -> bool) (x y : A) (l : list A) :
  before x y (filter p l) -> before x y l.
Proof.
  induction l as [|z l IH]; cbn [filter]; intros B.
  - exact B.
  - destruct (p z).
    + apply before_inv in B as [[-> Hy] | B].
      * apply before_head. apply filter_In in Hy. tauto.
      * apply before_cons. now apply IH.
    + apply before_cons. now apply IH.
Qed.

Lemma filter_before {A : Type} (p : A -> bool) (x y : A) (l : list A) :
  before x y l -> p x = true -> p y = true -> before x y (filter p l).
Proof.
  intros (l1 & l2 & l3 & ->) Px Py.
  rewrite filter_app. cbn [filter]. rewrite Px, filter_app. cbn [filter].
  rewrite Py. now eexists _, _, _.
Qed.

Lemma StronglySorted_filter {A : Type} (R : A -> A -> Prop) (p : A -> bool)
      (l : list A) :
  StronglySorted R l -> StronglySorted R (filter p l).
Proof.
  induction 1 as [|x l S IH F]; cbn [filter]; [constructor|].
  destruct (p x); [|exact IH].
  constructor; [exact IH|].
  rewrite Forall_forall in *. intros y Hy. apply filter_In in Hy. now apply F.
Qed.

Lemma StronglySorted_of_before {A : Type} (R : A -> A -> Prop) (l : list A) :
  (forall x y, before x y l -> R x y) -> StronglySorted R l.
Proof.
  induction l as [|z l IH]; intros H; constructor.
  - apply IH. intros x y B. apply H. now apply before_cons.
  - rewrite Forall_forall. intros y Hy. apply H. now apply before_head.
Qed.

Section Consistent.
Context {A : Type}.
Variable comparefn : A -> A -> number.
Variable P : A -> Prop.

Local Abbreviation cmp := (sortCompare comparefn).
Local Abbreviation sorted := (StronglySorted (fun a b => cmp a b <> Gt)).

Hypothesis cmp_trans :
  forall x y z, P x -> P y -> P z ->
    cmp x y <> Gt -> cmp y z <> Gt -> cmp x z <> Gt.
Hypothesis cmp_antisym :
  forall x y, P x -> P y -> cmp x y = CompOpp (cmp y x).

Lemma cmp_total (x y : A) : P x -> P y -> cmp x y = Gt -> cmp y x <> Gt.
Proof. intros Px Py G. rewrite (cmp_antisym y x Py Px), G. discriminate. Qed.

Lemma sort_is_sorted (l : list A) : Forall P l -> sorted (sort comparefn l).
Proof. apply (sort_sorted comparefn P cmp_trans cmp_total). Qed.

(** In a sorted, stable arrangement of [l] the place of two elements
    relative to each other is decided by the comparator and, on a tie,
    by their order in [l]. *)
Lemma stable_sorted_before (l out : list A) (x y : A) :
  NoDup l -> Forall P l -> Permutation out l -> sorted out ->
  (forall a b, before a b l -> cmp a b = Eq -> before a b out) ->
  before x y out <->
  In x l /\ In y l /\ x <> y
  /\ (cmp x y = Lt \/ (cmp x y = Eq /\ before x y l)).
Proof.
  intros ND F Pm S St.
  assert (NDo : NoDup out) by (apply (Permutation_NoDup (Permutation_sym Pm) ND)).
  rewrite Forall_forall in F.
  split.
  - intros B. pose proof (before_In x y out B) as [Hx Hy].
    apply (Permutation_in _ Pm) in Hx, Hy.
    assert (N : x <> y).
    { intros ->. exact (before_asym y y out NDo B B). }
    split; [exact Hx|]. split; [exact Hy|]. split; [exact N|].
    pose proof (StronglySorted_before _ _ S x y B) as C. cbv beta in C.
    destruct (cmp x y) eqn:E; [right|left; reflexivity|congruence].
    split; [reflexivity|].
    destruct (before_total x y l Hx Hy N) as [Bl|Bl]; [exact Bl|].
    exfalso. apply (before_asym x y out NDo B). apply St; [exact Bl|].
    rewrite (cmp_antisym y x (F y Hy) (F x Hx)), E. reflexivity.
  - intros (Hx & Hy & N & C).
    assert (Ox : In x out) by (apply (Permutation_in _ (Permutation_sym Pm) Hx)).
    assert (Oy : In y out) by (apply (Permutation_in _ (Permutation_sym Pm) Hy)).
    destruct C as [C | [C Bl]]; [|now apply St].
    destruct (before_total x y out Ox Oy N) as [B|B]; [exact B|].
    exfalso. pose proof (StronglySorted_before _ _ S y x B) as G. cbv beta in G.
    rewrite (cmp_antisym y x (F y Hy) (F x Hx)), C in G. now apply G.
Qed.

(** A consistent comparator leaves a stable sort no choice: every
    sorted, stable arrangement of [l] is the one the model computes. *)
Lemma sort_unique (l out : list A) :
  NoDup l -> Forall P l -> Permutation out l -> sorted out ->
  (forall a b, before a b l -> cmp a b = Eq -> before a b out) ->
  out = sort comparefn l.
Proof.
  intros ND F Pm S St.
  assert (NDo : NoDup out) by (apply (Permutation_NoDup (Permutation_sym Pm) ND)).
  apply before_determines; [exact NDo| |].
  - rewrite Pm. symmetry. apply sort_perm.
  - intros x y B.
    apply (stable_sorted_before l out x y ND F Pm S St) in B.
    apply (stable_sorted_before l (sort comparefn l) x y ND F); try assumption.
    + apply sort_perm.
    + now apply sort_is_sorted.
    + intros a b Bl E. apply sort_keeps_before; [exact Bl|congruence].
Qed.

(** Inserting into a sorted list and dropping elements commute. *)
Lemma filter_insert (p : A -> bool) (x : A) (l : list A) :
  P x -> Forall P l -> sorted l ->
  filter p (insert comparefn x l) =
  if p x then insert comparefn x (filter p l) else filter p l.
Proof.
  intros Px. induction l as [|y l IH]; intros F S.
  - cbn [insert filter]. destruct (p x); reflexivity.
  - inversion F as [|? ? Py F']; subst. inversion S as [|? ? S' Fy]; subst.
    specialize (IH F' S').
    assert (Stop : cmp x y <> Gt -> p x = true -> p y = false ->
                   insert comparefn x (filter p l) = x :: filter p l).
    { intros C _ _. destruct (filter p l) as [|z t] eqn:E; [reflexivity|].
      assert (Hz : In z l).
      { assert (I : In z (filter p l)) by (rewrite E; now left).
        apply filter_In in I. tauto. }
      rewrite Forall_forall in Fy, F'.
      assert (C' : cmp x z <> Gt)
        by (apply (cmp_trans x y z); auto).
      cbn [insert]. destruct (cmp x z); [reflexivity|reflexivity|congruence]. }
    cbn [insert]. destruct (cmp x y) eqn:C.
    + cbn [filter]. destruct (p x) eqn:Hx, (p y) eqn:Hy; cbn [insert];
        rewrite ?C, ?Hx, ?Hy; try reflexivity.
      rewrite Stop; [reflexivity|congruence|reflexivity|reflexivity].
    + cbn [filter]. destruct (p x) eqn:Hx, (p y) eqn:Hy; cbn [insert];
        rewrite ?C, ?Hx, ?Hy; try reflexivity.
      rewrite Stop; [reflexivity|congruence|reflexivity|reflexivity].
    + cbn [filter]. destruct (p y) eqn:Hy; rewrite IH;
        destruct (p x) eqn:Hx; cbn [insert]; rewrite ?C; reflexivity.
Qed.

(** Sorting what is left after dropping elements gives what is left of
    the sorted list. *)
Lemma sort_filter (p : A -> bool) (l : list A) :
  Forall P l -> sort comparefn (filter p l) = filter p (sort comparefn l).
Proof.
  induction l as [|x l IH]; intros F; [reflexivity|].
  inversion F as [|? ? Px F']; subst.
  cbn [sort fold_right filter].
  change (fold_right (insert comparefn) [] l) with (sort comparefn l).
  rewrite filter_insert.
  - destruct (p x); [cbn [sort fold_right]|]; now rewrite <- IH.
  - exact Px.
  - rewrite Forall_forall in *. intros z Hz.
    apply F'. now apply (Permutation_in z (sort_perm comparefn l)).
  - now apply sort_is_sorted.
Qed.

End Consistent.

(** With a consistent comparator and no ties, sorting by the opposite
    comparator gives the reversed list. *)
Lemma sort_opposite {A : Type} (f g : A -> A -> number) (P : A -> Prop)
      (l : list A) :
  (forall x y z, P x -> P y -> P z ->
     sortCompare f x y <> Gt -> sortCompare f y z <> Gt ->
     sortCompare f x z <> Gt) ->
  (forall x y, P x -> P y -> sortCompare f x y = CompOpp (sortCompare f y x)) ->
  (forall x y, sortCompare g x y = CompOpp (sortCompare f x y)) ->
  NoDup l -> Forall P l ->
  (forall a b, In a l -> In b l -> a <> b -> sortCompare f a b <> Eq) ->
  sort g l = rev (sort f l).
Proof.
  intros T S G ND F Ties.
  assert (Tg : forall x y z, P x -> P y -> P z ->
            sortCompare g x y <> Gt -> sortCompare g y z <> Gt ->
            sortCompare g x z <> Gt).
  { intros x y z Px Py Pz. rewrite !G.
    rewrite (S x y Px Py), (S y z Py Pz), (S x z Px Pz), !CompOpp_involutive.
    intros H1 H2. now apply (T z y x). }
  assert (Sg : forall x y, P x -> P y ->
            sortCompare g x y = CompOpp (sortCompare g y x)).
  { intros x y Px Py. rewrite !G. now rewrite (S x y Px Py). }
  symmetry. apply (sort_unique g P Tg Sg); try assumption.
  - rewrite <- Permutation_rev. apply sort_perm.
  - apply StronglySorted_of_before. intros x y B.
    apply before_rev in B.
    pose proof (StronglySorted_before _ _ (sort_is_sorted f P T S l F) y x B) as H.
    cbv beta in H. destruct (before_In y x _ B) as [Hy Hx].
    apply (Permutation_in _ (sort_perm f l)) in Hx, Hy.
    rewrite Forall_forall in F.
    rewrite G, (S x y (F x Hx) (F y Hy)), CompOpp_involutive. exact H.
  - intros a b B E. exfalso.
    destruct (before_In a b l B) as [Ha Hb].
    apply (Ties a b Ha Hb).
    + intros ->. exact (before_asym b b l ND B B).
    + rewrite G in E. destruct (sortCompare f a b); cbn in E; congruence.
Qed.

End SortingFacts.

(* ================================================================== *)
(** * The sign of a difference of Numbers *)
(* ================================================================== *)

Module OrderFacts.
Import JSNumber Rounding JSArray Intl Order JSONFacts RoundingFacts.

Lemma pow2_pos (k : Z) : 0 <= k -> 0 < 2 ^ k.
Proof. intros K. apply Z.pow_pos_nonneg; lia. Qed.

(** ** A difference that is not zero does not round to zero *)

Lemma binary_round_aux_sign_nonzero (s : bool) (m e : Z) :
  0 < m -> e <= fexp prec emax (Zdigits2 m + e) -> -1074 <= e ->
  sign (binary_round_aux prec emax s m e loc_Exact) = if s then Lt else Gt.
Proof.
  intros M P E.
  pose proof (Zdigits2_pos m M) as D.
  unfold binary_round_aux.
  pose proof (shr_fexp_locate m 1 e ltac:(lia) ltac:(lia)) as S1.
  rewrite locate_1, Z.div_1_r in S1. cbn [snd] in S1. cbv zeta in S1.
  rewrite (S1 P). clear S1.
  pose proof (fexp64_eq (Zdigits2 m + e)) as F1.
  remember (fexp prec emax (Zdigits2 m + e)) as E1 eqn:HE1.
  assert (N1 : 0 <= E1 - e < Zdigits2 m) by lia.
  destruct (recordOf_loc (locate m (1 * 2 ^ (E1 - e)))) as [-> ->].
  pose proof (pow2_pos (E1 - e) ltac:(lia)) as PP1.
  pose proof (round_nearest_even_locate m (1 * 2 ^ (E1 - e)) ltac:(lia))
    as [[Lo _] _].
  remember (round_nearest_even _ _) as M1 eqn:HM1.
  rewrite Z.mul_1_l in Lo.
  assert (Q : 0 < m / 2 ^ (E1 - e)).
  { pose proof (Zdigits2_shiftr m (E1 - e) M N1) as Dq.
    pose proof (Z.div_pos m (2 ^ (E1 - e)) ltac:(lia) PP1).
    destruct (m / 2 ^ (E1 - e)); simpl in Dq; lia. }
  assert (PM : 0 < M1) by lia.
  assert (DM : Zdigits2 (m / 2 ^ (E1 - e)) <= Zdigits2 M1)
    by (apply Zdigits2_mono; lia).
  rewrite (Zdigits2_shiftr m (E1 - e) M N1) in DM.
  assert (P2 : E1 <= fexp prec emax (Zdigits2 M1 + E1)).
  { rewrite fexp64_eq. lia. }
  pose proof (shr_fexp_locate M1 1 E1 ltac:(lia) ltac:(lia)) as S2.
  rewrite locate_1, Z.div_1_r in S2. cbn [snd] in S2. cbv zeta in S2.
  rewrite (S2 P2). clear S2.
  pose proof (fexp64_eq (Zdigits2 M1 + E1)) as F2.
  remember (fexp prec emax (Zdigits2 M1 + E1)) as E2 eqn:HE2.
  pose proof (Zdigits2_pos M1 PM) as D1.
  assert (N2 : 0 <= E2 - E1 < Zdigits2 M1) by lia.
  destruct (recordOf_loc (locate M1 (1 * 2 ^ (E2 - E1)))) as [-> _].
  unfold locate. cbn [fst]. rewrite Z.mul_1_l.
  assert (Q2 : 0 < M1 / 2 ^ (E2 - E1)).
  { pose proof (Zdigits2_shiftr M1 (E2 - E1) PM N2) as Dq.
    pose proof (Z.div_pos M1 (2 ^ (E2 - E1)) ltac:(lia)
                  (pow2_pos (E2 - E1) ltac:(lia))).
    destruct (M1 / 2 ^ (E2 - E1)); simpl in Dq; lia. }
  destruct (M1 / 2 ^ (E2 - E1)) as [|q|q]; try lia.
  destruct (E2 <=? emax - prec); reflexivity.
Qed.

Lemma binary_normalize_sign (d e : Z) :
  -1074 <= e ->
  sign (binary_normalize prec emax d e false) = (d ?= 0).
Proof.
  intros E. destruct d as [|p|p]; [reflexivity| |].
  - cbn [binary_normalize]. unfold binary_round, shl_align.
    change (Zpos (digits2_pos p)) with (Zdigits2 (Zpos p)).
    pose proof (Zdigits2_pos (Zpos p) ltac:(lia)) as D.
    destruct (fexp prec emax (Zdigits2 (Zpos p) + e) - e) as [|t|t] eqn:F.
    + apply (binary_round_aux_sign_nonzero false); lia.
    + apply (binary_round_aux_sign_nonzero false); lia.
    + apply (binary_round_aux_sign_nonzero false).
      * lia.
      * rewrite Zpos_iter_xO, Zdigits2_mul_pow2 by lia.
        replace (Zdigits2 (Zpos p) + Zpos t + fexp prec emax (Zdigits2 (Zpos p) + e))
          with (Zdigits2 (Zpos p) + e) by lia. lia.
      * rewrite fexp64_eq. lia.
  - cbn [binary_normalize]. unfold binary_round, shl_align.
    change (Zpos (digits2_pos p)) with (Zdigits2 (Zpos p)).
    pose proof (Zdigits2_pos (Zpos p) ltac:(lia)) as D.
    destruct (fexp prec emax (Zdigits2 (Zpos p) + e) - e) as [|t|t] eqn:F.
    + apply (binary_round_aux_sign_nonzero true); lia.
    + apply (binary_round_aux_sign_nonzero true); lia.
    + apply (binary_round_aux_sign_nonzero true).
      * lia.
      * rewrite Zpos_iter_xO, Zdigits2_mul_pow2 by lia.
        replace (Zdigits2 (Zpos p) + Zpos t + fexp prec emax (Zdigits2 (Zpos p) + e))
          with (Zdigits2 (Zpos p) + e) by lia. lia.
      * rewrite fexp64_eq. lia.
Qed.

Lemma shl_align_value (m : positive) (e e' : Z) :
  e' <= e -> Zpos (fst (shl_align m e e')) = Zpos m * 2 ^ (e - e').
Proof.
  intros L. unfold shl_align.
  destruct (e' - e) as [|t|t] eqn:T; try lia; cbn [fst].
  - replace (e - e') with 0 by lia. lia.
  - rewrite Zpos_iter_xO. f_equal. f_equal. lia.
Qed.

Lemma scaled_finite_bound (s : bool) (m : positive) (e : Z) :
  valid_binary prec emax (S754_finite s m e) = true ->
  -1074 <= e /\ 0 < Zpos m * 2 ^ (e + 1074) < 2 ^ 2100.
Proof.
  intros V. apply valid_finite_inv in V as (D & E & _).
  split; [lia|].
  pose proof (Zdigits2_bounds (Zpos m) ltac:(lia)) as [_ U].
  pose proof (pow2_pos (e + 1074) ltac:(lia)) as P.
  split; [lia|].
  apply Z.lt_le_trans with (2 ^ Zdigits2 (Zpos m) * 2 ^ (e + 1074)); [nia|].
  rewrite <- Z.pow_add_r by (pose proof (Zdigits2_pos (Zpos m)); lia).
  apply Z.pow_le_mono_r; lia.
Qed.

Ltac compare_with_lia :=
  match goal with
  | |- _ = (?u ?= ?v) =>
      destruct (Z.compare_spec u v); try reflexivity; lia
  end.

(** The value of a finite Number and the value that stands for an
    infinity, as unknowns of a linear problem. *)
Ltac name_bounds B :=
  revert B;
  match goal with
  | |- 0 < ?v < ?i -> _ => generalize i, v
  end;
  intros ? ? B.

Lemma cond_Zopp_mul (s : bool) (a w : Z) :
  cond_Zopp s (a * w) = cond_Zopp s a * w.
Proof. destruct s; cbn [cond_Zopp]; ring. Qed.

(** The sign of [x - y] is the comparison of [x] with [y]. *)
Lemma sub_sign (x y : number) :
  isNumber x -> isNumber y ->
  sign (sub x y) = (scaled x ?= scaled y).
Proof.
  intros [Vx Nx] [Vy Ny].
  destruct x as [sx|sx| |sx mx ex]; try discriminate;
    destruct y as [sy|sy| |sy my ey]; try discriminate.
  - destruct sx, sy; reflexivity.
  - destruct sx, sy; reflexivity.
  - apply scaled_finite_bound in Vy as [_ B]. cbn [sub SFsub sign scaled].
    name_bounds B. destruct sy; cbn [negb cond_Zopp]; compare_with_lia.
  - destruct sx, sy; reflexivity.
  - destruct sx, sy; reflexivity.
  - apply scaled_finite_bound in Vy as [_ B]. cbn [sub SFsub sign scaled].
    name_bounds B. destruct sx, sy; cbn [cond_Zopp]; compare_with_lia.
  - apply scaled_finite_bound in Vx as [_ B]. cbn [sub SFsub sign scaled].
    name_bounds B. destruct sx; cbn [cond_Zopp]; compare_with_lia.
  - apply scaled_finite_bound in Vx as [_ B]. cbn [sub SFsub sign scaled].
    name_bounds B. destruct sx, sy; cbn [negb cond_Zopp]; compare_with_lia.
  - apply scaled_finite_bound in Vx as [Ex Bx].
    apply scaled_finite_bound in Vy as [Ey By].
    unfold sub, SFsub.
    rewrite binary_normalize_sign by lia.
    rewrite !shl_align_value by lia.
    cbn [scaled].
    assert (Px : 2 ^ (ex + 1074) = 2 ^ (ex - Z.min ex ey) * 2 ^ (Z.min ex ey + 1074)).
    { rewrite <- Z.pow_add_r by lia. f_equal. lia. }
    assert (Py : 2 ^ (ey + 1074) = 2 ^ (ey - Z.min ex ey) * 2 ^ (Z.min ex ey + 1074)).
    { rewrite <- Z.pow_add_r by lia. f_equal. lia. }
    rewrite Px, Py, !Z.mul_assoc, !cond_Zopp_mul.
    rewrite <- Zmult_compare_compat_r
      by (apply Z.lt_gt, pow2_pos; lia).
    symmetry. apply Z.compare_sub.
Qed.

(** Two binary64 values with the same sign compare as their exponents
    and then their mantissas do. *)
Lemma finite_order (m1 m2 : positive) (e1 e2 : Z) :
  valid_binary prec emax (S754_finite false m1 e1) = true ->
  valid_binary prec emax (S754_finite false m2 e2) = true ->
  (Zpos m1 * 2 ^ (e1 + 1074) ?= Zpos m2 * 2 ^ (e2 + 1074)) =
  match e1 ?= e2 with
  | Lt => Lt
  | Gt => Gt
  | Eq => Pos.compare_cont Eq m1 m2
  end.
Proof.
  intros V1 V2.
  apply valid_finite_inv in V1 as (D1 & E1 & C1).
  apply valid_finite_inv in V2 as (D2 & E2 & C2).
  pose proof (Zdigits2_bounds (Zpos m1) ltac:(lia)) as [L1 U1].
  pose proof (Zdigits2_bounds (Zpos m2) ltac:(lia)) as [L2 U2].
  assert (Key : forall ma mb ea eb,
            0 < ma -> ma < 2 ^ Zdigits2 ma -> Zdigits2 ma <= 53 ->
            2 ^ (Zdigits2 mb - 1) <= mb -> Zdigits2 mb = 53 ->
            -1074 <= ea < eb ->
            ma * 2 ^ (ea + 1074) < mb * 2 ^ (eb + 1074)).
  { intros ma mb ea eb Pa Ua Da Lb Db Eab.
    rewrite Db in Lb.
    assert (Ha : 2 ^ Zdigits2 ma <= 2 ^ 53) by (apply Z.pow_le_mono_r; lia).
    assert (X : 2 ^ (eb + 1074) = 2 ^ (eb - ea) * 2 ^ (ea + 1074)).
    { rewrite <- Z.pow_add_r by lia. f_equal. lia. }
    rewrite X.
    assert (Y : 2 ^ 1 <= 2 ^ (eb - ea)) by (apply Z.pow_le_mono_r; lia).
    pose proof (pow2_pos (ea + 1074) ltac:(lia)).
    change (2 ^ 1) with 2 in Y. change (2 ^ (53 - 1)) with (2 ^ 52) in Lb.
    change (2 ^ 53) with (2 * 2 ^ 52) in Ha. nia. }
  destruct (Z.compare_spec e1 e2) as [->|Lt|Gt].
  - rewrite Pos.compare_cont_spec. cbn [Pos.switch_Eq].
    pose proof (pow2_pos (e2 + 1074) ltac:(lia)).
    change (Pos.compare m1 m2) with (Zpos m1 ?= Zpos m2).
    destruct (Z.compare_spec (Zpos m1) (Zpos m2));
      destruct (Z.compare_spec (Zpos m1 * 2 ^ (e2 + 1074)) (Zpos m2 * 2 ^ (e2 + 1074)));
      try reflexivity; nia.
  - apply Z.compare_lt_iff. apply Key; lia.
  - apply Z.compare_gt_iff. apply Key; lia.
Qed.

Lemma SFcompare_scaled (x y : number) :
  isNumber x -> isNumber y ->
  SFcompare x y = Some (scaled x ?= scaled y).
Proof.
  intros [Vx Nx] [Vy Ny].
  destruct x as [sx|sx| |sx mx ex]; try discriminate;
    destruct y as [sy|sy| |sy my ey]; try discriminate;
    cbn [SFcompare scaled].
  - reflexivity.
  - destruct sy; reflexivity.
  - apply scaled_finite_bound in Vy as [_ B]. f_equal.
    name_bounds B. destruct sy; cbn [cond_Zopp]; compare_with_lia.
  - destruct sx; reflexivity.
  - destruct sx, sy; reflexivity.
  - apply scaled_finite_bound in Vy as [_ B]. f_equal.
    name_bounds B. destruct sx, sy; cbn [cond_Zopp]; compare_with_lia.
  - apply scaled_finite_bound in Vx as [_ B]. f_equal.
    name_bounds B. destruct sx; cbn [cond_Zopp]; compare_with_lia.
  - apply scaled_finite_bound in Vx as [_ B]. f_equal.
    name_bounds B. destruct sx, sy; cbn [cond_Zopp]; compare_with_lia.
  - pose proof (scaled_finite_bound _ _ _ Vx) as [_ Bx].
    pose proof (scaled_finite_bound _ _ _ Vy) as [_ By].
    f_equal. destruct sx, sy; cbn [cond_Zopp].
    + rewrite Z.compare_opp.
      rewrite (finite_order my mx ey ex Vy Vx).
      rewrite (Z.compare_antisym ey ex).
      destruct (ey ?= ex) eqn:C; cbn [CompOpp]; try reflexivity.
      rewrite !Pos.compare_cont_spec. cbn [Pos.switch_Eq].
      rewrite (Pos.compare_antisym my mx).
      destruct (my ?= mx)%positive; reflexivity.
    + destruct Bx as [Bx _], By as [By _]. revert Bx By.
      generalize (Zpos mx * 2 ^ (ex + 1074)), (Zpos my * 2 ^ (ey + 1074)).
      intros u v Bx By. compare_with_lia.
    + destruct Bx as [Bx _], By as [By _]. revert Bx By.
      generalize (Zpos mx * 2 ^ (ex + 1074)), (Zpos my * 2 ^ (ey + 1074)).
      intros u v Bx By. compare_with_lia.
    + symmetry. apply (finite_order mx my ex ey Vx Vy).
Qed.

(** [x <= y] on Numbers is the order of the number line. *)
Lemma leb_scaled (x y : number) :
  isNumber x -> isNumber y -> (leb x y = true <-> scaled x <= scaled y).
Proof.
  intros Hx Hy. unfold leb, SFleb. rewrite (SFcompare_scaled x y Hx Hy).
  destruct (Z.compare_spec (scaled x) (scaled y)); split; intros; try lia;
    try reflexivity; discriminate.
Qed.

End OrderFacts.

(* ================================================================== *)
(** * The projection under filtering, deleting and reversing *)
(* ================================================================== *)

Module ProjectionFacts.
Import JSString JSNumber JSArray Intl Wallet Order.
Import JSStringFacts JSArrayFacts WalletFacts SortingFacts OrderFacts.

(** ** Consistent comparators of the page *)

Lemma consistent_weaken {A : Type} (f : A -> A -> number) (P Q : A -> Prop) :
  (forall x, Q x -> P x) -> consistent f P -> consistent f Q.
Proof.
  intros I [T S]. split.
  - intros x y z Qx Qy Qz. apply T; auto.
  - intros x y Qx Qy. apply S; auto.
Qed.

Lemma consistent_by_rank {A : Type} (f : A -> A -> number) (P : A -> Prop)
      (rank : A -> Z) :
  (forall x y, P x -> P y -> sortCompare f x y = (rank x ?= rank y)) ->
  consistent f P.
Proof.
  intros H. split.
  - intros x y z Px Py Pz. rewrite !H by assumption.
    rewrite !Z.compare_le_iff. lia.
  - intros x y Px Py. rewrite !H by assumption. apply Z.compare_antisym.
Qed.

Lemma consistent_neg {A : Type} (f g : A -> A -> number) (P : A -> Prop) :
  (forall x y, g x y = neg (f x y)) -> consistent f P -> consistent g P.
Proof.
  intros N [T S].
  assert (G : forall x y, sortCompare g x y = CompOpp (sortCompare f x y)).
  { intros x y. rewrite !sortCompare_sign, N. apply sign_neg. }
  split.
  - intros x y z Px Py Pz. rewrite !G.
    rewrite (S x y Px Py), (S y z Py Pz), (S x z Px Pz), !CompOpp_involutive.
    intros H1 H2. now apply (T z y x).
  - intros x y Px Py. rewrite !G. now rewrite (S x y Px Py).
Qed.

(** The amount comparator is consistent wherever no amount is [NaN]. *)
Lemma amount_consistent {C : Collator} (dir : SortDir) :
  consistent (comparator SortAmount dir) (fun e => isNumber (amount e)).
Proof.
  assert (A : consistent (comparator SortAmount Asc)
                         (fun e => isNumber (amount e))).
  { apply (consistent_by_rank _ _ (fun e => scaled (amount e))).
    intros x y Px Py. rewrite sortCompare_sign. cbn [comparator].
    now apply sub_sign. }
  destruct dir; [exact A|].
  apply (consistent_neg (comparator SortAmount Asc)); [reflexivity|exact A].
Qed.

(** A collator that orders by code units gives consistent comparators. *)
Lemma codeUnit_consistent (key : SortKey) (dir : SortDir) (P : Expense -> Prop) :
  key <> SortAmount -> consistent (@comparator codeUnitCollator key dir) P.
Proof.
  intros K.
  assert (A : forall proj : Expense -> jsstring,
            consistent (fun a b => ofComparison (JSString.compare (proj a) (proj b))) P).
  { intros proj. split.
    - intros x y z _ _ _. rewrite !sortCompare_sign, !sign_ofComparison.
      rewrite (compare_antisym (proj y) (proj x)),
        (compare_antisym (proj z) (proj y)), (compare_antisym (proj z) (proj x)).
      intros H1 H2 H3.
      apply (compare_ge_trans (proj z) (proj y) (proj x)).
      + intros L. rewrite L in H2. now apply H2.
      + intros L. rewrite L in H1. now apply H1.
      + destruct (JSString.compare (proj z) (proj x)); cbn in H3; congruence.
    - intros x y _ _. rewrite !sortCompare_sign, !sign_ofComparison.
      apply compare_antisym. }
  destruct key; [| congruence |]; destruct dir;
    try exact (A date); try exact (A description);
    eapply consistent_neg; try (intros x y; reflexivity);
    first [exact (A date) | exact (A description)].
Qed.

Lemma byCategory_filter (f : CategoryFilter) (p : Expense -> bool)
      (es : list Expense) :
  byCategory f (filter p es) = filter p (byCategory f es).
Proof.
  destruct f as [|c]; cbn [byCategory]; [reflexivity|].
  induction es as [|e es IH]; cbn [filter]; [reflexivity|].
  destruct (p e) eqn:Pe, (CategoryKey_eqb (category e) c) eqn:Ce;
    cbn [filter]; rewrite ?Pe, ?Ce, IH; reflexivity.
Qed.

Lemma byCategory_In (f : CategoryFilter) (es : list Expense) (e : Expense) :
  In e (byCategory f es) -> In e es.
Proof.
  destruct f as [|c]; cbn [byCategory]; [trivial|].
  intros H. apply filter_In in H. tauto.
Qed.

Lemma project_filter {C : Collator} (es : list Expense) (f : CategoryFilter)
      (key : SortKey) (dir : SortDir) (p : Expense -> bool) :
  consistent (comparator key dir) (fun e => In e es) ->
  project (filter p es) f key dir = filter p (project es f key dir).
Proof.
  intros [T S]. unfold project. rewrite byCategory_filter.
  apply (sort_filter (comparator key dir) (fun e => In e es) T S).
  rewrite Forall_forall. intros e. apply byCategory_In.
Qed.

Lemma sample_consistent (key : SortKey) (dir : SortDir) :
  consistent (@comparator codeUnitCollator key dir)
             (fun e => In e (expenses Scenario.sampleState)).
Proof.
  destruct key; try (apply codeUnit_consistent; discriminate).
  apply (consistent_weaken _ (fun e => isNumber (amount e)));
    [|apply amount_consistent].
  rewrite sample_expenses. intros x [<- | [<- | [<- | []]]]; split; reflexivity.
Qed.

Lemma sample_NoDup : NoDup (expenses Scenario.sampleState).
Proof. vm_compute. repeat constructor; simpl; intuition discriminate. Qed.

(** X5.  With a consistent comparator, choosing a category keeps the
    order of the rows: the projection of one category is the projection
    of all categories with the other categories left out. *)
Theorem category_filter_keeps_order {C : Collator}
        (es : list Expense) (c : CategoryKey) (key : SortKey) (dir : SortDir) :
  consistent (comparator key dir) (fun e => In e es) ->
  project es (Only c) key dir =
  filter (fun e => CategoryKey_eqb (category e) c) (project es Vse key dir).
Proof.
  intros [T S]. unfold project. cbn [byCategory].
  apply (sort_filter (comparator key dir) (fun e => In e es) T S).
  rewrite Forall_forall. trivial.
Qed.

Lemma category_filter_keeps_order_witness :
  let es := expenses Scenario.sampleState in
  @project codeUnitCollator es Vse SortDate Desc =
    [Scenario.rTaxi; Scenario.rCoffee; Scenario.rLunch]
  /\ @project codeUnitCollator es (Only Eda) SortDate Desc =
     filter (fun e => CategoryKey_eqb (category e) Eda)
            (@project codeUnitCollator es Vse SortDate Desc).
Proof.
  intros es. split; [vm_compute; reflexivity|].
  exact (@category_filter_keeps_order codeUnitCollator es Eda SortDate Desc
           (sample_consistent SortDate Desc)).
Defined.

(** X6.  With a consistent comparator, deleting by identifier removes
    the rows of that identifier from the table and leaves the other
    rows in the order they had. *)
Theorem delete_keeps_order {C : Collator} (s : State) (i : jsstring) :
  consistent (comparator (sortKey s) (sortDir s))
             (fun e => In e (expenses s)) ->
  filteredSorted (handleDelete i s) =
  filter (fun e => negb (JSString.eqb (id e) i)) (filteredSorted s).
Proof.
  intros H. unfold filteredSorted, handleDelete.
  cbn [expenses filterCategory sortKey sortDir setExpenses].
  now apply project_filter.
Qed.

Lemma delete_keeps_order_witness :
  let s := Scenario.sampleState in
  @filteredSorted codeUnitCollator (handleDelete (id Scenario.rCoffee) s) =
  filter (fun e => negb (JSString.eqb (id e) (id Scenario.rCoffee)))
         (@filteredSorted codeUnitCollator s).
Proof.
  intros s.
  exact (@delete_keeps_order codeUnitCollator s (id Scenario.rCoffee)
           (sample_consistent (sortKey s) (sortDir s))).
Defined.

(** X7.  When no stored amount is [NaN], sorting by amount does order
    the table: every row's amount is at most ([Asc]) or at least
    ([Desc]) that of every row below it, infinite amounts included. *)
Theorem amount_projection_sorted {C : Collator}
        (es : list Expense) (f : CategoryFilter) :
  Forall (fun e => isNumber (amount e)) es ->
  StronglySorted (fun a b => leb (amount a) (amount b) = true)
                 (project es f SortAmount Asc)
  /\ StronglySorted (fun a b => leb (amount b) (amount a) = true)
                    (project es f SortAmount Desc).
Proof.
  intros F.
  assert (Fb : Forall (fun e => isNumber (amount e)) (byCategory f es))
    by now apply byCategory_Forall.
  assert (In_out : forall dir x, In x (project es f SortAmount dir) ->
                                 isNumber (amount x)).
  { intros dir x Hx. rewrite Forall_forall in Fb. apply Fb.
    now apply (Permutation_in x (project_perm es f SortAmount dir)). }
  split.
  - destruct (amount_consistent Asc) as [T S].
    pose proof (sort_is_sorted _ _ T S (byCategory f es) Fb) as Srt.
    apply StronglySorted_of_before. intros x y B.
    pose proof (StronglySorted_before _ _ Srt x y B) as H. cbv beta in H.
    destruct (before_In x y _ B) as [Hx Hy].
    apply In_out in Hx, Hy.
    rewrite sortCompare_sign in H. cbn [comparator] in H.
    rewrite (sub_sign _ _ Hx Hy) in H.
    apply (leb_scaled _ _ Hx Hy). now apply Z.compare_le_iff.
  - destruct (amount_consistent Desc) as [T S].
    pose proof (sort_is_sorted _ _ T S (byCategory f es) Fb) as Srt.
    apply StronglySorted_of_before. intros x y B.
    pose proof (StronglySorted_before _ _ Srt x y B) as H. cbv beta in H.
    destruct (before_In x y _ B) as [Hx Hy].
    apply In_out in Hx, Hy.
    rewrite sortCompare_sign in H. cbn [comparator] in H.
    rewrite sign_neg, (sub_sign _ _ Hx Hy) in H.
    apply (leb_scaled _ _ Hy Hx).
    destruct (Z.compare_spec (scaled (amount x)) (scaled (amount y)));
      cbn [CompOpp] in H; try lia. congruence.
Qed.

Lemma amount_projection_sorted_witness :
  let es := expenses Scenario.sampleState in
  Forall (fun e => isNumber (amount e)) es
  /\ StronglySorted (fun a b => leb (amount a) (amount b) = true)
                    (@project codeUnitCollator es Vse SortAmount Asc)
  /\ @project codeUnitCollator es Vse SortAmount Desc =
     [Scenario.rTaxi; Scenario.rLunch; Scenario.rCoffee].
Proof.
  intros es.
  assert (F : Forall (fun e => isNumber (amount e)) es).
  { unfold es. rewrite sample_expenses. repeat constructor. }
  split; [exact F|]. split.
  - exact (proj1 (@amount_projection_sorted codeUnitCollator es Vse F)).
  - vm_compute. reflexivity.
Defined.

(** X8.  With distinct records and a consistent comparator, the
    projection is the only arrangement of the filtered records that is
    sorted by the comparator and keeps records that compare equal in
    their stored order. *)
Theorem projection_unique {C : Collator}
        (es : list Expense) (f : CategoryFilter) (key : SortKey)
        (dir : SortDir) (out : list Expense) :
  NoDup es ->
  consistent (comparator key dir) (fun e => In e es) ->
  Permutation out (byCategory f es) ->
  StronglySorted (fun a b => sortCompare (comparator key dir) a b <> Gt) out ->
  (forall a b, Scenario.before a b (byCategory f es) ->
               sortCompare (comparator key dir) a b = Eq ->
               Scenario.before a b out) ->
  out = project es f key dir.
Proof.
  intros ND [T S] Pm Srt St. unfold project.
  apply (sort_unique (comparator key dir) (fun e => In e es) T S);
    try assumption.
  - destruct f as [|c]; cbn [byCategory]; [exact ND|].
    now apply NoDup_filter.
  - rewrite Forall_forall. intros e. apply byCategory_In.
Qed.

Lemma projection_unique_witness :
  let es := expenses Scenario.sampleState in
  let out := [Scenario.rLunch; Scenario.rCoffee; Scenario.rTaxi] in
  Permutation out (byCategory Vse es)
  /\ out = @project codeUnitCollator es Vse SortAmount Asc.
Proof.
  intros es out.
  assert (Pm : Permutation out (byCategory Vse es)).
  { unfold out, es. cbn [byCategory]. rewrite sample_expenses.
    apply perm_skip. apply perm_swap. }
  split; [exact Pm|].
  apply (@projection_unique codeUnitCollator es Vse SortAmount Asc out
           sample_NoDup (sample_consistent SortAmount Asc) Pm).
  - repeat constructor; vm_compute; discriminate.
  - unfold es. cbn [byCategory]. rewrite sample_expenses.
    intros a b B E.
    apply before_inv in B as [[-> Hb] | B].
    + destruct Hb as [<- | [<- | []]].
      * vm_compute in E. discriminate.
      * now exists [], [], [Scenario.rTaxi].
    + apply before_inv in B as [[-> Hb] | B].
      * destruct Hb as [<- | []]. vm_compute in E. discriminate.
      * apply before_inv in B as [[-> []] | B].
        destruct B as (l1 & l2 & l3 & B). now destruct l1.
Defined.

(** X9.  With distinct records, a consistent comparator and no two
    records that compare equal, the descending projection is the
    ascending one reversed; with ties it is not, as the witness
    shows for the amount key. *)
Theorem projection_reversed {C : Collator}
        (es : list Expense) (f : CategoryFilter) (key : SortKey) :
  NoDup es ->
  consistent (comparator key Asc) (fun e => In e es) ->
  (forall a b, In a es -> In b es -> a <> b ->
               sortCompare (comparator key Asc) a b <> Eq) ->
  project es f key Desc = rev (project es f key Asc).
Proof.
  intros ND [T S] Ties. unfold project.
  apply (sort_opposite (comparator key Asc) (comparator key Desc)
                       (fun e => In e es)); try assumption.
  - intros x y. rewrite !sortCompare_sign. apply sign_neg.
  - destruct f as [|c]; cbn [byCategory]; [exact ND|]. now apply NoDup_filter.
  - rewrite Forall_forall. intros e. apply byCategory_In.
  - intros a b Ha Hb. apply Ties; now apply (byCategory_In f).
Qed.

Lemma projection_reversed_witness :
  let es := expenses Scenario.sampleState in
  @project codeUnitCollator es Vse SortDate Desc =
  rev (@project codeUnitCollator es Vse SortDate Asc)
  /\ @project codeUnitCollator es Vse SortAmount Desc <>
     rev (@project codeUnitCollator es Vse SortAmount Asc).
Proof.
  intros es. split; [|vm_compute; discriminate].
  apply (@projection_reversed codeUnitCollator es Vse SortDate
           sample_NoDup (sample_consistent SortDate Asc)).
  unfold es. rewrite sample_expenses.
  intros a b [<- | [<- | [<- | []]]] [<- | [<- | [<- | []]]] N;
    try congruence; vm_compute; discriminate.
Defined.

End ProjectionFacts.

(* ================================================================== *)
(** * Stability and order of the projection *)
(* ================================================================== *)

Module OrderingFacts.
Import JSString JSNumber JSArray Intl Wallet Order Engine.
Import JSStringFacts JSArrayFacts WalletFacts SortingFacts OrderFacts ProjectionFacts.

(** ** Stability *)





(** ** The order of the projection *)




End OrderingFacts.

(* ================================================================== *)
(** * The menus during a session *)
(* ================================================================== *)

Module SessionFacts.
Import JSString JSNumber JSArray Intl Wallet Order Session.
Import JSStringFacts JSArrayFacts WalletFacts.

(** ** The menus *)

Lemma step_menus (a : Action) (s : State) :
  isCatMenuOpen s && isSortMenuOpen s = false ->
  isCatMenuOpen (step a s) && isSortMenuOpen (step a s) = false.
Proof.
  intros H.
  destruct a as [v|v|v|v|env|i|i|e ch|m|]; cbn [step].
  - exact H.
  - reflexivity.
  - exact H.
  - exact H.
  - reflexivity.
  - reflexivity.
  - reflexivity.
  - unfold editRow. destruct (shown e s); [|exact H].
    unfold commit. destruct (isEditing _); exact H.
  - destruct (rendered m s); [|exact H].
    destruct m; cbn; try reflexivity; now rewrite andb_false_r.
  - reflexivity.
Qed.

(** X10.  Whatever the user does, starting from the page as it is
    mounted with any restored collection, the category menu and the
    sort menu are never both open. *)
Theorem menus_never_both_open
        (actions : list Action) (env : Env) (stored : list Expense) :
  let s := run actions (setExpenses (fun _ => stored) (initialState env)) in
  isCatMenuOpen s && isSortMenuOpen s = false.
Proof.
  cbv zeta. unfold run.
  assert (G : forall s, isCatMenuOpen s && isSortMenuOpen s = false ->
              let s' := fold_left (fun st a => step a st) actions s in
              isCatMenuOpen s' && isSortMenuOpen s' = false).
  { induction actions as [|a actions IH]; intros s H; cbn [fold_left].
    - exact H.
    - apply IH. now apply step_menus. }
  apply G. reflexivity.
Qed.

End SessionFacts.

(* ================================================================== *)
(** * Deleting and committing *)
(* ================================================================== *)

Module CollectionFacts.
Import JSString JSNumber JSArray Intl Wallet Order Session.
Import JSStringFacts JSArrayFacts WalletFacts.

(** ** Deleting *)

Lemma filter_absent (i : jsstring) (l : list Expense) :
  Forall (fun e => id e <> i) l ->
  filter (fun e => negb (JSString.eqb (id e) i)) l = l.
Proof.
  induction 1 as [|e l N F IH]; cbn [filter]; [reflexivity|].
  apply eqb_neq in N. now rewrite N, IH.
Qed.

(** X11.  Deleting the identifier of a record that alone carries it
    removes that record and nothing else, leaves [editingId] as it was,
    even when it names the deleted record, and deleting the same
    identifier again changes nothing. *)
Theorem handleDelete_removes_one
        (s : State) (l1 l2 : list Expense) (old : Expense) :
  expenses s = l1 ++ old :: l2 ->
  Forall (fun e => id e <> id old) l1 ->
  Forall (fun e => id e <> id old) l2 ->
  let s' := handleDelete (id old) s in
  expenses s' = l1 ++ l2
  /\ S (List.length (expenses s')) = List.length (expenses s)
  /\ ~ In (id old) (map id (expenses s'))
  /\ editingId s' = editingId s
  /\ handleDelete (id old) s' = s'.
Proof.
  intros E F1 F2 s'.
  assert (X : expenses s' = l1 ++ l2).
  { unfold s', handleDelete. cbn [expenses setExpenses].
    rewrite E, filter_app. cbn [filter]. rewrite eqb_refl. cbn [negb].
    now rewrite !filter_absent. }
  split; [exact X|]. split.
  - rewrite X, E, !length_app. cbn [List.length]. lia.
  - split.
    + rewrite X, map_app, in_app_iff, !in_map_iff.
      rewrite Forall_forall in F1, F2.
      intros [(e & I & H) | (e & I & H)]; [now apply (F1 e) | now apply (F2 e)].
    + split; [reflexivity|].
      unfold handleDelete at 1. unfold setExpenses. rewrite X.
      rewrite filter_absent by (apply Forall_app; now split).
      rewrite <- X. now destruct s'.
Qed.

Lemma handleDelete_removes_one_witness :
  let s := Scenario.sampleState in
  expenses (handleDelete (id Scenario.rTaxi) s) =
  [Scenario.rLunch] ++ [Scenario.rCoffee].
Proof.
  intros s.
  apply (handleDelete_removes_one s [Scenario.rLunch] [Scenario.rCoffee]
           Scenario.rTaxi sample_expenses).
  - repeat constructor. vm_compute. discriminate.
  - repeat constructor. vm_compute. discriminate.
Defined.

(** X12.  Deleting a record just added, its identifier being new,
    gives back the collection as it was before the add. *)
Theorem add_then_delete (env : Env) (s : State) :
  rejects s = false ->
  ~ In (randomUUID env) (map id (expenses s)) ->
  let added := handleAdd env s in
  exists next,
    expenses added = next :: expenses s
    /\ id next = randomUUID env
    /\ expenses (handleDelete (id next) added) = expenses s.
Proof.
  intros A Fr added. unfold added. rewrite (handleAdd_accepted env s A).
  eexists. split; [reflexivity|]. split; [reflexivity|].
  cbn [handleDelete expenses setExpenses resetForm id filter].
  rewrite eqb_refl. cbn [negb]. apply filter_absent.
  rewrite Forall_forall. intros e He E. apply Fr.
  rewrite <- E. now apply in_map.
Qed.

Lemma add_then_delete_witness :
  let s := Scenario.fill Scenario.lunch Scenario.overflowed in
  rejects s = false
  /\ ~ In (randomUUID Scenario.env3) (map id (expenses s))
  /\ exists next,
       expenses (handleAdd Scenario.env3 s) = next :: expenses s
       /\ id next = randomUUID Scenario.env3
       /\ expenses (handleDelete (id next) (handleAdd Scenario.env3 s)) =
          expenses s.
Proof.
  intros s.
  assert (A : rejects s = false) by (vm_compute; reflexivity).
  assert (F : ~ In (randomUUID Scenario.env3) (map id (expenses s))).
  { vm_compute. intros [H | []]. discriminate. }
  split; [exact A|]. split; [exact F|].
  exact (add_then_delete Scenario.env3 s A F).
Defined.

(** ** Editing without a change *)




End CollectionFacts.

(* ================================================================== *)
(** * The sign of a rounded amount *)
(* ================================================================== *)

Module SignFacts.
Import JSString JSNumber Rounding JSArray Intl Wallet Order.
Import JSNumberFacts JSONFacts RoundingFacts WalletFacts.

Lemma shr_fexp_nonneg (m e : Z) (l : location) :
  0 <= m -> 0 <= shr_m (fst (shr_fexp prec emax m e l)).
Proof.
  intros M. unfold shr_fexp, shr.
  destruct (fexp prec emax (Zdigits2 m + e) - e) as [|n|n]; cbn [fst];
    try (rewrite shr_record_of_loc_m; exact M).
  apply iter_shr_m. now rewrite shr_record_of_loc_m.
Qed.

(** Rounding a magnitude gives a zero, a finite Number or an infinity
    of the sign asked for, never [NaN]. *)
Lemma binary_round_aux_hasSign (s : bool) (m e : Z) (l : location) :
  0 <= m -> hasSign s (binary_round_aux prec emax s m e l) = true.
Proof.
  intros M. unfold binary_round_aux.
  pose proof (shr_fexp_nonneg m e l M) as N1.
  destruct (shr_fexp prec emax m e l) as [mrs e1]. cbn [fst] in N1.
  pose proof (round_nearest_even_bounds (shr_m mrs) (loc_of_shr_record mrs)) as R.
  pose proof (shr_fexp_nonneg (round_nearest_even (shr_m mrs) (loc_of_shr_record mrs))
                e1 loc_Exact ltac:(lia)) as N2.
  destruct (shr_fexp prec emax _ e1 loc_Exact) as [mrs2 e2]. cbn [fst] in N2.
  destruct (shr_m mrs2) as [|p|p]; try lia; cbn [hasSign].
  - apply eqb_reflx.
  - destruct (e2 <=? emax - prec); cbn [hasSign]; apply eqb_reflx.
Qed.

Lemma binary_round_hasSign (s : bool) (m : positive) (e : Z) :
  hasSign s (binary_round prec emax s m e) = true.
Proof.
  unfold binary_round. destruct (shl_align _ _ _) as [mz ez].
  apply binary_round_aux_hasSign. lia.
Qed.

Lemma mul_hundred_hasSign (s : bool) (x : number) :
  hasSign s x = true -> hasSign s (mul x (ofZ 100)) = true.
Proof.
  rewrite ofZ_100. destruct x as [sx|sx| |sx mx ex]; cbn [hasSign];
    try discriminate; intros H; apply eqb_prop in H; subst sx;
    unfold mul, SFmul; rewrite xorb_false_r.
  - cbn [hasSign]. apply eqb_reflx.
  - cbn [hasSign]. apply eqb_reflx.
  - apply binary_round_aux_hasSign. lia.
Qed.

Lemma Math_round_hasSign (s : bool) (x : number) :
  hasSign s x = true -> hasSign s (Math_round x) = true.
Proof.
  destruct x as [sx|sx| |sx mx ex]; cbn [hasSign Math_round]; try tauto.
  intros H. destruct (Z.leb_spec 0 ex) as [E|E]; [exact H|].
  apply eqb_prop in H. subst sx.
  assert (D : 0 < 2 ^ (- ex)) by (apply Z.pow_pos_nonneg; lia).
  cbv zeta. remember (2 ^ (- ex)) as d eqn:Ed. unfold binary_normalize.
  destruct s; cbn [cond_Zopp].
  - assert (N : (2 * - Zpos mx + d) / (2 * d) <= 0).
    { assert ((2 * - Zpos mx + d) / (2 * d) < 1); [|lia].
      apply Z.div_lt_upper_bound; lia. }
    destruct ((2 * - Zpos mx + d) / (2 * d)) as [|n|n]; try lia.
    + reflexivity.
    + apply binary_round_hasSign.
  - assert (N : 0 <= (2 * Zpos mx + d) / (2 * d)) by (apply Z.div_pos; lia).
    destruct ((2 * Zpos mx + d) / (2 * d)) as [|n|n]; try lia.
    + reflexivity.
    + apply binary_round_hasSign.
Qed.

Lemma div_hundred_hasSign (s : bool) (x : number) :
  hasSign s x = true -> hasSign s (div x (ofZ 100)) = true.
Proof.
  rewrite ofZ_100. destruct x as [sx|sx| |sx mx ex]; cbn [hasSign];
    try discriminate; intros H; apply eqb_prop in H; subst sx;
    unfold div, SFdiv; rewrite ?xorb_false_r.
  - cbn [hasSign]. apply eqb_reflx.
  - cbn [hasSign]. apply eqb_reflx.
  - destruct (SFdiv_core_binary_spec mx (Z.to_pos (100 * 2 ^ 46)) ex (-46))
      as (q & e & l & -> & Q & _).
    now apply binary_round_aux_hasSign.
Qed.

(** [Math.round(x * 100) / 100] keeps the sign of [x] and is never
    [NaN] unless [x] is. *)
Lemma round2_hasSign (s : bool) (x : number) :
  hasSign s x = true -> hasSign s (round2 x) = true.
Proof.
  intros H. unfold round2.
  now apply div_hundred_hasSign, Math_round_hasSign, mul_hundred_hasSign.
Qed.

Lemma positive_hasSign (x : number) :
  ltb zero x = true -> hasSign false x = true.
Proof. destruct x as [[]|[]| |[] m e]; cbn; congruence. Qed.

Lemma hasSign_false_leb (x : number) :
  hasSign false x = true -> leb zero x = true /\ isNaN x = false.
Proof. destruct x as [[]|[]| |[] m e]; cbn; try discriminate; split; reflexivity. Qed.

End SignFacts.

(* ================================================================== *)
(** * What every session keeps *)
(* ================================================================== *)

Module InvariantFacts.
Import JSString JSNumber Rounding JSArray Intl Wallet Order Session.
Import JSStringFacts JSNumberFacts JSArrayFacts WalletFacts ProjectionFacts SignFacts.

(** ** What a step does to the collection *)

Lemma onDocClick_expenses (a b : bool) (s : State) :
  expenses (onDocClick a b s) = expenses s.
Proof. destruct a, b; reflexivity. Qed.

Lemma applyChange_id (c : Change) (l : Expense) : id (applyChange c l) = id l.
Proof. destruct c; reflexivity. Qed.

Lemma edited_local (changes : list Change) (r : Row) :
  let r' := fold_left (fun r c => setLocal (applyChange c) r) changes r in
  expense r' = expense r /\ isEditing r' = isEditing r
  /\ local r' = fold_left (fun l c => applyChange c l) changes (local r).
Proof.
  cbv zeta. revert r. induction changes as [|c changes IH]; intros r; cbn [fold_left].
  - auto.
  - destruct (IH (setLocal (applyChange c) r)) as (E1 & E2 & E3).
    rewrite E1, E2, E3. auto.
Qed.

Lemma edited_id (changes : list Change) (l : Expense) :
  id (fold_left (fun l c => applyChange c l) changes l) = id l.
Proof.
  revert l. induction changes as [|c changes IH]; intros l; cbn [fold_left];
    [reflexivity|]. now rewrite IH, applyChange_id.
Qed.

Lemma shown_In (e : Expense) (s : State) : shown e s = true -> In e (expenses s).
Proof.
  unfold shown. intros H. apply existsb_exists in H as (x & I & E).
  destruct (Scenario.Expense_eq_dec x e) as [->|]; [|discriminate].
  exact (byCategory_In _ _ _ I).
Qed.

(** A step either leaves the collection alone, prepends the record of
    [handleAdd], removes the records of one identifier, or replaces the
    records that carry the identifier of a stored record [e] by an
    edited copy of [e]. *)
Lemma step_expenses (a : Action) (s : State) :
  expenses (step a s) = expenses s
  \/ (exists env, a = PressAdd env /\ rejects s = false
        /\ expenses (step a s) =
             {| id := randomUUID env;
                description := trim (formDescription s);
                category := formCategory s;
                date := formDate s;
                amount := round2 (parseAmount (formAmount s)) |} :: expenses s)
  \/ (exists i, expenses (step a s) =
        filter (fun e => negb (JSString.eqb (id e) i)) (expenses s))
  \/ (exists e changes, In e (expenses s)
        /\ expenses (step a s) =
             map (fun x => if JSString.eqb (id x) (id e)
                           then fold_left (fun l c => applyChange c l) changes e
                           else x) (expenses s)).
Proof.
  destruct a as [v|v|v|v|env|i|i|e ch|m|]; cbn [step];
    rewrite ?onDocClick_expenses; try (left; reflexivity).
  - destruct (rejects s) eqn:R.
    + left. unfold handleAdd. now rewrite R.
    + right; left. exists env. split; [reflexivity|]. split; [reflexivity|].
      now rewrite (handleAdd_accepted env s R).
  - right; right; left. exists i. reflexivity.
  - unfold editRow. destruct (shown e s) eqn:Sh; [|now left].
    destruct (edited_local ch (mountRow s e)) as (E1 & E2 & E3).
    unfold commit. rewrite E2.
    destruct (isEditing (mountRow s e)); [|now left].
    right; right; right. exists e, ch. split; [now apply shown_In|].
    rewrite E3. cbn [saveEdit setEditingId setExpenses expenses mountRow local].
    now rewrite edited_id.
  - destruct (rendered m s); [|now left].
    rewrite onDocClick_expenses. left. now destruct m.
Qed.

Lemma map_id_replace (u : Expense) (i : jsstring) (es : list Expense) :
  id u = i ->
  map id (map (fun x => if JSString.eqb (id x) i then u else x) es) = map id es.
Proof.
  intros U. induction es as [|x es IH]; cbn [map]; [reflexivity|].
  rewrite IH. f_equal.
  destruct (JSString.eqb (id x) i) eqn:E; [|reflexivity].
  apply JSStringFacts.eqb_eq in E. congruence.
Qed.

(** Leaving records out keeps distinct identifiers distinct. *)
Lemma ids_after_filter (keep : Expense -> bool) (es : list Expense) :
  NoDup (map id es) -> NoDup (map id (filter keep es)).
Proof.
  induction es as [|e es IH]; cbn [map filter]; intros H; [constructor|].
  inversion H as [|? ? Fresh Rest]; subst.
  destruct (keep e); cbn [map]; [|auto].
  constructor; [|auto]. intros I. apply Fresh.
  apply in_map_iff in I as (y & E & I). apply filter_In in I as [I _].
  apply in_map_iff. eauto.
Qed.

Lemma step_NoDup (a : Action) (s : State) :
  match a with
  | PressAdd env => ~ In (randomUUID env) (map id (expenses s))
  | _ => True
  end ->
  NoDup (map id (expenses s)) -> NoDup (map id (expenses (step a s))).
Proof.
  intros F N.
  destruct (step_expenses a s) as [E|[(env & -> & R & E)|[(i & E)|(e & ch & I & E)]]];
    rewrite E.
  - exact N.
  - cbn [map id]. now constructor.
  - now apply ids_after_filter.
  - rewrite map_id_replace; [exact N | apply edited_id].
Qed.

(** X14.  If the stored identifiers are distinct and the host never
    hands [handleAdd] an identifier that is already stored, they are
    distinct after every sequence of user actions. *)
Theorem ids_stay_unique (actions : list Action) (s : State) :
  NoDup (map id (expenses s)) -> freshIds actions s ->
  NoDup (map id (expenses (run actions s))).
Proof.
  unfold run. revert s.
  induction actions as [|a actions IH]; intros s N F; cbn [fold_left].
  - exact N.
  - destruct F as [Fa F]. apply IH; [|exact F]. now apply step_NoDup.
Qed.

Lemma ids_stay_unique_witness :
  let actions :=
    [TypeDescription (ofAscii "Taxi"); PickCategory Transport;
     TypeDate (ofAscii "2024-01-06"); TypeAmount (ofAscii "1 250");
     PressAdd Scenario.env2; PressEdit (id Scenario.rTaxi);
     EditRow Scenario.rTaxi [ChAmount (ofAscii "-5"); ChDescription []];
     PressDelete (randomUUID Scenario.env1)] in
  freshIds actions Scenario.overflowed
  /\ map id (expenses (run actions Scenario.overflowed)) =
     [randomUUID Scenario.env2]
  /\ NoDup (map id (expenses (run actions Scenario.overflowed))).
Proof.
  intros actions.
  assert (F : freshIds actions Scenario.overflowed).
  { vm_compute. repeat split. intros [H|[]]. discriminate. }
  split; [exact F|]. split; [vm_compute; reflexivity|].
  apply (ids_stay_unique actions Scenario.overflowed); [|exact F].
  vm_compute. repeat constructor. intros [].
Defined.

(** ** Amounts *)

Lemma coerceAmount_isNumber (v : jsstring) : isNumber (coerceAmount v).
Proof.
  split; [apply coerceAmount_valid|].
  unfold coerceAmount, or. destruct (parseAmount v) as [[]|[]| |[] m e]; reflexivity.
Qed.

Lemma round2_isNumber (x : number) :
  ltb zero x = true -> isNumber (round2 x) /\ hasSign false (round2 x) = true.
Proof.
  intros H. pose proof (round2_hasSign false x (positive_hasSign x H)) as S.
  split; [|exact S]. split; [apply round2_valid|].
  now destruct (hasSign_false_leb _ S).
Qed.

Lemma edited_isNumber (changes : list Change) (l : Expense) :
  isNumber (amount l) ->
  isNumber (amount (fold_left (fun l c => applyChange c l) changes l)).
Proof.
  revert l. induction changes as [|c changes IH]; intros l H; cbn [fold_left];
    [exact H|]. apply IH. destruct c; cbn [applyChange]; try exact H.
  apply coerceAmount_isNumber.
Qed.

Lemma step_isNumber (a : Action) (s : State) :
  Forall (fun e => isNumber (amount e)) (expenses s) ->
  Forall (fun e => isNumber (amount e)) (expenses (step a s)).
Proof.
  intros N.
  destruct (step_expenses a s) as [E|[(env & -> & R & E)|[(i & E)|(e & ch & I & E)]]];
    rewrite E.
  - exact N.
  - constructor; [|exact N]. cbn [amount].
    apply accepts_iff in R as (_ & _ & R). now apply round2_isNumber.
  - rewrite Forall_forall in *. intros x Hx. apply filter_In in Hx as [Hx _]. auto.
  - rewrite Forall_forall in *. intros x Hx.
    apply in_map_iff in Hx as (y & <- & Hy).
    destruct (JSString.eqb (id y) (id e)); [|auto].
    apply edited_isNumber. auto.
Qed.

(** X15.  No user action stores [NaN]: if every stored amount is a
    Number other than [NaN], so is every stored amount after every
    sequence of user actions. *)
Theorem amounts_stay_numbers (actions : list Action) (s : State) :
  Forall (fun e => isNumber (amount e)) (expenses s) ->
  Forall (fun e => isNumber (amount e)) (expenses (run actions s)).
Proof.
  unfold run. revert s.
  induction actions as [|a actions IH]; intros s N; cbn [fold_left];
    [exact N|]. apply IH. now apply step_isNumber.
Qed.

Lemma amounts_stay_numbers_witness :
  let actions :=
    [TypeDescription (ofAscii "Taxi"); PickCategory Transport;
     TypeDate (ofAscii "2024-01-06"); TypeAmount (ofAscii "1 250");
     PressAdd Scenario.env2; PressEdit (id Scenario.rTaxi);
     EditRow Scenario.rTaxi [ChAmount (ofAscii "abc")]] in
  map amount (expenses (run actions Scenario.overflowed)) =
    [zero; S754_infinity false]
  /\ Forall (fun e => isNumber (amount e))
            (expenses (run actions Scenario.overflowed)).
Proof.
  intros actions. split; [vm_compute; reflexivity|].
  apply (amounts_stay_numbers actions Scenario.overflowed).
  apply Forall_forall. intros e I. vm_compute in I.
  destruct I as [<-|[]]. split; vm_compute; reflexivity.
Defined.

End InvariantFacts.

(* ================================================================== *)
(** * Stored amounts and the amount field *)
(* ================================================================== *)

Module AmountFacts.
Import JSString JSNumber Rounding JSON JSArray Intl Wallet Order View.
Import JSStringFacts JSNumberFacts JSONFacts JSArrayFacts WalletFacts SignFacts.

(** ** The amount [handleAdd] stores *)

Lemma Math_round_small (m : positive) (e : Z) :
  2 * Zpos m < 2 ^ (- e) -> Math_round (S754_finite false m e) = zero.
Proof.
  intros H. unfold Math_round.
  destruct (Z.leb_spec 0 e) as [E|E].
  - exfalso. assert (2 ^ (- e) <= 1); [|lia].
    destruct (Z.eq_dec e 0) as [->|N]; [simpl; lia|].
    rewrite Z.pow_neg_r by lia. lia.
  - cbv zeta. cbn [cond_Zopp].
    assert (D : 0 < 2 ^ (- e)) by (apply Z.pow_pos_nonneg; lia).
    remember (2 ^ (- e)) as d eqn:Ed.
    replace ((2 * Zpos m + d) / (2 * d)) with 0; [reflexivity|].
    symmetry. apply Z.div_small. lia.
Qed.

(** X16.  The amount [handleAdd] stores is never [NaN], never
    negative and never the negative zero; it is zero, although the
    input was greater than zero, when the product with one hundred is
    below one half. *)
Theorem handleAdd_never_negative (env : Env) (s : State) :
  rejects s = false ->
  exists next,
    expenses (handleAdd env s) = next :: expenses s
    /\ isNaN (amount next) = false
    /\ leb zero (amount next) = true
    /\ amount next <> S754_zero true
    /\ (forall m e,
          mul (parseAmount (formAmount s)) (ofZ 100) = S754_finite false m e ->
          2 * Zpos m < 2 ^ (- e) ->
          amount next = zero).
Proof.
  intros R. rewrite (handleAdd_accepted env s R). eexists. split; [reflexivity|].
  cbn [amount]. apply accepts_iff in R as (_ & _ & P).
  pose proof (round2_hasSign false _ (positive_hasSign _ P)) as S.
  destruct (hasSign_false_leb _ S) as [L N].
  split; [exact N|]. split; [exact L|]. split.
  - intros E. rewrite E in S. discriminate.
  - intros m e E H. unfold round2. rewrite E, (Math_round_small m e H). reflexivity.
Qed.

Lemma handleAdd_never_negative_witness :
  let s := Scenario.fill (Scenario.withAmount "0.004")
                         (initialState Scenario.env1) in
  rejects s = false
  /\ exists next,
       expenses (handleAdd Scenario.env1 s) = next :: expenses s
       /\ leb zero (amount next) = true
       /\ amount next = zero.
Proof.
  intros s.
  assert (R : rejects s = false) by (vm_compute; reflexivity).
  split; [exact R|].
  destruct (handleAdd_never_negative Scenario.env1 s R)
    as (next & E & _ & L & _ & Z).
  exists next. split; [exact E|]. split; [exact L|].
  apply (Z 7205759403792794%positive (-54)); vm_compute; reflexivity.
Defined.

(** ** The amount field of a row *)

Lemma numberChars_removeWhiteSpace (t : jsstring) :
  forallb isNumberChar t = true -> removeWhiteSpace t = t.
Proof.
  unfold removeWhiteSpace. induction t as [|c t IH]; cbn [forallb filter];
    [reflexivity|]. intros H. apply andb_true_iff in H as [Hc Ht].
  rewrite (numberChar_not_space c Hc). cbn [negb]. now rewrite IH.
Qed.

Lemma numberChars_replaceFirstComma (t : jsstring) :
  forallb isNumberChar t = true -> replaceFirstComma t = t.
Proof.
  induction t as [|c t IH]; cbn [forallb replaceFirstComma]; [reflexivity|].
  intros H. apply andb_true_iff in H as [Hc Ht].
  apply numberChar_cases in Hc.
  assert (N : ((c =? 44) = false)%N) by (apply N.eqb_neq; lia).
  now rewrite N, IH.
Qed.

Lemma parseAmount_numberChars (t : jsstring) :
  forallb isNumberChar t = true -> parseAmount t = StringToNumber t.
Proof.
  intros H. unfold parseAmount.
  now rewrite (numberChars_removeWhiteSpace t H), (numberChars_replaceFirstComma t H).
Qed.

Lemma toString_chars (x : number) :
  valid_binary prec emax x = true -> isFinite x = true ->
  forallb isNumberChar (Number_toString x) = true.
Proof.
  destruct x as [s|s| |s m e]; try discriminate; intros V _.
  - reflexivity.
  - destruct (toString_finite_shape s m e V) as (ip & fp & ex & E & W & _).
    rewrite E, forallb_app. apply andb_true_iff. split.
    + now destruct s.
    + exact (decimalText_chars ip fp ex W).
Qed.

Lemma or_positiveZero (x : number) :
  isNaN x = false -> or (positiveZero x) zero = positiveZero x.
Proof. destruct x as [[]|[]| |[] m e]; try reflexivity; discriminate. Qed.

(** X17.  Typing into the amount field of a row the text the field
    shows, [String(local.amount)], gives the amount back: the working
    copy is unchanged, except that a negative zero becomes zero. *)
Theorem retyped_amount (l : Expense) :
  isNumber (amount l) ->
  changeAmount l (Number_toString (amount l)) = Persistence.reloaded l
  /\ (amount l <> S754_zero true ->
      changeAmount l (Number_toString (amount l)) = l).
Proof.
  intros [V N].
  assert (E : coerceAmount (Number_toString (amount l)) = positiveZero (amount l)).
  { unfold coerceAmount. destruct (isFinite (amount l)) eqn:F.
    - rewrite (parseAmount_numberChars _ (toString_chars _ V F)).
      rewrite (StringToNumber_toString _ V F). now apply or_positiveZero.
    - destruct (amount l) as [s|[]| |s m e]; try discriminate; reflexivity. }
  unfold changeAmount, Persistence.reloaded. rewrite E. split; [reflexivity|].
  intros NZ. destruct l as [i d c t a]. cbn [id description category date amount] in *.
  f_equal. destruct a as [[]|[]| |[] m e]; try reflexivity. congruence.
Qed.

Lemma retyped_amount_witness :
  isNumber (amount Scenario.rTaxi)
  /\ Number_toString (amount Scenario.rTaxi) = ofAscii "1250"
  /\ changeAmount Scenario.rTaxi (Number_toString (amount Scenario.rTaxi)) =
     Scenario.rTaxi.
Proof.
  assert (N : isNumber (amount Scenario.rTaxi)) by (split; reflexivity).
  split; [exact N|]. split; [vm_compute; reflexivity|].
  apply (proj2 (retyped_amount Scenario.rTaxi N)).
  vm_compute. discriminate.
Defined.

End AmountFacts.

(* ================================================================== *)
(** * Amount texts that do not parse *)
(* ================================================================== *)

Module TypingFacts.
Import JSString JSNumber Rounding JSON JSArray Intl Wallet Order View.
Import JSStringFacts JSNumberFacts JSONFacts JSArrayFacts WalletFacts SignFacts AmountFacts.

(** ** Text that is not a numeric literal *)

Lemma digitsValue_stops (b acc : N) (s : jsstring) (c : code_unit) :
  In c s -> digitOfBase b c = None -> digitsValue b acc s = None.
Proof.
  intros I D. revert acc. induction s as [|x s IH]; intros acc; [contradiction|].
  cbn [digitsValue]. destruct I as [->|I].
  - now rewrite D.
  - destruct (digitOfBase b x); [now apply IH | reflexivity].
Qed.

Lemma spanDigits_spec (s : jsstring) :
  s = fst (spanDigits s) ++ snd (spanDigits s)
  /\ forallb isDigit (fst (spanDigits s)) = true.
Proof.
  induction s as [|c s [IH1 IH2]]; cbn [spanDigits]; [now split|].
  destruct (isDigit c) eqn:D; [|now split].
  destruct (spanDigits s) as [d r]. cbn [fst snd app forallb] in *.
  rewrite D, IH2. split; [now f_equal | reflexivity].
Qed.

Lemma digits_without (c : code_unit) (ds : jsstring) :
  isDigit c = false -> forallb isDigit ds = true -> ~ In c ds.
Proof.
  intros N D I. rewrite forallb_forall in D. specialize (D c I). congruence.
Qed.

Lemma span_rest (c : code_unit) (s : jsstring) :
  isDigit c = false -> In c s -> In c (snd (spanDigits s)).
Proof.
  intros N I. destruct (spanDigits_spec s) as [E D].
  rewrite E in I. apply in_app_or in I as [I|I]; [|exact I].
  now destruct (digits_without c _ N D).
Qed.

(** Neither a point nor a comma can occur in an exponent. *)
Lemma exponentPart_stops (c : code_unit) (r : jsstring) :
  c = 44%N \/ c = 46%N -> In c r -> exponentPart r = None.
Proof.
  intros C I. destruct r as [|x r]; [contradiction|].
  unfold exponentPart.
  destruct ((x =? 101) || (x =? 69))%N eqn:X; [|reflexivity].
  assert (Nx : x <> c).
  { apply orb_true_iff in X as [X|X]; apply N.eqb_eq in X; lia. }
  destruct I as [I|I]; [congruence|].
  assert (D : digitOfBase 10 c = None) by (destruct C as [->| ->]; reflexivity).
  assert (G : forall sg ds, In c ds ->
              match ds, digitsValue 10 0 ds with
              | _ :: _, Some n => Some (cond_Zopp sg (Z.of_N n))
              | _, _ => None
              end = None).
  { intros sg ds Ids. pose proof (digitsValue_stops 10 0 ds c Ids D) as V.
    destruct ds; [reflexivity|]. now rewrite V. }
  destruct r as [|y r]; [contradiction|].
  destruct (N.eq_dec y 43) as [->|N43].
  { apply G. destruct I as [I|I]; [lia | exact I]. }
  destruct (N.eq_dec y 45) as [->|N45].
  { apply G. destruct I as [I|I]; [lia | exact I]. }
  assert (Fin : forall T : bool * jsstring, T = (false, y :: r) ->
            (let '(sg, ds) := T in
             match ds, digitsValue 10 0 ds with
             | _ :: _, Some n => Some (cond_Zopp sg (Z.of_N n))
             | _, _ => None
             end) = None).
  { intros T ->. exact (G false (y :: r) I). }
  apply Fin.
  destruct y as [|p]; [reflexivity|].
  do 6 (destruct p as [p|p|]; try reflexivity); congruence.
Qed.

Lemma unsignedDecimal_stops (sg : bool) (s : jsstring) :
  In 44%N s -> unsignedDecimal sg s = NaN.
Proof.
  intros I. unfold unsignedDecimal.
  assert (NI : JSString.eqb s (ofAscii "Infinity") = false).
  { apply JSStringFacts.eqb_neq. intros ->. vm_compute in I. intuition discriminate. }
  rewrite NI.
  pose proof (span_rest 44%N s eq_refl I) as Ir.
  destruct (spanDigits s) as [ip r]. cbn [snd] in Ir.
  destruct r as [|x r1]; [contradiction|].
  destruct (N.eq_dec x 46) as [->|N46].
  - destruct Ir as [Ir|Ir]; [discriminate|].
    pose proof (span_rest 44%N r1 eq_refl Ir) as I2.
    destruct (spanDigits r1) as [fp r2]. cbn [snd] in I2.
    rewrite (exponentPart_stops 44%N r2 (or_introl eq_refl) I2).
    now destruct ip, fp.
  - assert (Fin : forall T : jsstring * jsstring * bool,
               T = ([], x :: r1, false) ->
               (let '(fp, r', _) := T in
                match ip, fp with
                | [], [] => NaN
                | _, _ =>
                    match exponentPart r' with
                    | Some e =>
                        ofDecimal sg (decimalValue (ip ++ fp))
                                  (e - Z.of_nat (List.length fp))
                    | None => NaN
                    end
                end) = NaN).
    { intros T ->. rewrite (exponentPart_stops 44%N _ (or_introl eq_refl) Ir).
      now destruct ip. }
    apply Fin.
    destruct x as [|p]; [reflexivity|].
    do 6 (destruct p as [p|p|]; try reflexivity). congruence.
Qed.

Lemma nonDecimal_stops (t : jsstring) (x : number) :
  In 44%N t -> nonDecimal t = Some x -> x = NaN.
Proof.
  intros I. unfold nonDecimal.
  destruct t as [|c t1]; [contradiction|].
  destruct (N.eq_dec c 48) as [->|N48].
  - destruct t1 as [|p [|d ds]]; try discriminate.
    assert (G : forall b, digitOfBase b 44%N = None) by reflexivity.
    destruct ((p =? 120) || (p =? 88))%N eqn:B1;
      [|destruct ((p =? 111) || (p =? 79))%N eqn:B2;
        [|destruct ((p =? 98) || (p =? 66))%N eqn:B3; [|discriminate]]].
    all: assert (Np : p <> 44%N)
           by (first [apply orb_true_iff in B1 as [B|B]
                     |apply orb_true_iff in B2 as [B|B]
                     |apply orb_true_iff in B3 as [B|B]]; apply N.eqb_eq in B; lia).
    all: assert (Ids : In 44%N (d :: ds))
           by (destruct I as [I|[I|I]]; [discriminate | congruence | exact I]).
    all: match goal with
         | |- context [digitsValue ?b 0 ?l] =>
             rewrite (digitsValue_stops b 0 l 44%N Ids (G b))
         end; congruence.
  - destruct c as [|q]; [discriminate|].
    do 6 (destruct q as [q|q|]; try discriminate). congruence.
Qed.

(** [Number(t)] is [NaN] for a text without white space that holds a
    comma. *)
Lemma StringToNumber_comma (t : jsstring) :
  forallb (fun c => negb (isWhiteSpace c)) t = true ->
  In 44%N t -> StringToNumber t = NaN.
Proof.
  intros W I. unfold StringToNumber. rewrite (trim_id t W).
  destruct t as [|c s]; [contradiction|].
  destruct (nonDecimal (c :: s)) as [x|] eqn:ND.
  - exact (nonDecimal_stops _ x I ND).
  - destruct (c =? 43)%N eqn:C1.
    { apply N.eqb_eq in C1. subst. destruct I as [I|I]; [discriminate|].
      now apply unsignedDecimal_stops. }
    destruct (c =? 45)%N eqn:C2.
    { apply N.eqb_eq in C2. subst. destruct I as [I|I]; [discriminate|].
      now apply unsignedDecimal_stops. }
    now apply unsignedDecimal_stops.
Qed.

Lemma removeWhiteSpace_clean (v : jsstring) :
  forallb (fun c => negb (isWhiteSpace c)) (removeWhiteSpace v) = true.
Proof.
  unfold removeWhiteSpace. apply forallb_forall. intros c I.
  now apply filter_In in I.
Qed.

Lemma replaceFirstComma_clean (t : jsstring) :
  forallb (fun c => negb (isWhiteSpace c)) t = true ->
  forallb (fun c => negb (isWhiteSpace c)) (replaceFirstComma t) = true.
Proof.
  induction t as [|c t IH]; cbn [replaceFirstComma forallb]; [reflexivity|].
  intros H. apply andb_true_iff in H as [Hc Ht].
  destruct (c =? 44)%N; cbn [forallb]; [exact Ht|].
  now rewrite Hc, IH.
Qed.

Lemma replaceFirstComma_second (a b c : jsstring) :
  In 44%N (replaceFirstComma (a ++ 44%N :: b ++ 44%N :: c)).
Proof.
  induction a as [|x a IH]; cbn [app replaceFirstComma].
  - right. apply in_or_app. right. now left.
  - destruct (x =? 44)%N.
    + right. apply in_or_app. right. left. reflexivity.
    + now right.
Qed.

(** X18.  Only the first comma is read as a decimal point: an amount
    text with two commas does not parse, so [handleAdd] rejects it and
    the row editor stores zero. *)
Theorem second_comma_unparseable (env : Env) (s : State) (l : Expense)
        (a b c : jsstring) :
  let v := a ++ 44%N :: b ++ 44%N :: c in
  parseAmount v = NaN
  /\ (formAmount s = v -> handleAdd env s = s)
  /\ amount (changeAmount l v) = zero.
Proof.
  cbv zeta.
  assert (P : parseAmount (a ++ 44%N :: b ++ 44%N :: c) = NaN).
  { unfold parseAmount. apply StringToNumber_comma.
    - apply replaceFirstComma_clean, removeWhiteSpace_clean.
    - unfold removeWhiteSpace. rewrite filter_app. cbn [filter].
      change (negb (isWhiteSpace 44%N)) with true. cbv iota.
      rewrite filter_app. cbn [filter].
      change (negb (isWhiteSpace 44%N)) with true. cbv iota.
      apply replaceFirstComma_second. }
  split; [exact P|]. split.
  - intros F. unfold handleAdd, rejects. rewrite F, P.
    cbn [isNaN]. now rewrite orb_true_r.
  - cbn [changeAmount amount]. unfold coerceAmount. now rewrite P.
Qed.

(** ** A separator typed at the end of the amount field *)

Lemma replaceFirstComma_app (t r : jsstring) :
  forallb isNumberChar t = true ->
  replaceFirstComma (t ++ r) = t ++ replaceFirstComma r.
Proof.
  induction t as [|c t IH]; cbn [forallb app replaceFirstComma]; [reflexivity|].
  intros H. apply andb_true_iff in H as [Hc Ht].
  apply numberChar_cases in Hc.
  assert (N : ((c =? 44) = false)%N) by (apply N.eqb_neq; lia).
  now rewrite N, IH.
Qed.

(** Typing a point or a comma after a numeric text gives [Number] the
    text followed by a point. *)
Lemma parseAmount_separator (t : jsstring) (c : code_unit) :
  forallb isNumberChar t = true -> c = 46%N \/ c = 44%N ->
  parseAmount (t ++ [c]) = StringToNumber (t ++ [46%N]).
Proof.
  intros H C. unfold parseAmount, removeWhiteSpace.
  rewrite filter_app. fold (removeWhiteSpace t).
  rewrite (numberChars_removeWhiteSpace t H).
  replace (filter (fun c0 => negb (isWhiteSpace c0)) [c]) with [c]
    by (destruct C as [-> | ->]; reflexivity).
  rewrite (replaceFirstComma_app t [c] H).
  now destruct C as [-> | ->].
Qed.

Lemma StringToNumber_signed (s : bool) (d : jsstring) :
  forallb isNumberChar d = true ->
  (exists c r, d = c :: r /\ isDigit c = true) ->
  StringToNumber ((if s then [45%N] else []) ++ d) = unsignedDecimal s d.
Proof.
  intros C (c & r & E & D).
  unfold StringToNumber. destruct s; cbn [app].
  - assert (C' : forallb isNumberChar (45%N :: d) = true)
      by (cbn [forallb]; now rewrite C).
    rewrite (numberChars_trim _ C'). cbv beta iota.
    match goal with
    | |- context [nonDecimal ?t] =>
        replace (nonDecimal t) with (@None number)
          by (symmetry; exact (nonDecimal_numberChars _ C'))
    end.
    reflexivity.
  - rewrite (numberChars_trim _ C). rewrite E in *. cbv beta iota.
    match goal with
    | |- context [nonDecimal ?t] =>
        replace (nonDecimal t) with (@None number)
          by (symmetry; exact (nonDecimal_numberChars _ C))
    end.
    unfold isDigit in D. apply andb_true_iff in D as [D1 D2].
    apply N.leb_le in D1, D2.
    assert (N1 : ((c =? 43) = false)%N) by (apply N.eqb_neq; lia).
    assert (N2 : ((c =? 45) = false)%N) by (apply N.eqb_neq; lia).
    now rewrite N1, N2.
Qed.

Lemma exponent_then_point (ex : jsstring) :
  ex = [] \/ (exists e, ex = exponentText e) ->
  exponentPart (ex ++ [46%N]) = None /\ noDigitHead (ex ++ [46%N]).
Proof.
  intros H. split.
  - apply (exponentPart_stops 46%N); [now right|].
    apply in_or_app. right. now left.
  - destruct H as [->|[e ->]]; reflexivity.
Qed.

(** A point after a text that already has a fraction or an exponent
    does not read as a number. *)
Lemma unsignedDecimal_second_point (sg : bool) (ip fp ex : jsstring) :
  wellShaped ip fp ex -> fp <> [] \/ ex <> [] ->
  unsignedDecimal sg (decimalText ip fp ex ++ [46%N]) = NaN.
Proof.
  intros W H. pose proof W as (Di & Hd & Df & Ex).
  destruct (exponent_then_point ex Ex) as [XP NH].
  destruct (decimalText_head ip fp ex W) as (c & r & E & D).
  assert (NI : JSString.eqb (decimalText ip fp ex ++ [46%N]) (ofAscii "Infinity")
               = false) by (rewrite E; apply (digit_not_I c _ D)).
  unfold unsignedDecimal. rewrite NI.
  unfold decimalText. rewrite <- !app_assoc.
  assert (NE : ip <> []) by (destruct Hd as [->|(c0 & r0 & -> & _)]; discriminate).
  destruct fp as [|f fp].
  - cbn [app].
    match goal with
    | |- context [spanDigits ?t] =>
        replace (spanDigits t) with (ip, ex ++ [46%N])
          by (symmetry; exact (spanDigits_app ip _ Di NH))
    end.
    destruct ex as [|x ex]; [destruct H; congruence|].
    destruct Ex as [Ex|[e Ex]]; [discriminate|].
    injection Ex as -> Ex. cbn [app]. cbn [app] in XP. rewrite XP.
    now destruct ip.
  - cbn [app].
    match goal with
    | |- context [spanDigits ?t] =>
        replace (spanDigits t) with (ip, 46%N :: (f :: fp) ++ ex ++ [46%N])
          by (symmetry; apply (spanDigits_app ip _ Di); reflexivity)
    end.
    rewrite (spanDigits_app _ _ Df NH), XP. now destruct ip.
Qed.

Lemma unsignedDecimal_first_point (sg : bool) (ip : jsstring) :
  forallb isDigit ip = true -> ip <> [] ->
  unsignedDecimal sg (decimalText ip [] [] ++ [46%N]) =
  unsignedDecimal sg (decimalText ip [] []).
Proof.
  intros D NE. unfold decimalText. cbn [app]. rewrite !app_nil_r.
  pose proof (unsignedDecimal_fraction sg ip [] [] 0 D NE eq_refl eq_refl) as P.
  pose proof (unsignedDecimal_integer sg ip [] 0 D NE eq_refl) as Q.
  cbn [app List.length Z.of_nat] in P. rewrite app_nil_r in P, Q.
  rewrite Q. exact P.
Qed.

Lemma digits_plain (ds : jsstring) :
  forallb isDigit ds = true ->
  existsb (fun u : code_unit => (u =? 46) || (u =? 101))%N ds = false.
Proof.
  induction ds as [|c ds IH]; cbn [forallb existsb]; [reflexivity|].
  intros H. apply andb_true_iff in H as [Hc Hd]. rewrite (IH Hd).
  unfold isDigit in Hc. apply andb_true_iff in Hc as [H1 H2].
  apply N.leb_le in H1, H2.
  assert (N1 : ((c =? 46) = false)%N) by (apply N.eqb_neq; lia).
  assert (N2 : ((c =? 101) = false)%N) by (apply N.eqb_neq; lia).
  now rewrite N1, N2.
Qed.

(** A printed finite Number shows a point or an [e] exactly when it has
    a fraction or an exponent. *)
Lemma decimalText_plain (s : bool) (ip fp ex : jsstring) :
  wellShaped ip fp ex ->
  existsb (fun u : code_unit => (u =? 46) || (u =? 101))%N
          ((if s then [45%N] else []) ++ decimalText ip fp ex) =
  match fp, ex with [], [] => false | _, _ => true end.
Proof.
  intros (Di & _ & Df & Ex). unfold decimalText.
  rewrite !existsb_app, (digits_plain ip Di).
  replace (existsb _ (if s then [45%N] else [])) with false by now destruct s.
  cbn [orb]. destruct fp as [|f fp].
  - cbn [existsb orb]. destruct Ex as [->|[e ->]]; reflexivity.
  - reflexivity.
Qed.

(** X19.  A point or a comma typed after the text the amount field
    shows leaves a finite amount as it is when the text has neither a
    point nor an exponent, and sets it to zero when it has. *)
Theorem separator_typed_after_amount (l : Expense) (c : code_unit) :
  valid_binary prec emax (amount l) = true -> isFinite (amount l) = true ->
  c = 46%N \/ c = 44%N ->
  amount (changeAmount l (Number_toString (amount l) ++ [c])) =
  if existsb (fun u : code_unit => (u =? 46) || (u =? 101))%N (Number_toString (amount l))
  then zero
  else positiveZero (amount l).
Proof.
  intros V F C. cbn [changeAmount amount]. unfold coerceAmount.
  rewrite (parseAmount_separator _ c (toString_chars _ V F) C).
  destruct (amount l) as [s|s| |s m e]; try discriminate.
  - reflexivity.
  - destruct (toString_finite_shape s m e V) as (ip & fp & ex & E & W & R).
    rewrite E, (decimalText_plain s ip fp ex W), <- app_assoc.
    pose proof W as (Di & Hd & Df & Ex).
    assert (NE : ip <> []) by (destruct Hd as [->|(c0 & r0 & -> & _)]; discriminate).
    destruct (decimalText_head ip fp ex W) as (h & r & Eh & Dh).
    rewrite StringToNumber_signed.
    + destruct fp as [|f fp]; [destruct ex as [|x ex]|].
      * match goal with
        | |- or ?u zero = _ =>
            replace u with (S754_finite s m e)
              by (symmetry; etransitivity;
                  [exact (unsignedDecimal_first_point s ip Di NE) | exact R])
        end.
        reflexivity.
      * match goal with
        | |- or ?u zero = _ =>
            replace u with NaN
              by (symmetry; apply (unsignedDecimal_second_point s _ _ _ W);
                  right; discriminate)
        end.
        reflexivity.
      * match goal with
        | |- or ?u zero = _ =>
            replace u with NaN
              by (symmetry; apply (unsignedDecimal_second_point s _ _ _ W);
                  left; discriminate)
        end.
        reflexivity.
    + rewrite forallb_app. apply andb_true_iff.
      split; [exact (decimalText_chars ip fp ex W) | reflexivity].
    + exists h, (r ++ [46%N]). rewrite Eh. split; [reflexivity | exact Dh].
Qed.

Lemma separator_typed_after_amount_witness :
  Number_toString (amount Scenario.rTaxi) = ofAscii "1250"
  /\ amount (changeAmount Scenario.rTaxi (ofAscii "1250,")) =
     amount Scenario.rTaxi
  /\ Number_toString (amount Scenario.rLunch) = ofAscii "199.5"
  /\ amount (changeAmount Scenario.rLunch (ofAscii "199.5.")) = zero.
Proof.
  split; [vm_compute; reflexivity|]. split; [|split; [vm_compute; reflexivity|]].
  - exact (separator_typed_after_amount Scenario.rTaxi 44%N
             eq_refl eq_refl (or_intror eq_refl)).
  - exact (separator_typed_after_amount Scenario.rLunch 46%N
             eq_refl eq_refl (or_introl eq_refl)).
Defined.

End TypingFacts.

(* ================================================================== *)
(** * The rows of the table *)
(* ================================================================== *)

Module TableFacts.
Import JSString JSNumber Rounding JSON JSArray Intl Wallet Order View.
Import JSStringFacts JSNumberFacts JSONFacts JSArrayFacts WalletFacts ProjectionFacts.

Lemma filteredSorted_perm {C : Collator} (s : State) :
  Permutation (filteredSorted s) (byCategory (filterCategory s) (expenses s)).
Proof. apply sort_perm. Qed.

Lemma unique_by_id (es : list Expense) (a b : Expense) :
  NoDup (map id es) -> In a es -> In b es -> id a = id b -> a = b.
Proof.
  induction es as [|x es IH]; cbn [map]; intros N Ia Ib E; [contradiction|].
  inversion N as [|? ? Nx N']; subst.
  destruct Ia as [->|Ia], Ib as [->|Ib]; auto.
  - exfalso. apply Nx. rewrite E. now apply in_map.
  - exfalso. apply Nx. rewrite <- E. now apply in_map.
Qed.

(** X20.  The table body has one row for each record of the chosen
    category, whatever the sort key and direction, and the message row
    exactly when there is no such record; it is never empty. *)
Theorem table_never_empty {C : Collator} (s : State) :
  let matching := byCategory (filterCategory s) (expenses s) in
  List.length (tableBody s) = Nat.max 1 (List.length matching)
  /\ (In MessageRow (tableBody s) <-> matching = [])
  /\ (forall e, In (DataRow (mountRow s e)) (tableBody s) <-> In e matching).
Proof.
  cbv zeta. pose proof (filteredSorted_perm s) as P.
  pose proof (Permutation_length P) as L.
  unfold tableBody. rewrite length_app, length_map, L.
  set (matching := byCategory (filterCategory s) (expenses s)) in *.
  split; [|split].
  - destruct matching; cbn; lia.
  - rewrite in_app_iff. split.
    + intros [I|I].
      * apply in_map_iff in I as (e & E & _). discriminate.
      * destruct matching; [reflexivity | destruct I].
    + intros E. right. rewrite E. now left.
  - intros e. rewrite in_app_iff. split.
    + intros [I|I].
      * apply in_map_iff in I as (x & E & I).
        apply (f_equal (fun t => match t with
                                 | DataRow r => expense r
                                 | MessageRow => e
                                 end)) in E.
        cbn in E. subst x. exact (Permutation_in e P I).
      * destruct (List.length matching =? 0)%nat; [|destruct I].
        destruct I as [I|[]]. discriminate.
    + intros I. left. apply in_map_iff. exists e. split; [reflexivity|].
      exact (Permutation_in e (Permutation_sym P) I).
Qed.

(** X21.  With unique identifiers at most one row of the table is in
    edit mode, the row of the record [editingId] names. *)
Theorem one_row_edited {C : Collator} (s : State) (r1 r2 : Row) :
  NoDup (map id (expenses s)) ->
  In (DataRow r1) (tableBody s) -> In (DataRow r2) (tableBody s) ->
  isEditing r1 = true -> isEditing r2 = true ->
  r1 = r2 /\ editingId s = Some (id (expense r1)).
Proof.
  intros N I1 I2 E1 E2.
  assert (G : forall r, In (DataRow r) (tableBody s) -> isEditing r = true ->
              exists e, r = mountRow s e /\ In e (expenses s)
                        /\ editingId s = Some (id e)).
  { intros r I E. unfold tableBody in I. apply in_app_or in I as [I|I].
    - apply in_map_iff in I as (e & Er & I). cbv beta in Er. injection Er as <-.
      exists e. split; [reflexivity|]. split.
      + apply (byCategory_In (filterCategory s)).
        exact (Permutation_in e (filteredSorted_perm s) I).
      + cbn [mountRow isEditing] in E. destruct (editingId s) as [i|]; [|discriminate].
        apply JSStringFacts.eqb_eq in E. now subst.
    - destruct (List.length (filteredSorted s) =? 0)%nat; [|destruct I].
      destruct I as [I|[]]. discriminate. }
  destruct (G r1 I1 E1) as (a & -> & Ia & Ha).
  destruct (G r2 I2 E2) as (b & -> & Ib & Hb).
  split; [|exact Ha].
  f_equal. apply (unique_by_id (expenses s)); try assumption. congruence.
Qed.

Lemma one_row_edited_witness :
  let s := startEdit (id Scenario.rTaxi) Scenario.sampleState in
  let r := mountRow s Scenario.rTaxi in
  NoDup (map id (expenses s))
  /\ In (DataRow r) (@tableBody codeUnitCollator s)
  /\ isEditing r = true
  /\ editingId s = Some (id (expense r)).
Proof.
  intros s r.
  assert (N : NoDup (map id (expenses s)))
    by (vm_compute; repeat constructor; simpl; intuition discriminate).
  assert (I : In (DataRow r) (@tableBody codeUnitCollator s))
    by (vm_compute; left; reflexivity).
  assert (E : isEditing r = true) by (vm_compute; reflexivity).
  split; [exact N|]. split; [exact I|]. split; [exact E|].
  exact (proj2 (@one_row_edited codeUnitCollator s r r N I I E E)).
Defined.

End TableFacts.
